(** * NeuroAssistant: the asynchronous inference pipeline

    A shallow embedding of the provider router ([src/lib/smart-router.ts]),
    the provider adapter ([src/lib/ai-providers.ts]), the explain endpoint
    ([src/app/api/explain/route.ts]), the job definitions
    ([src/backend/queue/jobs.ts]), the status stream bridge
    ([src/app/api/queue/stream/[jobId]/route.ts]), the batch assembler
    of the PDF reader component ([processSummaryQueue] and
    [generateBatchSummaries]) with its page controls and pre-loading,
    the explain widget ([src/components/features/AIWidget.tsx]), the PDF
    loader and [sanitizeText], followed by the properties established
    for them.

    Conventions.  A JavaScript string is the list of its UTF-16 code
    units; a JavaScript number that the code only uses as an integer
    (lengths, page numbers, priorities, timestamps) is a [Z]; an optional
    field is an [option]; a value of type [any] is a [json] value or
    [None] for [undefined]. *)

From stdpp Require Import base list strings gmap.
From Stdlib Require Import ZArith NArith Lia DecimalString Sorting.Sorted
  Sorting.Permutation.
From Stdlib Require DecimalZ.

Set Warnings "-register-all".
Open Scope Z_scope.

(* ================================================================== *)
(** * JavaScript strings and values *)
(* ================================================================== *)

Module JS.

(** A string is its sequence of UTF-16 code units. *)
Definition jsstring : Type := list N.

(** Literal strings of the source, written in ASCII. *)
Definition js (s : string) : jsstring :=
  map Ascii.N_of_ascii (String.list_ascii_of_string s).

(** [s.length] *)
Definition strlen (s : jsstring) : Z := Z.of_nat (length s).

Definition code_eqb (a b : N) : bool := N.eqb a b.

Fixpoint str_eqb (a b : jsstring) : bool :=
  match a, b with
  | [], [] => true
  | x :: a', y :: b' => code_eqb x y && str_eqb a' b'
  | _, _ => false
  end.

(** The code units matched by [\s] and removed by [String.prototype.trim]:
    WhiteSpace and LineTerminator of ECMA-262. *)
Definition is_ws (c : N) : bool :=
  ((9 <=? c) && (c <=? 13))%N
  || (c =? 32)%N || (c =? 160)%N || (c =? 5760)%N
  || ((8192 <=? c) && (c <=? 8202))%N
  || (c =? 8232)%N || (c =? 8233)%N || (c =? 8239)%N
  || (c =? 8287)%N || (c =? 12288)%N || (c =? 65279)%N.

Fixpoint trimStart (s : jsstring) : jsstring :=
  match s with
  | [] => []
  | c :: s' => if is_ws c then trimStart s' else s
  end.

Definition trimEnd (s : jsstring) : jsstring := rev (trimStart (rev s)).

(** [s.trim()] *)
Definition trim (s : jsstring) : jsstring := trimEnd (trimStart s).

(** Truthiness of a string: non-empty. *)
Definition truthy_str (s : jsstring) : bool :=
  match s with [] => false | _ => true end.

(** [s.startsWith(p)] *)
Fixpoint startsWith (p s : jsstring) : bool :=
  match p, s with
  | [], _ => true
  | x :: p', y :: s' => code_eqb x y && startsWith p' s'
  | _ :: _, [] => false
  end.

(** [s.endsWith(p)] *)
Definition endsWith (p s : jsstring) : bool := startsWith (rev p) (rev s).

(** Number of maximal runs of [\s] in [s]; [in_run] says whether the
    previous code unit was white space. *)
Fixpoint ws_runs (in_run : bool) (s : jsstring) : Z :=
  match s with
  | [] => 0
  | c :: s' =>
      if is_ws c
      then (if in_run then 0 else 1) + ws_runs true s'
      else ws_runs false s'
  end.

(** [s.split(/\s+/).length]: one piece more than there are separators. *)
Definition split_ws_length (s : jsstring) : Z := 1 + ws_runs false s.

(** Number of code units of [s] that are not white space. *)
Definition non_ws_count (s : jsstring) : Z :=
  Z.of_nat (length (List.filter (fun c => negb (is_ws c)) s)).

(** A literal in which an apostrophe stands for the double quote. *)
Definition jq (s : string) : jsstring :=
  map (fun c => if (c =? 39)%N then 34%N else c) (js s).

(** [Number.MAX_SAFE_INTEGER], 2^53 - 1: up to it every integer is a
    number of the language. *)
Definition MAX_SAFE_INTEGER : Z := 9007199254740991.

(** [n.toString()] for an integer [n] between [- MAX_SAFE_INTEGER] and
    [MAX_SAFE_INTEGER]: its decimal digits, after a minus sign if it is
    negative.  Beyond that range the digits are those of the nearest
    number of the language, and from 10^21 on the text has an exponent;
    that is not modelled: the code applies [toString] to page numbers
    only. *)
Definition toString (n : Z) : jsstring :=
  js (NilEmpty.string_of_int (Z.to_int n)).

(** ** Values of type [any]

    The values that [JSON.parse] produces and that the status store
    holds.  A number keeps its lexeme: the code below never computes with
    the numbers of a parsed value. *)
Inductive json : Type :=
| JNull
| JBool (b : bool)
| JNum (lexeme : jsstring)
| JStr (s : jsstring)
| JArr (items : list json)
| JObj (members : list (jsstring * json)).

Inductive jstype : Type := Tstring | Tnumber | Tboolean | Tobject | Tundefined.

(** [typeof v], with [None] for [undefined]. *)
Definition typeof (v : option json) : jstype :=
  match v with
  | None => Tundefined
  | Some JNull => Tobject
  | Some (JBool _) => Tboolean
  | Some (JNum _) => Tnumber
  | Some (JStr _) => Tstring
  | Some (JArr _) => Tobject
  | Some (JObj _) => Tobject
  end.

Definition is_digit (c : N) : bool := ((48 <=? c) && (c <=? 57))%N.

Fixpoint all_zero_digits (s : jsstring) : bool :=
  match s with
  | [] => true
  | c :: s' => ((c =? 48) || negb (is_digit c))%N && all_zero_digits s'
  end.

(** Is the number written by this JSON lexeme zero?  Its mantissa has
    only zero digits. *)
Fixpoint mantissa (s : jsstring) : jsstring :=
  match s with
  | [] => []
  | c :: s' => if ((c =? 101) || (c =? 69))%N then [] else c :: mantissa s'
  end.

(** Truthiness; [undefined], [null], [false], zero and the empty string
    are falsy. *)
Definition truthy (v : option json) : bool :=
  match v with
  | None => false
  | Some JNull => false
  | Some (JBool b) => b
  | Some (JNum l) => negb (all_zero_digits (mantissa l))
  | Some (JStr s) => truthy_str s
  | Some (JArr _) => true
  | Some (JObj _) => true
  end.

(** Last binding of [k] in an object literal: a later duplicate key
    overwrites an earlier one. *)
Fixpoint obj_get (k : jsstring) (ms : list (jsstring * json)) : option json :=
  match ms with
  | [] => None
  | (k', v) :: ms' =>
      match obj_get k ms' with
      | Some v' => Some v'
      | None => if str_eqb k k' then Some v else None
      end
  end.

(** Result of an operation that may throw. *)
Inductive thrown (A : Type) : Type :=
| Return (a : A)
| Throw (message : jsstring).
Arguments Return {A} a.
Arguments Throw {A} message.

(** [v[n.toString()]] and [v[n]] for an integer [n]: property lookup on
    an object, index into an array or a string, [undefined] on a number or
    boolean, and a TypeError on [null]. *)
Definition get_index (v : json) (n : Z) : thrown (option json) :=
  match v with
  | JNull => Throw (js "Cannot read properties of null")
  | JBool _ => Return None
  | JNum _ => Return None
  | JStr s =>
      Return (if n <? 0 then None
              else match s !! Z.to_nat n with
                   | Some c => Some (JStr [c])
                   | None => None
                   end)
  | JArr l => Return (if n <? 0 then None else l !! Z.to_nat n)
  | JObj ms => Return (obj_get (toString n) ms)
  end.

(** ** [JSON.parse]

    A model of the built-in, after the grammar of ECMA-404: a recursive
    descent over the code units.  The fuel bounds the number of nested
    calls; [JSON_parse] supplies enough of it (lemma
    [parse_value_has_fuel]). *)
Inductive presult (A : Type) : Type :=
| POk (a : A) (rest : jsstring)
| PErr
| PFuel.
Arguments POk {A} a rest.
Arguments PErr {A}.
Arguments PFuel {A}.

(** JSON white space: space, tab, line feed, carriage return. *)
Definition json_ws (c : N) : bool :=
  ((c =? 32) || (c =? 9) || (c =? 10) || (c =? 13))%N.

Fixpoint skip_ws (s : jsstring) : jsstring :=
  match s with
  | [] => []
  | c :: s' => if json_ws c then skip_ws s' else s
  end.

Definition hexval (c : N) : option N :=
  if is_digit c then Some (c - 48)%N
  else if ((97 <=? c) && (c <=? 102))%N then Some (c - 87)%N
  else if ((65 <=? c) && (c <=? 70))%N then Some (c - 55)%N
  else None.

Definition hex4 (a b c d : N) : option N :=
  match hexval a, hexval b, hexval c, hexval d with
  | Some x, Some y, Some z, Some w => Some (((x * 16 + y) * 16 + z) * 16 + w)%N
  | _, _, _, _ => None
  end.

(** The code unit denoted by a one-letter escape. *)
Definition escape (c : N) : option N :=
  if (c =? 34)%N then Some 34%N
  else if (c =? 92)%N then Some 92%N
  else if (c =? 47)%N then Some 47%N
  else if (c =? 98)%N then Some 8%N
  else if (c =? 102)%N then Some 12%N
  else if (c =? 110)%N then Some 10%N
  else if (c =? 114)%N then Some 13%N
  else if (c =? 116)%N then Some 9%N
  else None.

(** The characters of a string literal after its opening quote, up to
    and including the closing quote. *)
Fixpoint parse_chars (s acc : jsstring) : presult jsstring :=
  match s with
  | [] => PErr
  | c :: s' =>
      if (c =? 34)%N then POk acc s'
      else if (c <? 32)%N then PErr
      else if (c =? 92)%N then
        match s' with
        | [] => PErr
        | e :: s'' =>
            if (e =? 117)%N then
              match s'' with
              | h1 :: h2 :: h3 :: h4 :: s3 =>
                  match hex4 h1 h2 h3 h4 with
                  | Some u => parse_chars s3 (acc ++ [u])
                  | None => PErr
                  end
              | _ => PErr
              end
            else
              match escape e with
              | Some u => parse_chars s'' (acc ++ [u])
              | None => PErr
              end
        end
      else parse_chars s' (acc ++ [c])
  end.

Fixpoint span_digits (s : jsstring) : jsstring * jsstring :=
  match s with
  | [] => ([], [])
  | c :: s' =>
      if is_digit c
      then let '(d, r) := span_digits s' in (c :: d, r)
      else ([], s)
  end.

(** At least one digit. *)
Definition digits1 (s : jsstring) : option (jsstring * jsstring) :=
  match span_digits s with
  | ([], _) => None
  | (d, r) => Some (d, r)
  end.

(** Integer part: a single zero, or a non-zero digit and more digits. *)
Definition parse_int (s : jsstring) : option (jsstring * jsstring) :=
  match s with
  | [] => None
  | c :: s' =>
      if (c =? 48)%N then Some ([c], s')
      else if is_digit c then digits1 s
      else None
  end.

Definition parse_frac (s : jsstring) : option (jsstring * jsstring) :=
  match s with
  | c :: s' =>
      if (c =? 46)%N then
        match digits1 s' with
        | Some (d, r) => Some (c :: d, r)
        | None => None
        end
      else Some ([], s)
  | [] => Some ([], s)
  end.

Definition parse_exp (s : jsstring) : option (jsstring * jsstring) :=
  match s with
  | c :: s' =>
      if ((c =? 101) || (c =? 69))%N then
        match s' with
        | sg :: s'' =>
            if ((sg =? 43) || (sg =? 45))%N then
              match digits1 s'' with
              | Some (d, r) => Some (c :: sg :: d, r)
              | None => None
              end
            else
              match digits1 s' with
              | Some (d, r) => Some (c :: d, r)
              | None => None
              end
        | [] => None
        end
      else Some ([], s)
  | [] => Some ([], s)
  end.

Definition parse_number (s : jsstring) : presult json :=
  let '(sign, s1) :=
    match s with
    | c :: s' => if (c =? 45)%N then ([c], s') else ([], s)
    | [] => ([], s)
    end in
  match parse_int s1 with
  | None => PErr
  | Some (i, s2) =>
      match parse_frac s2 with
      | None => PErr
      | Some (f, s3) =>
          match parse_exp s3 with
          | None => PErr
          | Some (e, s4) => POk (JNum (sign ++ i ++ f ++ e)) s4
          end
      end
  end.

(** A keyword [true], [false] or [null]. *)
Definition parse_keyword (k : jsstring) (v : json) (s : jsstring)
  : presult json :=
  if startsWith k s then POk v (drop (length k) s) else PErr.

Fixpoint parse_value (fuel : nat) (s : jsstring) : presult json :=
  match fuel with
  | O => PFuel
  | S f =>
      match skip_ws s with
      | [] => PErr
      | c :: r =>
          if (c =? 123)%N then
            match skip_ws r with
            | c' :: r' =>
                if (c' =? 125)%N then POk (JObj []) r'
                else parse_members f (skip_ws r) []
            | [] => PErr
            end
          else if (c =? 91)%N then
            match skip_ws r with
            | c' :: r' =>
                if (c' =? 93)%N then POk (JArr []) r'
                else parse_elements f r []
            | [] => PErr
            end
          else if (c =? 34)%N then
            match parse_chars r [] with
            | POk str r' => POk (JStr str) r'
            | PErr => PErr
            | PFuel => PFuel
            end
          else if (c =? 116)%N then parse_keyword (js "true") (JBool true) (c :: r)
          else if (c =? 102)%N then parse_keyword (js "false") (JBool false) (c :: r)
          else if (c =? 110)%N then parse_keyword (js "null") JNull (c :: r)
          else parse_number (c :: r)
      end
  end
with parse_elements (fuel : nat) (s : jsstring) (acc : list json)
  : presult json :=
  match fuel with
  | O => PFuel
  | S f =>
      match parse_value f s with
      | POk v r =>
          match skip_ws r with
          | c :: r' =>
              if (c =? 44)%N then parse_elements f r' (acc ++ [v])
              else if (c =? 93)%N then POk (JArr (acc ++ [v])) r'
              else PErr
          | [] => PErr
          end
      | PErr => PErr
      | PFuel => PFuel
      end
  end
with parse_members (fuel : nat) (s : jsstring) (acc : list (jsstring * json))
  : presult json :=
  match fuel with
  | O => PFuel
  | S f =>
      match s with
      | q :: s1 =>
          if (q =? 34)%N then
            match parse_chars s1 [] with
            | POk key s2 =>
                match skip_ws s2 with
                | c :: s3 =>
                    if (c =? 58)%N then
                      match parse_value f s3 with
                      | POk v r =>
                          match skip_ws r with
                          | d :: r' =>
                              if (d =? 44)%N
                              then parse_members f (skip_ws r') (acc ++ [(key, v)])
                              else if (d =? 125)%N
                              then POk (JObj (acc ++ [(key, v)])) r'
                              else PErr
                          | [] => PErr
                          end
                      | PErr => PErr
                      | PFuel => PFuel
                      end
                    else PErr
                | [] => PErr
                end
            | PErr => PErr
            | PFuel => PFuel
            end
          else PErr
      | [] => PErr
      end
  end.

(** [JSON.parse(s)]: [None] when it throws a SyntaxError. *)
Definition JSON_parse (s : jsstring) : option json :=
  match parse_value (2 * length s + 2) s with
  | POk v r => match skip_ws r with [] => Some v | _ => None end
  | _ => None
  end.

End JS.

Import JS.

(* ================================================================== *)
(** * Provider router: [src/lib/smart-router.ts] *)
(* ================================================================== *)

Module Router.

Inductive Provider : Type := groq | siliconflow | gemini | github | huggingface.

Definition Provider_eqb (a b : Provider) : bool :=
  match a, b with
  | groq, groq | siliconflow, siliconflow | gemini, gemini
  | github, github | huggingface, huggingface => true
  | _, _ => false
  end.

Inductive TaskType : Type := simple | complex_reasoning | long_context | vision.

Record RouterInput : Type := {
  text : jsstring;
  hasImage : option bool;
  historyLength : option Z;
  taskType : option TaskType;
  wordCount : option Z
}.

Record ModelSelection : Type := {
  provider : Provider;
  modelId : string;
  baseUrl : option string;
  reason : string
}.

(** [n || d] on an optional number: [undefined] and [0] are falsy. *)
Definition num_or (n : option Z) (d : Z) : Z :=
  match n with
  | Some v => if v =? 0 then d else v
  | None => d
  end.

(** [input.wordCount || input.text.split(/\s+/).length] *)
Definition effective_wordCount (input : RouterInput) : Z :=
  num_or (wordCount input) (split_ws_length (text input)).

Definition TaskType_eqb (a b : TaskType) : bool :=
  match a, b with
  | simple, simple | complex_reasoning, complex_reasoning
  | long_context, long_context | vision, vision => true
  | _, _ => false
  end.

Definition selectModel (input : RouterInput) : ModelSelection :=
  let wordCount := effective_wordCount input in
  let hasImage := default false (hasImage input) in
  let historyLength := num_or (historyLength input) 0 in
  let taskType := default simple (taskType input) in
  if hasImage || (10000 <? wordCount) || (50000 <? strlen (text input)) then
    {| provider := gemini;
       modelId := "gemini-1.5-flash";
       baseUrl := None;
       reason := "Large context or image input - Gemini handles 1M tokens and vision" |}
  else if TaskType_eqb taskType complex_reasoning then
    {| provider := huggingface;
       modelId := "meta-llama/Llama-3.1-8B-Instruct";
       baseUrl := Some "https://api-inference.huggingface.co/v1";
       reason := "Complex reasoning task - Using HuggingFace Llama model" |}
  else if 10 <? historyLength then
    {| provider := siliconflow;
       modelId := "Qwen/Qwen2.5-7B-Instruct";
       baseUrl := Some "https://api.siliconflow.cn/v1";
       reason := "Long conversation history - SiliconFlow has 500K TPM capacity" |}
  else
    {| provider := groq;
       modelId := "llama-3.1-8b-instant";
       baseUrl := Some "https://api.groq.com/openai/v1";
       reason := "Short interaction - Groq provides instant latency (~0.2s)" |}.

Definition COMPRESSED_SYSTEM_PROMPT : jsstring :=
  js "Study assistant. Be concise. Use bullet points. Omit polite filler. Max 100 words.".

Record Message : Type := { role : string; content : jsstring }.

(** [history.slice(-n)]: the last [n] messages. *)
Definition slice_last (n : nat) (history : list Message) : list Message :=
  drop (length history - n)%nat history.

Definition getOptimizedHistory (history : list Message) (p : Provider)
  : list Message :=
  match p with
  | groq | siliconflow | huggingface => slice_last 6 history
  | gemini => history
  | github => slice_last 10 history
  end.

(** The five labels the specification gives the providers. *)
Inductive Tier : Type :=
| fast | high_volume | alternative_reasoning | vision_tier | reasoning_tier.

(** The specification's fixed priority
    [fast, high-volume, alternative-reasoning, vision, reasoning-tier]
    names, position by position, the list
    [groq, siliconflow, huggingface, gemini, github] of the source. *)
Definition tier_of (p : Provider) : Tier :=
  match p with
  | groq => fast
  | siliconflow => high_volume
  | huggingface => alternative_reasoning
  | gemini => vision_tier
  | github => reasoning_tier
  end.

End Router.

Import Router.

(* ================================================================== *)
(** * Provider adapter: [src/lib/ai-providers.ts] *)
(* ================================================================== *)

Module Providers.

(** [process.env]: the environment variables that are set. *)
Definition Env : Type := gmap string jsstring.

Definition required (p : Provider) : string :=
  match p with
  | groq => "GROQ_API_KEY"
  | siliconflow => "SILICONFLOW_API_KEY"
  | gemini => "GOOGLE_GENERATIVE_AI_API_KEY"
  | github => "GITHUB_TOKEN"
  | huggingface => "HUGGINGFACE_API_KEY"
  end.

Record KeyCheck : Type := { available : bool; missing : list string }.

Definition checkApiKeys (env : Env) (p : Provider) : KeyCheck :=
  let key := required p in
  let available := match env !! key with
                   | Some v => truthy_str v
                   | None => false
                   end in
  {| available := available;
     missing := if available then [] else [key] |}.

(** One call [client.chat.completions.create] of an OpenAI-compatible
    client: the client's base URL and key, and the request. *)
Record ApiCall : Type := {
  call_provider : Provider;
  call_baseURL : string;
  call_apiKey : option jsstring;
  call_model : string;
  call_messages : list Message;
  call_max_tokens : Z
}.

(** The upstream services: a call returns a response ([None]) or throws
    an error with a message. *)
Definition Upstream : Type := ApiCall -> option jsstring.

(** What the code does that the properties observe, in order. *)
Inductive Action : Type :=
| ASelect (input : RouterInput)
| ACheck (p : Provider)
| AInvoke (c : ApiCall).

Record StreamOptions : Type := {
  model : ModelSelection;
  prompt : jsstring;
  systemPrompt : option jsstring;
  history : option (list Message);
  maxTokens : option Z
}.

(** The message list every branch builds. *)
Definition build_messages (finalSystemPrompt : jsstring)
    (optimizedHistory : option (list Message)) (prompt : jsstring)
  : list Message :=
  (if truthy_str finalSystemPrompt
   then [{| role := "system"; content := finalSystemPrompt |}] else [])
  ++ default [] optimizedHistory
  ++ [{| role := "user"; content := prompt |}].

Definition default_baseURL (p : Provider) : string :=
  match p with
  | groq => "https://api.groq.com/openai/v1"
  | siliconflow => "https://api.siliconflow.cn/v1"
  | github => "https://models.inference.ai.azure.com"
  | huggingface => "https://api-inference.huggingface.co/v1"
  | gemini => ""
  end.

Definition default_max_tokens (p : Provider) : Z :=
  match p with
  | groq => 200
  | _ => 500
  end.

(** [u || d] on an optional URL. *)
Definition url_or (u : option string) (d : string) : string :=
  match u with
  | Some v => if String.eqb v "" then d else v
  | None => d
  end.

(** The error of [new OpenAI({ apiKey: undefined })]: the client is not
    built without a key.  Its wording is the library's. *)
Definition MISSING_KEY_MESSAGE : jsstring :=
  js "The OPENAI_API_KEY environment variable is missing or empty; either provide it, or instantiate the OpenAI client with an apiKey option, like new OpenAI({ apiKey: 'My API Key' }).".

(** The call of the [switch] for the selected provider.  The [gemini]
    case makes none and throws.  The other cases build a client with the
    provider's variable as key: when the variable is not set the
    constructor throws and no call is made; an empty string is a key to
    the client, and the call is made with it. *)
Definition primary_call (env : Env) (o : StreamOptions)
    (messages : list Message) : thrown ApiCall :=
  let m := model o in
  match provider m with
  | gemini =>
      Throw (js "Gemini provider requires @ai-sdk/google package. Please install it or use a different provider.")
  | p =>
      match env !! required p with
      | None => Throw MISSING_KEY_MESSAGE
      | Some key =>
          Return {| call_provider := p;
                    call_baseURL := url_or (baseUrl m) (default_baseURL p);
                    call_apiKey := Some key;
                    call_model := modelId m;
                    call_messages := messages;
                    call_max_tokens :=
                      num_or (maxTokens o) (default_max_tokens p) |}
      end
  end.

Definition fallback_model (p : Provider) : string :=
  match p with
  | groq => "llama-3.1-8b-instant"
  | siliconflow => "Qwen/Qwen2.5-7B-Instruct"
  | huggingface => "meta-llama/Llama-3.1-8B-Instruct"
  | _ => ""
  end.

(** The call a fallback provider gets inside the [catch] block. *)
Definition fallback_call (env : Env) (o : StreamOptions)
    (messages : list Message) (p : Provider) : ApiCall :=
  {| call_provider := p;
     call_baseURL := default_baseURL p;
     call_apiKey := env !! required p;
     call_model := fallback_model p;
     call_messages := messages;
     call_max_tokens := num_or (maxTokens o) (default_max_tokens p) |}.

(** The list the [catch] block of [streamFromProvider] walks. *)
Definition exception_fallbacks (excluded : Provider) : list Provider :=
  List.filter (fun p => negb (Provider_eqb p excluded))
    [groq; siliconflow; huggingface; gemini].

(** The [for ... of fallbackProviders] loop: the stream of the first
    fallback that has a key and answers, or [None] when the list is
    exhausted. *)
Fixpoint try_fallbacks (env : Env) (up : Upstream) (o : StreamOptions)
    (messages : list Message) (ps : list Provider)
  : option ApiCall * list Action :=
  match ps with
  | [] => (None, [])
  | p :: ps' =>
      if negb (available (checkApiKeys env p)) then
        let '(r, log) := try_fallbacks env up o messages ps' in
        (r, ACheck p :: log)
      else
        match p with
        | groq | siliconflow | huggingface =>
            let c := fallback_call env o messages p in
            match up c with
            | None => (Some c, [ACheck p; AInvoke c])
            | Some _ =>
                let '(r, log) := try_fallbacks env up o messages ps' in
                (r, ACheck p :: AInvoke c :: log)
            end
        | _ =>
            let '(r, log) := try_fallbacks env up o messages ps' in
            (r, ACheck p :: log)
        end
  end.

Definition final_messages (o : StreamOptions) : list Message :=
  let finalSystemPrompt :=
    match systemPrompt o with
    | Some sp => if truthy_str sp then sp else COMPRESSED_SYSTEM_PROMPT
    | None => COMPRESSED_SYSTEM_PROMPT
    end in
  let optimizedHistory :=
    match history o with
    | Some h => Some (getOptimizedHistory h (provider (model o)))
    | None => None
    end in
  build_messages finalSystemPrompt optimizedHistory (prompt o).

(** The [try] block: the client of the selected provider is built and
    the provider is called; its response is returned, or the error of
    the constructor or of the call is caught. *)
Definition primary_attempt (env : Env) (up : Upstream) (o : StreamOptions)
  : thrown ApiCall * list Action :=
  match primary_call env o (final_messages o) with
  | Return c =>
      match up c with
      | None => (Return c, [AInvoke c])
      | Some e => (Throw e, [AInvoke c])
      end
  | Throw e => (Throw e, [])
  end.

(** [streamFromProvider(options)]: the call whose response becomes the
    returned stream, or the error thrown, with the actions performed. *)
Definition streamFromProvider (env : Env) (up : Upstream) (o : StreamOptions)
  : thrown ApiCall * list Action :=
  let '(attempt, log) := primary_attempt env up o in
  match attempt with
  | Return c => (Return c, log)
  | Throw error =>
      if negb (Provider_eqb (provider (model o)) siliconflow) then
        let '(r, flog) :=
          try_fallbacks env up o (final_messages o)
            (exception_fallbacks (provider (model o))) in
        match r with
        | Some c => (Return c, log ++ flog)
        | None => (Throw error, log ++ flog)
        end
      else (Throw error, log)
  end.

(** The providers called, in order. *)
Fixpoint invoked (log : list Action) : list Provider :=
  match log with
  | [] => []
  | AInvoke c :: rest => call_provider c :: invoked rest
  | _ :: rest => invoked rest
  end.

(** The providers whose key was checked, in order. *)
Fixpoint checked (log : list Action) : list Provider :=
  match log with
  | [] => []
  | ACheck p :: rest => p :: checked rest
  | _ :: rest => checked rest
  end.

End Providers.

Import Providers.

(* ================================================================== *)
(** * Explain endpoint: [src/app/api/explain/route.ts] *)
(* ================================================================== *)

Module Explain.

Inductive Body : Type :=
| JsonError (error : jsstring)
| EventStream (source : ApiCall).

Record Response : Type := {
  status : Z;
  content_type : string;
  body : Body
}.

Definition error_response (code : Z) (message : jsstring) : Response :=
  {| status := code;
     content_type := "application/json";
     body := JsonError message |}.

Definition jstype_eqb (a b : jstype) : bool :=
  match a, b with
  | Tstring, Tstring | Tnumber, Tnumber | Tboolean, Tboolean
  | Tobject, Tobject | Tundefined, Tundefined => true
  | _, _ => false
  end.

(** A property read by the destructuring pattern: present on an object
    that has the member, [undefined] on every other non-null value. *)
Definition field (v : json) (k : string) : option json :=
  match v with
  | JObj ms => obj_get (js k) ms
  | _ => None
  end.

(** The task type as [selectModel] sees it: it compares the value with
    ["complex_reasoning"] only, so a value outside the enumeration acts
    as [simple]. *)
Definition taskType_of (v : option json) : TaskType :=
  match v with
  | Some (JStr s) =>
      if str_eqb s (js "complex_reasoning") then complex_reasoning
      else if str_eqb s (js "long_context") then long_context
      else if str_eqb s (js "vision") then vision
      else simple
  | _ => simple
  end.

(** The list the missing-key path of the endpoint walks. *)
Definition fallbackProviders : list Provider :=
  [groq; siliconflow; huggingface; gemini; github].

Definition availableFallbacks (selected : Provider) : list Provider :=
  List.filter (fun p => negb (Provider_eqb p selected)) fallbackProviders.

Definition provider_name (p : Provider) : string :=
  match p with
  | groq => "groq"
  | siliconflow => "siliconflow"
  | gemini => "gemini"
  | github => "github"
  | huggingface => "huggingface"
  end.

Definition fallback_selection (p : Provider) : ModelSelection :=
  {| provider := p;
     modelId := match p with
                | groq => "llama-3.1-8b-instant"
                | siliconflow => "Qwen/Qwen2.5-7B-Instruct"
                | gemini => "gemini-1.5-flash"
                | huggingface => "meta-llama/Llama-3.1-8B-Instruct"
                | github => "gpt-4o"
                end;
     baseUrl := match p with
                | groq => Some "https://api.groq.com/openai/v1"
                | siliconflow => Some "https://api.siliconflow.cn/v1"
                | huggingface => Some "https://api-inference.huggingface.co/v1"
                | github => Some "https://models.inference.ai.azure.com"
                | gemini => None
                end;
     reason := "Primary provider unavailable, using " +:+ provider_name p
               +:+ " as fallback" |}.

(** The [for ... of availableFallbacks] loop: the first provider with a
    key, and the checks made. *)
Fixpoint first_available (env : Env) (ps : list Provider)
  : option Provider * list Action :=
  match ps with
  | [] => (None, [])
  | p :: ps' =>
      if available (checkApiKeys env p) then (Some p, [ACheck p])
      else let '(r, log) := first_available env ps' in (r, ACheck p :: log)
  end.

Definition NO_KEYS_MESSAGE : jsstring :=
  js "No API keys configured. Please configure at least one provider (GROQ_API_KEY, SILICONFLOW_API_KEY, HUGGINGFACE_API_KEY, GOOGLE_GENERATIVE_AI_API_KEY, or GITHUB_TOKEN) in your environment variables.".

Definition EXPLAIN_SYSTEM_PROMPT : jsstring :=
  js "Study assistant. Be concise. Use bullet points. Omit polite filler. Max 100 words. Focus on the meaning in the given context.".

Definition build_prompt (term : jsstring) (context : option json) : jsstring :=
  match context with
  | Some (JStr c) =>
      if truthy_str c && (0 <? strlen (trim c)) then
        jq "Explain the term '" ++ term
        ++ jq "' in the context of this passage:" ++ [10%N; 10%N; 34%N] ++ c
        ++ [34%N; 10%N; 10%N]
        ++ js "Provide a simple explanation that relates to how the term is used in this specific context. Use an analogy if helpful."
      else jq "Explain the term '" ++ term
           ++ jq "' in simple terms using an analogy."
  | _ => jq "Explain the term '" ++ term
         ++ jq "' in simple terms using an analogy."
  end.

(** The argument of [selectModel]: [{ text: term, taskType: taskType ||
    "simple", wordCount: term.split(/\s+/).length }]. *)
Definition router_input (term : jsstring) (taskType : option json)
  : RouterInput :=
  {| text := term;
     hasImage := None;
     historyLength := None;
     taskType := Some (if truthy taskType then taskType_of taskType
                       else simple);
     wordCount := Some (split_ws_length term) |}.

(** The body of the [try] block after the destructuring
    [const { term, taskType, context } = await req.json()]. *)
Definition handle (env : Env) (up : Upstream)
    (term taskType context : option json) : Response * list Action :=
  if negb (truthy term) || negb (jstype_eqb (typeof term) Tstring) then
    (error_response 400 (js "Term is required"), [])
  else
    match term with
    | Some (JStr t) =>
        let input := router_input t taskType in
        let modelSelection := selectModel input in
        let keyCheck := checkApiKeys env (provider modelSelection) in
        let log0 := [ASelect input; ACheck (provider modelSelection)] in
        let '(chosen, log1) :=
          if negb (available keyCheck) then
            let '(found, log) :=
              first_available env
                (availableFallbacks (provider modelSelection)) in
            (option_map fallback_selection found, log)
          else (Some modelSelection, []) in
        match chosen with
        | None => (error_response 500 NO_KEYS_MESSAGE, log0 ++ log1)
        | Some selection =>
            let options :=
              {| model := selection;
                 prompt := build_prompt t context;
                 systemPrompt := Some EXPLAIN_SYSTEM_PROMPT;
                 history := None;
                 maxTokens := Some 50 |} in
            let '(r, log2) := streamFromProvider env up options in
            match r with
            | Return c =>
                ({| status := 200;
                    content_type := "text/event-stream";
                    body := EventStream c |},
                 log0 ++ log1 ++ log2)
            | Throw e => (error_response 500 e, log0 ++ log1 ++ log2)
            end
        end
    | _ => (error_response 400 (js "Term is required"), [])
    end.

Definition is_null (v : json) : bool :=
  match v with
  | JNull => true
  | _ => false
  end.

(** The message of the TypeError that destructuring [null] throws; its
    wording is the engine's. *)
Definition NULL_BODY_MESSAGE : jsstring :=
  js "Cannot destructure property 'term' of '(intermediate value)' as it is null.".

(** [POST(req)].  [parsed] is the outcome of [await req.json()]: the
    value of the body, or the SyntaxError of a body that is not JSON.
    Destructuring [null] throws a TypeError; every throw reaches the
    outer [catch], which answers 500 with the error's message. *)
Definition POST (env : Env) (up : Upstream) (parsed : thrown json)
  : Response * list Action :=
  match parsed with
  | Throw e => (error_response 500 e, [])
  | Return v =>
      if is_null v then (error_response 500 NULL_BODY_MESSAGE, [])
      else handle env up (field v "term") (field v "taskType")
                  (field v "context")
  end.

End Explain.

(* ================================================================== *)
(** * Job definitions: [src/backend/queue/jobs.ts] *)
(* ================================================================== *)

Module Jobs.

Inductive JobType : Type := explain | summarize | summarize_batch.

Inductive Status : Type := queued | processing | completed | failed.

Definition Status_eqb (a b : Status) : bool :=
  match a, b with
  | queued, queued | processing, processing
  | completed, completed | failed, failed => true
  | _, _ => false
  end.

Record JobResult : Type := {
  success : bool;
  data : option json;
  result_error : option jsstring;
  result_provider : option jsstring;
  result_model : option jsstring
}.

(** [progress?: number | { content?: string }] *)
Inductive Progress : Type :=
| Percent (n : Z)
| Streaming (content : option jsstring).

Record JobStatus : Type := {
  jobId : jsstring;
  status : Status;
  position : option Z;
  progress : option Progress;
  result : option JobResult;
  error : option jsstring;
  createdAt : Z;
  startedAt : option Z;
  completedAt : option Z
}.

Definition JOB_PRIORITIES (t : JobType) : Z :=
  match t with
  | explain => 10
  | summarize_batch => 5
  | summarize => 1
  end.

End Jobs.

(* ================================================================== *)
(** * Job queue *)
(* ================================================================== *)

Module Queue.

Import Jobs.

(** Modelled from the spec: the queue itself ([@/backend/queue/queue],
    imported by the stream endpoint) is not among the sources; only the
    job types and [JOB_PRIORITIES] are.  The specification's section 3
    gives the job record, and its section 4.1 the contract:
    [enqueue] assigns the priority of the job's type and persists a
    [queued] status; [claimNext] selects among the [queued] jobs the one
    with the highest priority and, among ties, the earliest [createdAt],
    and marks it [processing] with [startedAt] set. *)
Record Job : Type := {
  job_id : jsstring;
  job_type : JobType;
  clientId : jsstring;
  priority : Z;
  job_createdAt : Z
}.

(** Modelled from the spec: a job with the part of its [JobStatus] that
    [claimNext] reads and writes. *)
Record Entry : Type := {
  job : Job;
  entry_status : Status;
  entry_startedAt : option Z
}.

(** Modelled from the spec: the store holds the entries in the order in
    which they were enqueued. *)
Definition Store : Type := list Entry.

(** Modelled from the spec: [enqueue] at time [now]. *)
Definition enqueue (id client : jsstring) (t : JobType) (now : Z)
    (st : Store) : Store :=
  st ++ [{| job := {| job_id := id; job_type := t; clientId := client;
                      priority := JOB_PRIORITIES t; job_createdAt := now |};
            entry_status := queued;
            entry_startedAt := None |}].

(** Modelled from the spec: [a] dequeues strictly before [b]: higher
    priority, or the same priority and created earlier. *)
Definition before (a b : Job) : bool :=
  (priority b <? priority a)
  || ((priority a =? priority b) && (job_createdAt a <? job_createdAt b)).

(** Modelled from the spec: the entry is among the [queued] jobs. *)
Definition is_queued (e : Entry) : bool := Status_eqb (entry_status e) queued.

(** Modelled from the spec: position of the queued entry that dequeues
    first; [i] is the position of the head of [st].  Of two entries that
    agree on priority and creation time the one enqueued first is kept. *)
Fixpoint select (i : nat) (st : Store) : option (nat * Job) :=
  match st with
  | [] => None
  | e :: st' =>
      if is_queued e then
        match select (S i) st' with
        | Some (k, j) => if before j (job e) then Some (k, j) else Some (i, job e)
        | None => Some (i, job e)
        end
      else select (S i) st'
  end.

(** Modelled from the spec: the claimed job is marked [processing]
    with [startedAt] set. *)
Definition mark_processing (now : Z) (e : Entry) : Entry :=
  {| job := job e; entry_status := processing; entry_startedAt := Some now |}.

(** Modelled from the spec: [claimNext] at time [now]. *)
Definition claimNext (now : Z) (st : Store) : option (Job * Store) :=
  match select 0 st with
  | Some (k, j) => Some (j, alter (mark_processing now) k st)
  | None => None
  end.

(** A worker that calls [claimNext] [n] times in a row, at time [now],
    [now + 1], ...: the jobs in the order in which they were claimed. *)
Fixpoint claimMany (n : nat) (now : Z) (st : Store) : list Job :=
  match n with
  | O => []
  | S n' =>
      match claimNext now st with
      | Some (j, st') => j :: claimMany n' (now + 1) st'
      | None => []
      end
  end.

(** The jobs of the store that are still [queued], in store order. *)
Definition queued_jobs (st : Store) : list Job :=
  map job (List.filter is_queued st).

(** Modelled from the spec: the fallback contract of section 4.2,
    [fallbackOrder(excluding: provider)], the fixed priority
    [fast, high-volume, alternative-reasoning, vision, reasoning-tier]
    minus the excluded entry.  The worker that dispatches the jobs is
    not among the sources. *)
Definition fallbackOrder (excluding : Provider) : list Provider :=
  List.filter (fun p => negb (Provider_eqb p excluding))
    [groq; siliconflow; huggingface; gemini; github].

(** Modelled from the spec: the outcome of the credential walk, a
    provider to use or the error [ProviderUnavailable] of section 7. *)
Inductive Resolution : Type :=
| Use (p : Provider)
| ProviderUnavailable.

(** Modelled from the spec: the worker checks the credentials of the
    selected provider; if they are missing it walks the fallback list
    in order, skipping providers without credentials, and fails the job
    only if the entire list is exhausted. *)
Definition resolve (env : Env) (selected : Provider) : Resolution :=
  if available (checkApiKeys env selected) then Use selected
  else
    match List.find (fun p => available (checkApiKeys env p))
                    (fallbackOrder selected) with
    | Some p => Use p
    | None => ProviderUnavailable
    end.

(** Modelled from the spec: the status a worker writes for a claimed job
    of any type whose request the router maps to [input]: [failed] with
    an error when no provider is usable. *)
Definition dispatch (env : Env) (t : JobType) (input : RouterInput)
  : Status * Resolution :=
  match resolve env (provider (selectModel input)) with
  | Use p => (processing, Use p)
  | ProviderUnavailable => (failed, ProviderUnavailable)
  end.

(** [a] is claimed no later than [b] may be: the priority is not lower
    and, at equal priority, the creation time is not later. *)
Definition precedes (a b : Job) : Prop :=
  priority b < priority a
  \/ (priority a = priority b /\ job_createdAt a <= job_createdAt b).

End Queue.

(* ================================================================== *)
(** * Status stream bridge: [src/app/api/queue/stream/[jobId]/route.ts] *)
(* ================================================================== *)

Module Stream.

Import Jobs.

(** The object given to [sendEvent]. *)
Inductive Event : Type :=
| EvNotFound
| EvResultContent (content : jsstring)
| EvResultSummaries (summaries : json)
| EvError (message : jsstring)
| EvStatusProcessing
| EvProgress (content : jsstring)
| EvFailure (error : jsstring).

(** What [controller.enqueue] receives: [data: <JSON of the event>\n\n],
    or the literal line [data: [DONE]\n\n]. *)
Inductive Chunk : Type :=
| Data (e : Event)
| DONE.

(** The variables of [start]: [lastStatus], and whether the interval was
    cleared and the controller closed (the code always does both
    together). *)
Record State : Type := {
  lastStatus : option Status;
  closed : bool
}.

Definition initial : State := {| lastStatus := None; closed := false |}.

Definition close (st : State) : State :=
  {| lastStatus := lastStatus st; closed := true |}.

(** [status.status !== lastStatus] *)
Definition status_changed (s : Status) (l : option Status) : bool :=
  match l with
  | Some s' => negb (Status_eqb s s')
  | None => true
  end.

(** The [result] event of a completed job, if one is sent. *)
Definition result_events (r : JobResult) : list Chunk :=
  if success r && truthy (data r) then
    match data r with
    | Some (JStr s) => [Data (EvResultContent s)]
    | Some v =>
        match typeof (Some v) with
        | Tobject => [Data (EvResultSummaries v)]
        | _ => []
        end
    | None => []
    end
  else [].

(** [s || d] on an optional string. *)
Definition str_or (s : option jsstring) (d : jsstring) : jsstring :=
  match s with
  | Some v => if truthy_str v then v else d
  | None => d
  end.

(** One run of the interval callback.  [reply] is the outcome of
    [await getJobStatus(jobId)]: the record, nothing, or an exception.
    A cleared interval runs no callback. *)
Definition poll (st : State) (reply : thrown (option JobStatus))
  : State * list Chunk :=
  if closed st then (st, [])
  else
    match reply with
    | Throw e => (close st, [Data (EvFailure e)])
    | Return None => (close st, [Data EvNotFound])
    | Return (Some s) =>
        if status_changed (status s) (lastStatus st) then
          match status s, result s with
          | completed, Some r => (close st, result_events r ++ [DONE])
          | failed, _ =>
              (close st,
               [Data (EvError (str_or (error s) (js "Job failed"))); DONE])
          | processing, _ =>
              ({| lastStatus := Some (status s); closed := false |},
               [Data EvStatusProcessing])
          | _, _ => ({| lastStatus := Some (status s); closed := false |}, [])
          end
        else
          match progress s with
          | Some (Streaming (Some c)) =>
              if truthy_str c then (st, [Data (EvProgress c)]) else (st, [])
          | _ => (st, [])
          end
    end.

(** What happens to an open stream: the interval fires, or the client
    disconnects. *)
Inductive Input : Type :=
| Tick (reply : thrown (option JobStatus))
| Abort.

Definition step (st : State) (i : Input) : State * list Chunk :=
  match i with
  | Tick reply => poll st reply
  | Abort => (close st, [])
  end.

(** The chunks written to the stream over a sequence of inputs. *)
Fixpoint run (st : State) (inputs : list Input) : State * list Chunk :=
  match inputs with
  | [] => (st, [])
  | i :: rest =>
      let '(st1, out1) := step st i in
      let '(st2, out2) := run st1 rest in
      (st2, out1 ++ out2)
  end.

(** [GET] for a request that names a job: the stream from its opening.
    The interval callbacks are taken one after the other, each finished
    before the next begins. *)
Definition GET (inputs : list Input) : State * list Chunk := run initial inputs.

Definition is_terminal_event (c : Chunk) : bool :=
  match c with
  | Data (EvResultContent _) | Data (EvResultSummaries _) | Data (EvError _)
  | DONE => true
  | _ => false
  end.

Definition is_result (c : Chunk) : bool :=
  match c with
  | Data (EvResultContent _) | Data (EvResultSummaries _) => true
  | _ => false
  end.

Definition is_error (c : Chunk) : bool :=
  match c with
  | Data (EvError _) => true
  | _ => false
  end.



End Stream.

(* ================================================================== *)
(** * Batch assembler: the PDF reader component *)
(* ================================================================== *)

Module Reader.

Import Jobs.

Record Page : Type := { pageNum : Z; pageText : jsstring }.

(** What a render of the component captures and its callbacks read:
    [generatingSummaries] and [pageSummaryCache] do not change while a
    callback created by that render runs. *)
Record Closure : Type := {
  generatingSummaries : gset Z;
  pageSummaryCache : gmap Z jsstring
}.

(** The two refs, shared by the callbacks of every render. *)
Record Refs : Type := {
  summaryQueueRef : list Page;
  isProcessingQueueRef : bool
}.

Definition MAX_BATCH_PAGES : Z := 20.
Definition MAX_BATCH_TOKENS : Z := 25000.

Definition PLACEHOLDER : jsstring :=
  js "No text content available for this page.".

(** What the assembler does to the outside, in order.  A
    [LaterSummary] is a summary set from a timer callback, after the
    function that started the timer has returned: it comes after the
    effects listed before it, and its place among those listed after it
    says nothing of when it is set. *)
Inductive Effect : Type :=
| SetPageSummary (n : Z) (summary : jsstring)
| MarkGenerating (pages : list Z)
| Fetch (pages : list Page)
| UnmarkGenerating (pages : list Z)
| Delay (ms : Z)
| LaterSummary (n : Z) (summary : jsstring).

(** A reply of the status URL, as the poller reads it. *)
Record PollReply : Type := {
  reply_status : option Status;
  reply_result : option JobResult;
  reply_error : option jsstring
}.

(** The answer of [POST /api/summarize-batch]. *)
Inductive BatchResponse : Type :=
| FetchFails (message : jsstring)
| Accepted (replies : list PollReply)
| NotOk
| NoBody
| Streamed (fullSummary : jsstring).

Definition Server : Type := list Page -> BatchResponse.

(** [generatingSummaries.has(n) || pageSummaryCache[n]] *)
Definition already_done (c : Closure) (n : Z) : bool :=
  bool_decide (n ∈ generatingSummaries c)
  || match pageSummaryCache c !! n with
     | Some s => truthy_str s
     | None => false
     end.

(** [!item.pageText || item.pageText.trim().length < 10] *)
Definition is_short (text : jsstring) : bool :=
  negb (truthy_str text) || (strlen (trim text) <? 10).

(** [Math.ceil(item.pageText.length / 4)] *)
Definition estimatedTokens (text : jsstring) : Z := (strlen text + 3) / 4.

Definition batch_tokens (batch : list Page) : Z :=
  foldr (fun p acc => estimatedTokens (pageText p) + acc) 0 batch.

(** The inner [while] of [processSummaryQueue]: the batch, its token
    count, the queue that is left and the summaries set on the way. *)
Fixpoint build_batch (c : Closure) (queue batch : list Page)
    (currentBatchTokens : Z) : list Page * Z * list Page * list Effect :=
  match queue with
  | [] => (batch, currentBatchTokens, [], [])
  | item :: rest =>
      if negb (Z.of_nat (length batch) <? MAX_BATCH_PAGES) then
        (batch, currentBatchTokens, queue, [])
      else if already_done c (pageNum item) then
        build_batch c rest batch currentBatchTokens
      else if is_short (pageText item) then
        let '(b, t, q, effs) := build_batch c rest batch currentBatchTokens in
        (b, t, q, SetPageSummary (pageNum item) PLACEHOLDER :: effs)
      else
        let estimated := estimatedTokens (pageText item) in
        if (0 <? Z.of_nat (length batch))
           && (MAX_BATCH_TOKENS <? currentBatchTokens + estimated) then
          (batch, currentBatchTokens, queue, [])
        else
          build_batch c rest (batch ++ [item]) (currentBatchTokens + estimated)
  end.

(** [s.replace(/^<fence>\n?/, "")] for a string that starts with the
    fence. *)
Definition strip_open (fence s : jsstring) : jsstring :=
  match drop (length fence) s with
  | c :: s' => if (c =? 10)%N then s' else c :: s'
  | [] => []
  end.

(** [s.replace(/\n?```$/, "")] *)
Definition strip_close (s : jsstring) : jsstring :=
  if endsWith (10%N :: js "```") s then take (length s - 4) s
  else if endsWith (js "```") s then take (length s - 3) s
  else s.

(** The text handed to [JSON.parse]. *)
Definition strip_fences (fullSummary : jsstring) : jsstring :=
  let jsonText := trim fullSummary in
  if startsWith (js "```json") jsonText then
    strip_close (strip_open (js "```json") jsonText)
  else if startsWith (js "```") jsonText then
    strip_close (strip_open (js "```") jsonText)
  else jsonText.

(** The [forEach] that writes the summaries of a parsed result:
    [summaries[pageNum.toString()] || summaries[pageNum]] is one and the
    same property for an integer page number.  Returns the summaries
    set and the TypeError that interrupted the loop, if any. *)
Fixpoint distribute (summaries : json) (pages : list Page)
  : list Effect * option jsstring :=
  match pages with
  | [] => ([], None)
  | p :: rest =>
      match get_index summaries (pageNum p) with
      | Throw e => ([], Some e)
      | Return summary =>
          let here :=
            match summary with
            | Some (JStr s) =>
                if truthy_str s then [SetPageSummary (pageNum p) s] else []
            | _ => []
            end in
          let '(effs, err) := distribute summaries rest in
          (here ++ effs, err)
      end
  end.

(** The [catch (parseError)] block. *)
Definition parse_fallback (pagesToProcess : list Page)
    (fullSummary : jsstring) : list Effect :=
  match pagesToProcess with
  | first :: _ =>
      if truthy_str (trim fullSummary)
      then [SetPageSummary (pageNum first) (trim fullSummary)]
      else []
  | [] => []
  end.

(** The [try] around [JSON.parse] and the [forEach], with its [catch]. *)
Definition distribute_streamed (pagesToProcess : list Page)
    (fullSummary : jsstring) : list Effect :=
  match JSON_parse (strip_fences fullSummary) with
  | Some summaries =>
      let '(effs, err) := distribute summaries pagesToProcess in
      match err with
      | None => effs
      | Some _ => effs ++ parse_fallback pagesToProcess fullSummary
      end
  | None => parse_fallback pagesToProcess fullSummary
  end.

(** The poller of a queued request, over the replies of the status URL
    in order; [attempts] counts the polls made.  Every way out other
    than a successful completion throws or stops polling and sets no
    summary. *)
Fixpoint poll_status (pagesToProcess : list Page) (attempts : Z)
    (replies : list PollReply) : list Effect :=
  match replies with
  | [] => []
  | r :: rest =>
      if 300 <=? attempts then []
      else
        match reply_status r, reply_result r with
        | Some completed, Some res =>
            if success res then
              match data res with
              | Some summaries => fst (distribute summaries pagesToProcess)
              | None => []
              end
            else poll_status pagesToProcess (attempts + 1) rest
        | Some failed, _ => []
        | _, _ => poll_status pagesToProcess (attempts + 1) rest
        end
  end.

(** The first poll, the only one [await pollStatus()] waits for. *)
Definition first_poll (pagesToProcess : list Page)
    (replies : list PollReply) : list Effect :=
  poll_status pagesToProcess 0 (take 1 replies).

(** A summary set by a poll that runs from the timer. *)
Definition later (e : Effect) : Effect :=
  match e with
  | SetPageSummary n summary => LaterSummary n summary
  | _ => e
  end.

(** The polls after the first: when the first poll finds the job
    neither failed nor completed with success it arms [setTimeout(poll,
    1000)] and returns, and the polling goes on from the timer. *)
Definition later_polls (pagesToProcess : list Page)
    (replies : list PollReply) : list Effect :=
  match replies with
  | [] => []
  | r :: rest =>
      match reply_status r, reply_result r with
      | Some completed, Some res =>
          if success res then []
          else map later (poll_status pagesToProcess 1 rest)
      | Some failed, _ => []
      | _, _ => map later (poll_status pagesToProcess 1 rest)
      end
  end.

(** [generateBatchSummaries(pages)] under the closure [c].  For a
    queued request (status 202) it waits for the first poll only: the
    [finally] block unmarks the pages when that poll has returned, and
    the summaries of the later polls are set after it, from the timer. *)
Definition generateBatchSummaries (c : Closure) (server : Server)
    (pages : list Page) : list Effect :=
  let pagesToProcess :=
    List.filter (fun p => negb (already_done c (pageNum p))) pages in
  match pagesToProcess with
  | [] => []
  | _ =>
      [MarkGenerating (map pageNum pagesToProcess); Fetch pagesToProcess]
      ++ match server pagesToProcess with
         | FetchFails _ => []
         | Accepted replies => first_poll pagesToProcess replies
         | NotOk => []
         | NoBody => []
         | Streamed fullSummary => distribute_streamed pagesToProcess fullSummary
         end
      ++ [UnmarkGenerating (map pageNum pagesToProcess)]
      ++ match server pagesToProcess with
         | Accepted replies => later_polls pagesToProcess replies
         | _ => []
         end
  end.

(** A call [queueSummary(pageNum, pageText)] made by some render. *)
Record QueueCall : Type := {
  call_closure : Closure;
  call_page : Page
}.

(** The two early returns of [queueSummary]: the page is generating or
    cached, or is in the queue already. *)
Definition rejects (q : list Page) (k : QueueCall) : bool :=
  already_done (call_closure k) (pageNum (call_page k))
  || existsb (fun item => pageNum item =? pageNum (call_page k)) q.

(** The effect of [queueSummary] on the queue. *)
Definition push_summary (q : list Page) (k : QueueCall) : list Page :=
  if rejects q k then q else q ++ [call_page k].

(** The calls of [queueSummary] that arrive while the drain loop waits;
    each finds [isProcessingQueueRef] set, so it only pushes. *)
Definition push_all (q : list Page) (calls : list QueueCall) : list Page :=
  foldl push_summary q calls.

(** The outer [while] of [processSummaryQueue].  [arrivals] lists, for
    each [await] the loop reaches, the calls of [queueSummary] made
    during it; [fuel] bounds the number of iterations. *)
Fixpoint drain (fuel : nat) (c : Closure) (server : Server)
    (arrivals : list (list QueueCall)) (queue : list Page)
  : option (list Page * list Effect) :=
  match fuel with
  | O => None
  | S fuel' =>
      match queue with
      | [] => Some ([], [])
      | _ =>
          let '(batch, currentBatchTokens, queue1, effs) :=
            build_batch c queue [] 0 in
          if 0 <? Z.of_nat (length batch) then
            let gen := generateBatchSummaries c server batch in
            let queue2 := push_all queue1 (hd [] arrivals) in
            let arrivals2 := tl arrivals in
            let '(queue3, arrivals3, delay) :=
              if 0 <? Z.of_nat (length queue2)
              then (push_all queue2 (hd [] arrivals2), tl arrivals2,
                    [Delay 2000])
              else (queue2, arrivals2, []) in
            match drain fuel' c server arrivals3 queue3 with
            | Some (q, rest) => Some (q, effs ++ gen ++ delay ++ rest)
            | None => None
            end
          else
            match drain fuel' c server arrivals queue1 with
            | Some (q, rest) => Some (q, effs ++ rest)
            | None => None
            end
      end
  end.

Definition arrivals_size (arrivals : list (list QueueCall)) : nat :=
  length (concat arrivals).

(** [processSummaryQueue()] under the closure [c]: the refs when it
    returns and the effects it had.  A call that finds the loop running
    or the queue empty returns at once. *)
Definition processSummaryQueue (c : Closure) (server : Server)
    (arrivals : list (list QueueCall)) (refs : Refs)
  : option (Refs * list Effect) :=
  if isProcessingQueueRef refs
     || (Z.of_nat (length (summaryQueueRef refs)) =? 0)
  then Some (refs, [])
  else
    match drain (S (length (summaryQueueRef refs) + arrivals_size arrivals))
                c server arrivals (summaryQueueRef refs) with
    | Some (q, effs) =>
        Some ({| summaryQueueRef := q; isProcessingQueueRef := false |}, effs)
    | None => None
    end.

(** [queueSummary(pageNum, pageText)]: unless it returns early, it
    pushes the page and calls [processSummaryQueue]. *)
Definition queueSummary (server : Server)
    (arrivals : list (list QueueCall)) (refs : Refs) (k : QueueCall)
  : option (Refs * list Effect) :=
  if rejects (summaryQueueRef refs) k then Some (refs, [])
  else
    processSummaryQueue (call_closure k) server arrivals
      {| summaryQueueRef := summaryQueueRef refs ++ [call_page k];
         isProcessingQueueRef := isProcessingQueueRef refs |}.

(** The pages of the requests sent to the server. *)
Fixpoint fetched (effs : list Effect) : list (list Page) :=
  match effs with
  | [] => []
  | Fetch pages :: rest => pages :: fetched rest
  | _ :: rest => fetched rest
  end.

End Reader.

(* ================================================================== *)
(** * The explain widget: [src/components/features/AIWidget.tsx] *)
(* ================================================================== *)

Module Widget.

(** [s.split("\n")]: the pieces between the line feeds, at least one. *)
Fixpoint split_lines (s : jsstring) : list jsstring :=
  match s with
  | [] => [[]]
  | c :: s' =>
      if (c =? 10)%N then [] :: split_lines s'
      else match split_lines s' with
           | l :: ls => (c :: l) :: ls
           | [] => [[c]]
           end
  end.

(** [handleSelection]: the trimmed selection becomes the selected text
    if it has between 1 and 99 code units; otherwise the button is
    hidden and nothing is selected. *)
Definition handleSelection (selection : jsstring) : option jsstring :=
  let selectedText := trim selection in
  if (0 <? strlen selectedText) && (strlen selectedText <? 100)
  then Some selectedText
  else None.

(** The body [handleExplain] posts,
    [JSON.stringify({ term: selectedText, context: context || undefined })],
    as the endpoint reads it back: a member that is [undefined] is left
    out. *)
Definition request_body (selectedText context : jsstring) : json :=
  JObj ((js "term", JStr selectedText)
        :: (if truthy_str context then [(js "context", JStr context)]
            else [])).

(** The [for (const line of lines)] loop of [handleExplain]: the text
    of every line that is not blank is appended to [fullText], and each
    growth is shown with [setExplanation].  [extract] stands for
    [extractTextFromChunk]. *)
Fixpoint process_lines (extract : jsstring -> jsstring)
    (lines : list jsstring) (fullText : jsstring)
  : jsstring * list jsstring :=
  match lines with
  | [] => (fullText, [])
  | line :: rest =>
      if truthy_str (trim line) then
        let text := extract line in
        if truthy_str text then
          let '(final, shown) :=
            process_lines extract rest (fullText ++ text) in
          (final, (fullText ++ text) :: shown)
        else process_lines extract rest fullText
      else process_lines extract rest fullText
  end.

(** The [while (true)] loop of [handleExplain] over the decoded chunks
    of the response body: complete lines are processed, the incomplete
    last line stays in [buffer], and what is left in the buffer when the
    stream is done is processed as a line. *)
Fixpoint read_stream (extract : jsstring -> jsstring)
    (chunks : list jsstring) (buffer fullText : jsstring)
  : jsstring * list jsstring :=
  match chunks with
  | [] =>
      if truthy_str (trim buffer) then
        let text := extract buffer in
        if truthy_str text then (fullText ++ text, [fullText ++ text])
        else (fullText, [])
      else (fullText, [])
  | value :: rest =>
      let lines := split_lines (buffer ++ value) in
      let '(fullText1, shown) :=
        process_lines extract (List.removelast lines) fullText in
      let '(final, shown') :=
        read_stream extract rest (List.last lines []) fullText1 in
      (final, shown ++ shown')
  end.

(** [s.indexOf(pattern)], with [None] for -1. *)
Fixpoint indexOf (s pattern : jsstring) : option nat :=
  if startsWith pattern s then Some O
  else match s with
       | [] => None
       | _ :: s' => option_map S (indexOf s' pattern)
       end.

(** [s.split(/\s+/)]: the pieces between the maximal runs of white
    space, at least one; [in_run] says whether the previous code unit
    was white space. *)
Fixpoint split_ws (in_run : bool) (s : jsstring) : list jsstring :=
  match s with
  | [] => [[]]
  | c :: s' =>
      if is_ws c
      then (if in_run then split_ws true s' else [] :: split_ws true s')
      else match split_ws false s' with
           | l :: ls => (c :: l) :: ls
           | [] => [[c]]
           end
  end.

(** [words.slice(-n)]: the last [n] words, and all of them for [n] = 0,
    since -0 is 0. *)
Definition slice_from_end (n : nat) (words : list jsstring)
  : list jsstring :=
  match n with
  | O => words
  | _ => drop (length words - n)%nat words
  end.

(** [words.join(" ")] *)
Fixpoint join_words (words : list jsstring) : jsstring :=
  match words with
  | [] => []
  | [w] => w
  | w :: rest => w ++ 32%N :: join_words rest
  end.

(** [getSurroundingContext(fullText, selectedText, contextWords)] *)
Definition getSurroundingContext (fullText selectedText : jsstring)
    (contextWords : nat) : jsstring :=
  match indexOf fullText selectedText with
  | None => []
  | Some selectedIndex =>
      let beforeText := take selectedIndex fullText in
      let afterText :=
        drop (selectedIndex + length selectedText) fullText in
      let beforeWords := split_ws false (trim beforeText) in
      let beforeContext :=
        trim (join_words (slice_from_end contextWords beforeWords)) in
      let afterWords := split_ws false (trim afterText) in
      let afterContext :=
        trim (join_words (take contextWords afterWords)) in
      let contextParts :=
        (if truthy_str beforeContext then [beforeContext] else [])
        ++ (if truthy_str afterContext then [afterContext] else []) in
      trim (join_words contextParts)
  end.

End Widget.

(* ================================================================== *)
(** * PDF loader: the registry of documents and the text of a page *)
(* ================================================================== *)

Module PdfLoader.

(** [s.replace(/\s+/g, " ")]: every maximal run of white space becomes
    one space; [in_run] says whether the previous code unit was white
    space. *)
Fixpoint collapse_ws (in_run : bool) (s : jsstring) : jsstring :=
  match s with
  | [] => []
  | c :: s' =>
      if is_ws c
      then (if in_run then collapse_ws true s'
            else 32%N :: collapse_ws true s')
      else c :: collapse_ws false s'
  end.

(** [items.join(sep)] *)
Fixpoint join (sep : jsstring) (items : list jsstring) : jsstring :=
  match items with
  | [] => []
  | [x] => x
  | x :: rest => x ++ sep ++ join sep rest
  end.

(** What the loader reads of a [PDFDocumentProxy]: [numPages] and, for
    a page, the items of its text content, each with its [str] if it has
    one. *)
Record Doc : Type := {
  numPages : Z;
  textItems : Z -> list (option jsstring)
}.

(** [pdfRegistry], a [Map] from ids to documents. *)
Definition Registry : Type := gmap jsstring Doc.

Record LoadedPdfMeta : Type := { id : jsstring; pageCount : Z }.

(** [loadPdfFromArrayBuffer(buffer, id)]; [parsed] is the outcome of
    loading pdf.js and parsing the buffer, which may throw. *)
Definition loadPdfFromArrayBuffer (reg : Registry) (parsed : thrown Doc)
    (id : jsstring) : Registry * thrown LoadedPdfMeta :=
  match parsed with
  | Throw e => (reg, Throw e)
  | Return doc =>
      (<[id := doc]> reg, Return {| id := id; pageCount := numPages doc |})
  end.

(** [releasePdf(id)] *)
Definition releasePdf (reg : Registry) (id : jsstring) : Registry :=
  match reg !! id with
  | Some _ => delete id reg
  | None => reg
  end.

Definition NOT_LOADED (id : jsstring) : jsstring :=
  jq "PDF with id '" ++ id ++ jq "' is not loaded.".

Definition OUT_OF_RANGE (pageNumber : Z) : jsstring :=
  js "Page " ++ toString pageNumber ++ js " is out of range.".

Definition getPdfOrThrow (reg : Registry) (id : jsstring) : thrown Doc :=
  match reg !! id with
  | Some handle => Return handle
  | None => Throw (NOT_LOADED id)
  end.

(** [getPage(id, pageNumber)]: the page, of which the code reads the
    text items. *)
Definition getPage (reg : Registry) (id : jsstring) (pageNumber : Z)
  : thrown (list (option jsstring)) :=
  match getPdfOrThrow reg id with
  | Throw e => Throw e
  | Return doc =>
      if (pageNumber <? 1) || (numPages doc <? pageNumber)
      then Throw (OUT_OF_RANGE pageNumber)
      else Return (textItems doc pageNumber)
  end.

(** The chain of [getPageText] on the items of a page. *)
Definition items_text (items : list (option jsstring)) : jsstring :=
  trim (collapse_ws false (join (js " ") (map (default []) items))).

Definition getPageText (reg : Registry) (id : jsstring) (pageNumber : Z)
  : thrown jsstring :=
  match getPage reg id pageNumber with
  | Throw e => Throw e
  | Return items => Return (items_text items)
  end.

(** [isPdfLoaded(id)] *)
Definition isPdfLoaded (reg : Registry) (id : jsstring) : bool :=
  match reg !! id with
  | Some _ => true
  | None => false
  end.

End PdfLoader.

(* ================================================================== *)
(** * PDF reader: the pages shown and loaded *)
(* ================================================================== *)

Module Pages.

Definition digit_value (c : N) : Z := Z.of_N c - 48.

Definition digits_value (digits : jsstring) : Z :=
  fold_left (fun acc c => 10 * acc + digit_value c) digits 0.

(** [parseInt(s, 10)], with [None] for [NaN]: leading white space is
    skipped, a sign is read, and the longest run of decimal digits that
    follows is the value; without a digit there the result is [NaN].
    Numbers are integers here, which is exact up to 2^53; the code
    compares a greater one with the page count only. *)
Definition parseInt (s : jsstring) : option Z :=
  let trimmed := trimStart s in
  let '(negative, rest) :=
    match trimmed with
    | c :: r =>
        if (c =? 45)%N then (true, r)
        else if (c =? 43)%N then (false, r)
        else (false, trimmed)
    | [] => (false, [])
    end in
  match fst (span_digits rest) with
  | [] => None
  | d => Some (if negative then - digits_value d else digits_value d)
  end.

(** The calls the handlers of the page controls make. *)
Inductive NavCall : Type :=
| SetCurrentPage (page : Z)
| SetPageInputValue (value : jsstring).

Definition handlePreviousPage (currentPage : Z) : list NavCall :=
  if 1 <? currentPage then [SetCurrentPage (currentPage - 1)] else [].

Definition handleNextPage (currentPage pdfPageCount : Z) : list NavCall :=
  if currentPage <? pdfPageCount then [SetCurrentPage (currentPage + 1)]
  else [].

Definition handlePageInputBlur (pageInputValue : jsstring)
    (currentPage pdfPageCount : Z) : list NavCall :=
  match parseInt pageInputValue with
  | Some page =>
      if (1 <=? page) && (page <=? pdfPageCount)
      then [SetCurrentPage page]
      else [SetPageInputValue (toString currentPage)]
  | None => [SetPageInputValue (toString currentPage)]
  end.

(** [pdfScrollingMode]: the code tests for ["paginated"] and takes
    every other value as continuous. *)
Inductive ScrollingMode : Type := paginated | continuous.

(** [cache[i]] is a string that is not empty. *)
Definition cached (cache : gmap Z jsstring) (i : Z) : bool :=
  match cache !! i with
  | Some v => truthy_str v
  | None => false
  end.

(** [getPagesToRender()] *)
Definition getPagesToRender (pdfScrollingMode : ScrollingMode)
    (currentPage pdfPageCount : Z)
    (pageTextCache pageImageCache : gmap Z jsstring) : list Z :=
  match pdfScrollingMode with
  | paginated => [currentPage]
  | continuous =>
      let loadedPages :=
        List.filter
          (fun i => cached pageTextCache i || cached pageImageCache i)
          (seqZ 1 pdfPageCount) in
      if 0 <? Z.of_nat (length loadedPages) then loadedPages else [1]
  end.

(** What [preloadPages] does for a page, in order. *)
Inductive PreloadEffect : Type :=
| GetPageText (pageNum : Z)
| SetPageText (pageNum : Z) (text : jsstring)
| QueueSummary (pageNum : Z) (pageText : jsstring)
| GetPageImage (pageNum : Z)
| SetPageImage (pageNum : Z) (imageData : jsstring).

(** The callback [preloadPages] maps over the page numbers, under the
    caches of the render that created it.  [getPageText] and
    [getPageImage] stand for the loader's functions applied to the
    current document; an exception of either ends the work on the
    page. *)
Definition preload_page (pdfPageCount : Z)
    (pageTextCache pageImageCache pageSummaryCache : gmap Z jsstring)
    (getPageText getPageImage : Z -> thrown jsstring) (pageNum : Z)
  : list PreloadEffect :=
  if (pageNum <? 1) || (pdfPageCount <? pageNum) then []
  else
    let '(text_effects, thrown) :=
      if negb (cached pageTextCache pageNum) then
        match getPageText pageNum with
        | Return text =>
            ([GetPageText pageNum; SetPageText pageNum text]
             ++ (if truthy_str (trim text)
                 then [QueueSummary pageNum text] else []),
             false)
        | Throw _ => ([GetPageText pageNum], true)
        end
      else if negb (cached pageSummaryCache pageNum) then
        ([QueueSummary pageNum (default [] (pageTextCache !! pageNum))],
         false)
      else ([], false) in
    text_effects
    ++ (if thrown then []
        else if negb (cached pageImageCache pageNum) then
          match getPageImage pageNum with
          | Return imageData =>
              [GetPageImage pageNum; SetPageImage pageNum imageData]
          | Throw _ => [GetPageImage pageNum]
          end
        else []).

(** [preloadPages(pageNumbers)]: the effects page by page.  The pages
    are worked on concurrently, so the effects of different pages may
    interleave; those of one page come in this order. *)
Definition preloadPages (pdfPageCount : Z)
    (pageTextCache pageImageCache pageSummaryCache : gmap Z jsstring)
    (getPageText getPageImage : Z -> thrown jsstring)
    (pageNumbers : list Z) : list PreloadEffect :=
  flat_map
    (preload_page pdfPageCount pageTextCache pageImageCache
       pageSummaryCache getPageText getPageImage)
    pageNumbers.

End Pages.

(* ================================================================== *)
(** * Text utilities: [sanitizeText] *)
(* ================================================================== *)

Module Utils.

(** [text.replace(/\r\n/g, "\n")] *)
Fixpoint replace_crlf (s : jsstring) : jsstring :=
  match s with
  | [] => []
  | c :: s' =>
      match s' with
      | d :: s'' =>
          if (c =? 13)%N && (d =? 10)%N then 10%N :: replace_crlf s''
          else c :: replace_crlf s'
      | [] => [c]
      end
  end.

(** [text.replace(/\r/g, "\n")] *)
Definition replace_cr (s : jsstring) : jsstring :=
  map (fun c => if (c =? 13)%N then 10%N else c) s.

(** [text.replace(/\n{3,}/g, "\n\n")]: of a run of line feeds the first
    two are kept; [run] counts the line feeds of the run read so far. *)
Fixpoint collapse_newlines (run : nat) (s : jsstring) : jsstring :=
  match s with
  | [] => []
  | c :: s' =>
      if (c =? 10)%N
      then (if (run <? 2)%nat then 10%N :: collapse_newlines (S run) s'
            else collapse_newlines (S run) s')
      else c :: collapse_newlines O s'
  end.

Definition sanitizeText (text : jsstring) : jsstring :=
  trim (collapse_newlines O (replace_cr (replace_crlf text))).

End Utils.

(* ================================================================== *)
(** * Concrete inputs *)
(* ================================================================== *)

Module Examples.

Import Jobs Reader.

(** A request to explain a term, with a task that needs reasoning. *)
Definition reasoning_input : RouterInput :=
  {| text := js "why does entropy increase";
     hasImage := None;
     historyLength := None;
     taskType := Some complex_reasoning;
     wordCount := None |}.

Definition long_input : RouterInput :=
  {| text := js "a long document";
     hasImage := None;
     historyLength := Some 3;
     taskType := Some complex_reasoning;
     wordCount := Some 15000 |}.

Definition short_input : RouterInput :=
  {| text := js "entropy";
     hasImage := None;
     historyLength := None;
     taskType := Some simple;
     wordCount := Some 50 |}.

Definition chatty_input : RouterInput :=
  {| text := js "and then";
     hasImage := Some false;
     historyLength := Some 12;
     taskType := None;
     wordCount := None |}.

(** Keys for Groq and GitHub Models only. *)
Definition groq_github_env : Env :=
  {[ "GROQ_API_KEY" := js "gsk-1"; "GITHUB_TOKEN" := js "ghp-1" ]}.


(** Keys for SiliconFlow and Groq. *)
Definition siliconflow_groq_env : Env :=
  {[ "SILICONFLOW_API_KEY" := js "sf-1"; "GROQ_API_KEY" := js "gsk-1" ]}.

(** Every upstream call is refused. *)
Definition all_down : Upstream := fun _ => Some (js "429 Too Many Requests").

(** Only Groq answers. *)
Definition only_groq_up : Upstream :=
  fun c => match call_provider c with
           | groq => None
           | _ => Some (js "503 Service Unavailable")
           end.

Definition options_for (p : Provider) : StreamOptions :=
  {| model := Explain.fallback_selection p;
     prompt := js "Explain the term";
     systemPrompt := None;
     history := None;
     maxTokens := Some 50 |}.

Definition explain_entropy : json :=
  JObj [(js "term", JStr (js "entropy"))].




(** Four jobs submitted in the order summarize, explain,
    summarize-batch, explain, one millisecond apart. *)
Definition interleaved_store : Queue.Store :=
  Queue.enqueue (js "d") (js "c2") explain 1003
    (Queue.enqueue (js "c") (js "c1") summarize_batch 1002
       (Queue.enqueue (js "b") (js "c2") explain 1001
          (Queue.enqueue (js "a") (js "c1") summarize 1000 []))).

(** The closure of a first render: nothing generating, nothing cached. *)
Definition fresh : Closure :=
  {| generatingSummaries := ∅; pageSummaryCache := ∅ |}.

Definition page (n : Z) (t : string) : Page :=
  {| pageNum := n; pageText := js t |}.

(** Eleven code units, six of them not white space. *)
Definition spaced_page : Page := page 1 "a b c d e f".

Definition tiny_page : Page := page 2 "short".

Definition prose_page : Page :=
  page 3 "Entropy is a measure of the disorder of a system.".

Definition more_prose_page : Page :=
  page 4 "The second law says that it does not decrease.".

Definition idle (queue : list Page) : Refs :=
  {| summaryQueueRef := queue; isProcessingQueueRef := false |}.

(** A server that answers with an error status. *)
Definition failing_server : Server := fun _ => NotOk.

(** A server whose stream carries the given text. *)
Definition streaming (fullSummary : jsstring) : Server :=
  fun _ => Streamed fullSummary.

(** A record of a job that is being processed and has streamed
    [content] so far. *)
Definition streaming_record (content : jsstring) : JobStatus :=
  {| jobId := js "job-1";
     status := processing;
     position := None;
     progress := Some (Streaming (Some content));
     result := None;
     error := None;
     createdAt := 1700000000000;
     startedAt := Some 1700000001000;
     completedAt := None |}.

(** A document of two pages; the second has no text. *)
Definition two_page_doc : PdfLoader.Doc :=
  {| PdfLoader.numPages := 2;
     PdfLoader.textItems := fun n =>
       if n =? 1
       then [Some (js "  Entropy   is"); None; Some (js "a measure. ")]
       else [] |}.

(** A call of [queueSummary] for the short page, made by a render
    that has no summary and generates none. *)
Definition tiny_call : QueueCall :=
  {| call_closure := fresh; call_page := tiny_page |}.

End Examples.

(* ================================================================== *)
(** * Vocabulary of the statements *)
(* ================================================================== *)

Module Props.

Import Jobs Reader.

(** The first rule of [selectModel], on the fields of the input. *)
Definition large_or_image (input : RouterInput) : Prop :=
  hasImage input = Some true
  \/ 10000 < effective_wordCount input
  \/ 50000 < strlen (text input).

(** The providers for which the [catch] block of [streamFromProvider]
    builds a client. *)
Definition has_client (p : Provider) : bool :=
  match p with
  | groq | siliconflow | huggingface => true
  | gemini | github => false
  end.

(** A fallback the [catch] block can call: it has a key and a client. *)
Definition usable (env : Env) (p : Provider) : bool :=
  available (checkApiKeys env p) && has_client p.

(** The provider the [try] block calls, if it calls one: none for
    gemini, and none when the variable of the selected provider is not
    set, since the client is not built then. *)
Definition primary_invoked (env : Env) (p : Provider) : list Provider :=
  match p with
  | gemini => []
  | _ => match env !! required p with
         | Some _ => [p]
         | None => []
         end
  end.

(** No provider has credentials. *)
Definition no_credentials (env : Env) : Prop :=
  forall p, available (checkApiKeys env p) = false.

(** The body is an object whose [term] is a non-empty string. *)
Definition valid_term (v : json) (t : jsstring) : Prop :=
  v <> JNull /\ Explain.field v "term" = Some (JStr t) /\ t <> [].

(** The body is a JSON value without a [term], or with a [term] that is
    not a string. *)
Definition lacks_term (v : json) : Prop :=
  forall t, Explain.field v "term" <> Some (JStr t).

Definition is_error_response (r : Explain.Response) : Prop :=
  (Explain.status r = 400 \/ Explain.status r = 500)
  /\ exists m, Explain.body r = Explain.JsonError m.

(** The status a poll reports, if it reports one. *)
Definition tick_status (i : Stream.Input) : option Status :=
  match i with
  | Stream.Tick (Return (Some s)) => Some (status s)
  | _ => None
  end.


(** The bound of the batch invariant: at most [MAX_BATCH_PAGES] pages
    and, unless the batch is a single page, at most [MAX_BATCH_TOKENS]
    estimated tokens. *)
Definition batch_ok (pages : list Page) : Prop :=
  Z.of_nat (length pages) <= MAX_BATCH_PAGES
  /\ (length pages = 1%nat \/ batch_tokens pages <= MAX_BATCH_TOKENS).

(** A page the inner loop puts into a batch: not generating or cached
    under the closure of the loop, and not short. *)
Definition admissible (c : Closure) (p : Page) : Prop :=
  already_done c (pageNum p) = false /\ is_short (pageText p) = false.

(** The loop invariant of the inner [while]. *)
Definition batch_inv (c : Closure) (batch : list Page) (tokens : Z) : Prop :=
  tokens = batch_tokens batch
  /\ Z.of_nat (length batch) <= MAX_BATCH_PAGES
  /\ ((length batch <= 1)%nat \/ tokens <= MAX_BATCH_TOKENS)
  /\ Forall (admissible c) batch.

Definition is_summary (e : Effect) : Prop :=
  match e with
  | SetPageSummary _ _ => True
  | _ => False
  end.

(** The number of messages [getOptimizedHistory] keeps of a history of
    [n] messages. *)
Definition history_window (p : Provider) (n : nat) : nat :=
  match p with
  | groq | siliconflow | huggingface => Nat.min n 6
  | github => Nat.min n 10
  | gemini => n
  end.

(** The provider of a call has a key in the environment. *)
Definition has_key (env : Env) (p : Provider) : Prop :=
  available (checkApiKeys env p) = true.

(** The options the explain endpoint gives [streamFromProvider]. *)
Definition explain_options (t : jsstring) (context : option json)
    (selection : ModelSelection) : StreamOptions :=
  {| model := selection;
     prompt := Explain.build_prompt t context;
     systemPrompt := Some Explain.EXPLAIN_SYSTEM_PROMPT;
     history := None;
     maxTokens := Some 50 |}.

(** The answer of the explain endpoint to the outcome of
    [streamFromProvider]. *)
Definition explain_response (r : thrown ApiCall) : Explain.Response :=
  match r with
  | Return c =>
      {| Explain.status := 200;
         Explain.content_type := "text/event-stream";
         Explain.body := Explain.EventStream c |}
  | Throw e => Explain.error_response 500 e
  end.

(** The [progress] event of a poll that finds the status unchanged:
    sent if the progress is an object with non-empty [content]. *)
Definition progress_events (s : JobStatus) : list Stream.Chunk :=
  match progress s with
  | Some (Streaming (Some c)) =>
      if truthy_str c then [Stream.Data (Stream.EvProgress c)] else []
  | _ => []
  end.

(** Polls that each find a record of the job. *)
Definition polls (ss : list JobStatus) : list Stream.Input :=
  map (fun s => Stream.Tick (Return (Some s))) ss.

(** The event of a poll that finds no record or throws. *)
Definition failure_event (reply : thrown (option JobStatus))
  : option Stream.Event :=
  match reply with
  | Throw e => Some (Stream.EvFailure e)
  | Return None => Some Stream.EvNotFound
  | Return (Some _) => None
  end.

(** The end of a stream that a [completed] or [failed] poll closes: a
    [result] or [error] event or none, then the sentinel. *)
Definition closing (tail : list Stream.Chunk) : Prop :=
  tail = [Stream.DONE]
  \/ exists c, (Stream.is_result c || Stream.is_error c) = true
               /\ tail = [c; Stream.DONE].

(** A summary set for one of [pages], with a text that is not empty. *)
Definition summary_for (pages : list Page) (e : Effect) : Prop :=
  match e with
  | SetPageSummary n s => In n (map pageNum pages) /\ s <> []
  | _ => False
  end.

(** [admissible], as a test. *)
Definition admissibleb (c : Closure) (p : Page) : bool :=
  negb (already_done c (pageNum p)) && negb (is_short (pageText p)).

(** No two requests without the two-second wait between them: [sent]
    says whether a request was sent since the last wait. *)
Fixpoint paced (sent : bool) (effs : list Effect) : bool :=
  match effs with
  | [] => true
  | Fetch _ :: rest => negb sent && paced true rest
  | Delay ms :: rest => paced (if ms =? 2000 then false else sent) rest
  | _ :: rest => paced sent rest
  end.

(** A batch answer in a Markdown code block opened by [fence]. *)
Definition fenced (fence : string) (body : jsstring) : jsstring :=
  js fence ++ 10%N :: body ++ 10%N :: js "```".

(** Every white-space code unit of the text is a space that stands
    between two other code units or at an end, and no two are
    adjacent. *)
Fixpoint single_spaced (s : jsstring) : bool :=
  match s with
  | [] => true
  | c :: s' =>
      (negb (is_ws c)
       || ((c =? 32)%N
           && match s' with
              | [] => true
              | d :: _ => negb (is_ws d)
              end))
      && single_spaced s'
  end.

(** The text does not begin with white space. *)
Definition head_non_ws (s : jsstring) : bool :=
  match s with
  | [] => true
  | c :: _ => negb (is_ws c)
  end.

(** The code units of a decimal numeral. *)
Fixpoint uint_codes (u : Decimal.uint) : jsstring :=
  match u with
  | Decimal.Nil => []
  | Decimal.D0 l => 48%N :: uint_codes l
  | Decimal.D1 l => 49%N :: uint_codes l
  | Decimal.D2 l => 50%N :: uint_codes l
  | Decimal.D3 l => 51%N :: uint_codes l
  | Decimal.D4 l => 52%N :: uint_codes l
  | Decimal.D5 l => 53%N :: uint_codes l
  | Decimal.D6 l => 54%N :: uint_codes l
  | Decimal.D7 l => 55%N :: uint_codes l
  | Decimal.D8 l => 56%N :: uint_codes l
  | Decimal.D9 l => 57%N :: uint_codes l
  end.

(** A page is loaded: its text or its image is cached. *)
Definition page_loaded (pageTextCache pageImageCache : gmap Z jsstring)
    (i : Z) : bool :=
  Pages.cached pageTextCache i || Pages.cached pageImageCache i.

(** The two prompts of the explain endpoint. *)
Definition passage_prompt (term passage : jsstring) : jsstring :=
  jq "Explain the term '" ++ term
  ++ jq "' in the context of this passage:" ++ [10%N; 10%N; 34%N] ++ passage
  ++ [34%N; 10%N; 10%N]
  ++ js "Provide a simple explanation that relates to how the term is used in this specific context. Use an analogy if helpful.".

Definition plain_prompt (term : jsstring) : jsstring :=
  jq "Explain the term '" ++ term ++ jq "' in simple terms using an analogy.".

(** No run of line feeds is longer than two; [run] counts the line
    feeds that come directly before the text. *)
Fixpoint short_runs (run : nat) (s : jsstring) : bool :=
  match s with
  | [] => true
  | c :: s' =>
      if (c =? 10)%N then (run <? 2)%nat && short_runs (S run) s'
      else short_runs O s'
  end.

(** A reply that ends the polling of a queued batch: the job failed, or
    it completed with success. *)
Definition decisive (r : PollReply) : bool :=
  match reply_status r, reply_result r with
  | Some completed, Some res => success res
  | Some failed, _ => true
  | _, _ => false
  end.

(** The summaries set on a decisive reply. *)
Definition poll_outcome (pagesToProcess : list Page) (r : PollReply)
  : list Effect :=
  match reply_status r, reply_result r with
  | Some completed, Some res =>
      match data res with
      | Some summaries => fst (distribute summaries pagesToProcess)
      | None => []
      end
  | _, _ => []
  end.

(** What holds of an effect of [preloadPages] on a loaded document:
    a page read can be read, and a text queued for a summary is the text
    of a page of the document and is not empty. *)
Definition preload_ok (reg : PdfLoader.Registry) (id : jsstring)
    (doc : PdfLoader.Doc) (e : Pages.PreloadEffect) : Prop :=
  match e with
  | Pages.GetPageText n =>
      PdfLoader.getPageText reg id n
      = Return (PdfLoader.items_text (PdfLoader.textItems doc n))
  | Pages.QueueSummary n t =>
      1 <= n <= PdfLoader.numPages doc /\ t <> []
  | Pages.SetPageText n _ | Pages.GetPageImage n | Pages.SetPageImage n _ =>
      1 <= n <= PdfLoader.numPages doc
  end.

(** The system message [streamFromProvider] sends: the given prompt, or
    the compressed prompt when none or an empty one is given. *)
Definition system_prompt_sent (o : StreamOptions) : jsstring :=
  match systemPrompt o with
  | Some (c :: s) => c :: s
  | _ => COMPRESSED_SYSTEM_PROMPT
  end.

(** The history [streamFromProvider] sends: the given history cut to
    the window of the selected provider. *)
Definition history_sent (o : StreamOptions) : list Message :=
  match history o with
  | Some h => getOptimizedHistory h (provider (model o))
  | None => []
  end.

(** A summary set from the timer for one of [pages], with a text that
    is not empty. *)
Definition later_summary_for (pages : list Page) (e : Effect) : Prop :=
  match e with
  | LaterSummary n s => In n (map pageNum pages) /\ s <> []
  | _ => False
  end.


(** One turn of the outer [while] of [processSummaryQueue] on the
    queue and the arrivals still to come: what the inner loop leaves of
    the queue, with the pages pushed during the two [await]s of the
    turn. *)
Definition turn (c : Closure) (s : list (list QueueCall) * list Page)
  : list (list QueueCall) * list Page :=
  let '(arrivals, queue) := s in
  match queue with
  | [] => (arrivals, [])
  | _ =>
      let '(batch, _, queue1, _) := build_batch c queue [] 0 in
      if 0 <? Z.of_nat (length batch) then
        let queue2 := push_all queue1 (hd [] arrivals) in
        if 0 <? Z.of_nat (length queue2)
        then (tl (tl arrivals), push_all queue2 (hd [] (tl arrivals)))
        else (tl arrivals, queue2)
      else (arrivals, queue1)
  end.

(** The arrivals to come and the queue when turn [n] of the outer loop
    starts; turns are counted from 0. *)
Fixpoint turns (n : nat) (c : Closure) (arrivals : list (list QueueCall))
    (queue : list Page) : list (list QueueCall) * list Page :=
  match n with
  | O => (arrivals, queue)
  | S n' => turn c (turns n' c arrivals queue)
  end.

Definition queue_at (n : nat) (c : Closure)
    (arrivals : list (list QueueCall)) (queue : list Page) : list Page :=
  snd (turns n c arrivals queue).

(** The calls of [queueSummary] made during a turn: those made while
    the request is awaited and, if the queue is not empty then, those
    made during the delay.  A turn that sends no request awaits
    nothing. *)
Definition arriving (c : Closure) (s : list (list QueueCall) * list Page)
  : list QueueCall :=
  let '(arrivals, queue) := s in
  match queue with
  | [] => []
  | _ =>
      let '(batch, _, queue1, _) := build_batch c queue [] 0 in
      if 0 <? Z.of_nat (length batch) then
        hd [] arrivals
        ++ (if 0 <? Z.of_nat (length (push_all queue1 (hd [] arrivals)))
            then hd [] (tl arrivals) else [])
      else []
  end.

Definition arriving_at (n : nat) (c : Closure)
    (arrivals : list (list QueueCall)) (queue : list Page) : list QueueCall :=
  arriving c (turns n c arrivals queue).

End Props.

Import Props.

(* ================================================================== *)
(** * Properties of the provider router *)
(* ================================================================== *)

Lemma Provider_eqb_eq (a b : Provider) : Provider_eqb a b = true <-> a = b.
Proof. destruct a, b; simpl; split; intro H; try reflexivity; discriminate. Qed.


Lemma TaskType_eqb_complex (t : option TaskType) :
  TaskType_eqb (default simple t) complex_reasoning = true
  <-> t = Some complex_reasoning.
Proof.
  destruct t as [[]|]; simpl; split; intro H; try reflexivity;
    try discriminate.
Qed.

Lemma large_or_image_test (input : RouterInput) :
  default false (hasImage input) || (10000 <? effective_wordCount input)
    || (50000 <? strlen (text input)) = true
  <-> large_or_image input.
Proof.
  unfold large_or_image.
  rewrite !orb_true_iff, !Z.ltb_lt.
  destruct (hasImage input) as [[]|]; simpl; intuition congruence.
Qed.

(** C3, as the code has it: the rules of [selectModel] apply in order and
    the first match wins.  An image, an effective word count above
    10000 (the supplied [wordCount] unless it is absent or zero, else the
    number of pieces of [text.split(/\s+/)]) or a text longer than 50000
    code units selects gemini; otherwise a [complex_reasoning] task
    selects huggingface, the provider the fallback list labels as
    alternative-reasoning; otherwise a history longer than 10 selects
    siliconflow; otherwise groq.  In particular an input with
    [wordCount] 15000 gets gemini whatever its other fields, and one
    with [wordCount] 50, task type [simple], no image, no history and a
    text of at most 50000 code units gets groq. *)
Theorem C3_selectModel_rules (input : RouterInput) :
  (large_or_image input -> provider (selectModel input) = gemini)
  /\ (~ large_or_image input ->
      taskType input = Some complex_reasoning ->
      provider (selectModel input) = huggingface)
  /\ (~ large_or_image input ->
      taskType input <> Some complex_reasoning ->
      10 < num_or (historyLength input) 0 ->
      provider (selectModel input) = siliconflow)
  /\ (~ large_or_image input ->
      taskType input <> Some complex_reasoning ->
      num_or (historyLength input) 0 <= 10 ->
      provider (selectModel input) = groq)
  /\ (wordCount input = Some 15000 -> provider (selectModel input) = gemini)
  /\ (wordCount input = Some 50 -> taskType input = Some simple ->
      hasImage input = None -> historyLength input = None ->
      strlen (text input) <= 50000 ->
      provider (selectModel input) = groq).
Proof.
  assert (R1 : large_or_image input -> provider (selectModel input) = gemini).
  { intro H. apply large_or_image_test in H. unfold selectModel.
    rewrite H. reflexivity. }
  assert (R234 : ~ large_or_image input ->
            provider (selectModel input) =
            if TaskType_eqb (default simple (taskType input)) complex_reasoning
            then huggingface
            else if 10 <? num_or (historyLength input) 0 then siliconflow
                 else groq).
  { intro H. unfold selectModel.
    destruct (default false (hasImage input)
              || (10000 <? effective_wordCount input)
              || (50000 <? strlen (text input))) eqn:E.
    - apply large_or_image_test in E. contradiction.
    - destruct (TaskType_eqb _ _); [reflexivity|].
      destruct (10 <? _); reflexivity. }
  split; [exact R1|].
  split.
  { intros H Ht. rewrite (R234 H).
    apply TaskType_eqb_complex in Ht. rewrite Ht. reflexivity. }
  split.
  { intros H Ht Hh. rewrite (R234 H).
    destruct (TaskType_eqb _ _) eqn:E.
    - apply TaskType_eqb_complex in E. contradiction.
    - apply Z.ltb_lt in Hh. rewrite Hh. reflexivity. }
  split.
  { intros H Ht Hh. rewrite (R234 H).
    destruct (TaskType_eqb _ _) eqn:E.
    - apply TaskType_eqb_complex in E. contradiction.
    - apply Z.ltb_ge in Hh. rewrite Hh. reflexivity. }
  split.
  { intro Hw. apply R1. right; left.
    unfold effective_wordCount. rewrite Hw. simpl. lia. }
  intros Hw Ht Hi Hh Hl.
  assert (N : ~ large_or_image input).
  { unfold large_or_image, effective_wordCount. rewrite Hw, Hi. simpl.
    intros [H|[H|H]]; [discriminate | lia | lia]. }
  rewrite (R234 N), Ht, Hh. reflexivity.
Qed.

Lemma C3_selectModel_rules_witness :
  provider (selectModel Examples.long_input) = gemini
  /\ provider (selectModel Examples.reasoning_input) = huggingface
  /\ provider (selectModel Examples.chatty_input) = siliconflow
  /\ provider (selectModel Examples.short_input) = groq.
Proof.
  split.
  { apply (proj1 (C3_selectModel_rules Examples.long_input)).
    right; left. vm_compute. reflexivity. }
  split.
  { apply (proj1 (proj2 (C3_selectModel_rules Examples.reasoning_input))).
    - intros [H|[H|H]]; vm_compute in H; discriminate.
    - reflexivity. }
  split.
  { apply (proj1 (proj2 (proj2 (C3_selectModel_rules Examples.chatty_input)))).
    - intros [H|[H|H]]; vm_compute in H; discriminate.
    - discriminate.
    - vm_compute. reflexivity. }
  apply (proj2 (proj2 (proj2 (proj2 (proj2
           (C3_selectModel_rules Examples.short_input)))))).
  - reflexivity.
  - reflexivity.
  - reflexivity.
  - reflexivity.
  - vm_compute. discriminate.
Defined.

(** C3 as stated fails: for a [complex_reasoning] task [selectModel]
    returns huggingface, which the fixed priority list labels
    alternative-reasoning; the reasoning-tier provider is github. *)
Lemma C3_counterexample :
  provider (selectModel Examples.reasoning_input) = huggingface
  /\ tier_of (provider (selectModel Examples.reasoning_input))
     = alternative_reasoning
  /\ tier_of (provider (selectModel Examples.reasoning_input))
     <> reasoning_tier.
Proof. vm_compute. repeat split; discriminate. Qed.

(* ================================================================== *)
(** * Properties of the provider adapter *)
(* ================================================================== *)

Lemma invoked_app (l1 l2 : list Action) :
  invoked (l1 ++ l2) = invoked l1 ++ invoked l2.
Proof.
  induction l1 as [|[] l1 IH]; simpl; try rewrite IH; reflexivity.
Qed.


Lemma invoked_checks (ps : list Provider) : invoked (map ACheck ps) = [].
Proof. induction ps; simpl; auto. Qed.

Lemma checked_checks (ps : list Provider) : checked (map ACheck ps) = ps.
Proof. induction ps; simpl; congruence. Qed.

Section Fallbacks.

Variable env : Env.
Variable up : Upstream.
Variable o : StreamOptions.
Variable messages : list Message.

Lemma fallback_call_provider (p : Provider) :
  call_provider (fallback_call env o messages p) = p.
Proof. reflexivity. Qed.

(** One iteration of the loop, by whether the provider is usable. *)
Lemma try_fallbacks_cons (p : Provider) (ps : list Provider) :
  try_fallbacks env up o messages (p :: ps) =
  if usable env p then
    match up (fallback_call env o messages p) with
    | None => (Some (fallback_call env o messages p),
               [ACheck p; AInvoke (fallback_call env o messages p)])
    | Some _ =>
        let '(r, l) := try_fallbacks env up o messages ps in
        (r, ACheck p :: AInvoke (fallback_call env o messages p) :: l)
    end
  else
    let '(r, l) := try_fallbacks env up o messages ps in (r, ACheck p :: l).
Proof.
  unfold usable. cbn [try_fallbacks].
  destruct (available (checkApiKeys env p)); destruct p; reflexivity.
Qed.


(** A walk that finds a stream returns the call of a usable provider of
    the list that answered, and has called usable providers only. *)
Lemma try_fallbacks_found (ps : list Provider) (c : ApiCall)
    (log : list Action) :
  try_fallbacks env up o messages ps = (Some c, log) ->
  (exists q, In q ps /\ usable env q = true
             /\ c = fallback_call env o messages q /\ up c = None)
  /\ forall q, In q (invoked log) -> In q ps /\ usable env q = true.
Proof.
  revert log. induction ps as [|p ps IH]; intros log H.
  - discriminate.
  - rewrite try_fallbacks_cons in H.
    destruct (usable env p) eqn:U.
    + destruct (up (fallback_call env o messages p)) eqn:E.
      * destruct (try_fallbacks env up o messages ps) as [r l].
        inversion H; subst.
        destruct (IH l eq_refl) as ((q & Hq & Hu & Hc & Hn) & B).
        split.
        -- exists q. repeat split; auto. right; exact Hq.
        -- simpl. intros q' [<-|Hq'].
           ++ split; [left; reflexivity|exact U].
           ++ destruct (B q' Hq'). split; [right|]; auto.
      * inversion H; subst. split.
        -- exists p. repeat split; auto. left; reflexivity.
        -- simpl. intros q' [<-|[]]. split; [left; reflexivity|exact U].
    + destruct (try_fallbacks env up o messages ps) as [r l].
      inversion H; subst.
      destruct (IH l eq_refl) as ((q & Hq & Hu & Hc & Hn) & B).
      split.
      * exists q. repeat split; auto. right; exact Hq.
      * simpl. intros q' Hq'. destruct (B q' Hq'). split; [right|]; auto.
Qed.

End Fallbacks.

Lemma primary_attempt_log (env : Env) (up : Upstream) (o : StreamOptions) :
  checked (snd (primary_attempt env up o)) = []
  /\ invoked (snd (primary_attempt env up o))
     = primary_invoked env (provider (model o)).
Proof.
  unfold primary_attempt, primary_call, primary_invoked.
  destruct (provider (model o)); cbn [required];
    try (match goal with |- context [env !! ?k] => destruct (env !! k) end);
    simpl;
    try (match goal with |- context [up ?c] => destruct (up c) end);
    simpl; auto.
Qed.

Lemma primary_invoked_cases (env : Env) (p : Provider) :
  primary_invoked env p = [] \/ primary_invoked env p = [p].
Proof.
  unfold primary_invoked.
  destruct p; auto; match goal with |- context [env !! ?k] =>
                      destruct (env !! k) end; auto.
Qed.





(** The list of the [catch] block is the list of the endpoint without
    github. *)
Lemma exception_fallbacks_without_github (p : Provider) :
  exception_fallbacks p
  = List.filter (fun q => negb (Provider_eqb q github))
      (Explain.availableFallbacks p).
Proof. destruct p; reflexivity. Qed.

(** C4 fails on the code: the two call sites walk different lists,
    although the README promises one order, Groq, SiliconFlow,
    HuggingFace, Gemini, GitHub, both when the primary provider fails and
    when its key is missing.  With groq excluded the endpoint's
    missing-key path has [siliconflow, huggingface, gemini, github], the
    exception path of [streamFromProvider] has
    [siliconflow, huggingface, gemini].  With keys for groq and github
    only and groq refusing the call, the key of github is never checked
    and github never called: the request fails with groq's error. *)
Theorem C4_fallback_lists_differ :
  Explain.availableFallbacks groq = [siliconflow; huggingface; gemini; github]
  /\ exception_fallbacks groq = [siliconflow; huggingface; gemini]
  /\ Explain.availableFallbacks siliconflow
     = [groq; huggingface; gemini; github]
  /\ exception_fallbacks siliconflow = [groq; huggingface; gemini]
  /\ available (checkApiKeys Examples.groq_github_env github) = true
  /\ (let out := Explain.POST Examples.groq_github_env Examples.all_down
                   (Return Examples.explain_entropy) in
      fst out = Explain.error_response 500 (js "429 Too Many Requests")
      /\ checked (snd out) = [groq; siliconflow; huggingface; gemini]
      /\ invoked (snd out) = [groq]).
Proof. vm_compute. repeat split; reflexivity. Qed.

(* ================================================================== *)
(** * Properties of the explain endpoint *)
(* ================================================================== *)

Lemma first_available_none (env : Env) (ps : list Provider) :
  no_credentials env ->
  Explain.first_available env ps = (None, map ACheck ps).
Proof.
  intro H. induction ps as [|p ps IH]; cbn [Explain.first_available map].
  - reflexivity.
  - rewrite (H p), IH. reflexivity.
Qed.

Lemma is_null_false (v : json) : v <> JNull -> Explain.is_null v = false.
Proof. destruct v; simpl; congruence. Qed.

(** Without a usable term the handler answers 400 and does nothing
    else. *)
Lemma handle_term_required (env : Env) (up : Upstream)
    (term taskType context : option json) :
  (forall t, term = Some (JStr t) -> t = []) ->
  Explain.handle env up term taskType context
  = (Explain.error_response 400 (js "Term is required"), []).
Proof.
  intro H. unfold Explain.handle.
  destruct term as [[|b|l|t|items|ms]|];
    try rewrite (H t eq_refl); cbn [truthy typeof Explain.jstype_eqb negb];
    rewrite ?orb_true_r; reflexivity.
Qed.

(** With a term and no credentials anywhere the handler selects a
    model, checks the five keys and answers 500. *)
Lemma handle_no_credentials (env : Env) (up : Upstream) (t : jsstring)
    (taskType context : option json) :
  t <> [] -> no_credentials env ->
  let input := Explain.router_input t taskType in
  let p := provider (selectModel input) in
  Explain.handle env up (Some (JStr t)) taskType context
  = (Explain.error_response 500 Explain.NO_KEYS_MESSAGE,
     ASelect input :: map ACheck (p :: Explain.availableFallbacks p)).
Proof.
  intros Ht Hn input p. unfold Explain.handle.
  destruct t as [|c t]; [congruence|].
  cbn [truthy truthy_str typeof Explain.jstype_eqb negb orb].
  cbv zeta. fold input. fold p. rewrite (Hn p). cbn [negb].
  rewrite (first_available_none env _ Hn). reflexivity.
Qed.

(** The handler answers with an error whenever no provider has
    credentials, and calls no provider. *)
Lemma handle_error_without_credentials (env : Env) (up : Upstream)
    (term taskType context : option json) :
  no_credentials env ->
  is_error_response (fst (Explain.handle env up term taskType context))
  /\ invoked (snd (Explain.handle env up term taskType context)) = [].
Proof.
  intro Hn.
  assert (D : (forall t, term = Some (JStr t) -> t = [])
              \/ exists t, term = Some (JStr t) /\ t <> []).
  { destruct term as [[|b|l|t|items|ms]|]; try (left; intros; discriminate).
    destruct t as [|c t].
    - left. intros t' Ht'. congruence.
    - right. exists (c :: t). split; [reflexivity|discriminate]. }
  destruct D as [D|(t & -> & Ht)].
  - rewrite (handle_term_required env up _ _ _ D). simpl.
    split; [|reflexivity]. split; [left; reflexivity|eauto].
  - rewrite (handle_no_credentials env up t taskType context Ht Hn).
    cbn [fst snd invoked]. rewrite invoked_checks.
    split; [|reflexivity]. split; [right; reflexivity|]. simpl. eauto.
Qed.

Lemma resolve_no_credentials (env : Env) (selected : Provider) :
  no_credentials env -> Queue.resolve env selected = Queue.ProviderUnavailable.
Proof.
  intro Hn. unfold Queue.resolve. rewrite (Hn selected).
  assert (F : forall ps,
             List.find (fun p => available (checkApiKeys env p)) ps = None).
  { induction ps as [|p ps IH]; cbn [List.find]; [reflexivity|].
    rewrite (Hn p). exact IH. }
  rewrite F. reflexivity.
Qed.

(** C7: when no provider has credentials, the explain endpoint answers
    every request with an error response (400 or 500, with a JSON error
    body) and calls no provider; a request with a term gets 500 with the
    message that names the five missing variables, after the key of the
    selected provider and those of the four fallbacks were checked in
    order.  For the job types whose endpoints are not among the sources,
    the worker of the specification fails the job with
    [ProviderUnavailable]. *)
Theorem C7_no_credentials (env : Env) (up : Upstream) :
  no_credentials env ->
  (forall parsed,
      is_error_response (fst (Explain.POST env up parsed))
      /\ invoked (snd (Explain.POST env up parsed)) = [])
  /\ (forall v t,
        valid_term v t ->
        let input := Explain.router_input t (Explain.field v "taskType") in
        let p := provider (selectModel input) in
        Explain.POST env up (Return v)
        = (Explain.error_response 500 Explain.NO_KEYS_MESSAGE,
           ASelect input :: map ACheck (p :: Explain.availableFallbacks p)))
  /\ (forall t input,
        Queue.dispatch env t input = (Jobs.failed, Queue.ProviderUnavailable)).
Proof.
  intro Hn. split; [|split].
  - intros [v|e]; simpl.
    + destruct (Explain.is_null v).
      * simpl. split; [|reflexivity]. split; [right; reflexivity|eauto].
      * apply handle_error_without_credentials; exact Hn.
    + split; [|reflexivity]. split; [right; reflexivity|eauto].
  - intros v t (Hv & Hf & Ht) input p. unfold Explain.POST.
    rewrite (is_null_false v Hv), Hf.
    apply handle_no_credentials; assumption.
  - intros t input. unfold Queue.dispatch.
    rewrite (resolve_no_credentials env _ Hn). reflexivity.
Qed.

Lemma no_credentials_empty : no_credentials ∅.
Proof. intros []; reflexivity. Qed.

Lemma C7_no_credentials_witness :
  Explain.POST ∅ Examples.all_down (Return Examples.explain_entropy)
  = (Explain.error_response 500 Explain.NO_KEYS_MESSAGE,
     [ASelect (Explain.router_input (js "entropy") None);
      ACheck groq; ACheck siliconflow; ACheck huggingface; ACheck gemini;
      ACheck github]).
Proof.
  apply (proj1 (proj2 (C7_no_credentials ∅ Examples.all_down
                         no_credentials_empty))
           Examples.explain_entropy (js "entropy")).
  repeat split; discriminate.
Defined.

(** C10, as the code has it: a request whose JSON body is a value other
    than [null] and has no [term], or a [term] that is not a string, is
    answered with HTTP 400 and the message "Term is required" before any
    model is selected, any key checked or any provider called. *)
Theorem C10_term_required (env : Env) (up : Upstream) (v : json) :
  v <> JNull -> lacks_term v ->
  Explain.POST env up (Return v)
  = (Explain.error_response 400 (js "Term is required"), []).
Proof.
  intros Hv Hl. unfold Explain.POST. rewrite (is_null_false v Hv).
  apply handle_term_required. intros t Ht. destruct (Hl t Ht).
Qed.

Lemma C10_term_required_witness :
  Explain.POST Examples.groq_github_env Examples.all_down
    (Return (JObj [(js "context", JStr (js "thermodynamics"))]))
  = (Explain.error_response 400 (js "Term is required"), []).
Proof.
  apply (C10_term_required Examples.groq_github_env Examples.all_down
           (JObj [(js "context", JStr (js "thermodynamics"))])).
  - discriminate.
  - intros t H. vm_compute in H. discriminate.
Defined.

(** C10 as stated fails for the JSON body [null]: it has no [term], yet
    the destructuring throws and the outer [catch] answers 500, not
    400. *)
Lemma C10_counterexample :
  lacks_term JNull
  /\ Explain.POST Examples.groq_github_env Examples.all_down (Return JNull)
     = (Explain.error_response 500 Explain.NULL_BODY_MESSAGE, [])
  /\ Explain.status
       (fst (Explain.POST Examples.groq_github_env Examples.all_down
               (Return JNull))) <> 400.
Proof.
  split; [intros t H; discriminate|].
  split; [reflexivity|]. simpl. discriminate.
Qed.

(* ================================================================== *)
(** * Properties of the status stream bridge *)
(* ================================================================== *)

Section StreamFacts.

Import Jobs Stream.


Lemma run_app (st : State) (l1 l2 : list Input) :
  run st (l1 ++ l2)
  = (fst (run (fst (run st l1)) l2),
     snd (run st l1) ++ snd (run (fst (run st l1)) l2)).
Proof.
  revert st. induction l1 as [|i l1 IH]; intros st; simpl.
  - destruct (run st l2); reflexivity.
  - destruct (step st i) as [st1 out1]. rewrite IH.
    destruct (run st1 l1) as [st2 out2]. simpl.
    destruct (run st2 l2) as [st3 out3]. simpl.
    rewrite <- app_assoc. reflexivity.
Qed.

(** A closed stream stays closed and writes nothing. *)
Lemma run_closed (st : State) (l : list Input) :
  closed st = true ->
  closed (fst (run st l)) = true /\ snd (run st l) = [].
Proof.
  revert st. induction l as [|i l IH]; intros st H; simpl.
  - auto.
  - assert (S1 : closed (fst (step st i)) = true /\ snd (step st i) = []).
    { destruct i; simpl; [|auto]. unfold poll. rewrite H. auto. }
    destruct (step st i) as [st1 out1]. simpl in S1. destruct S1 as [C ->].
    destruct (IH st1 C) as [C2 O2].
    destruct (run st1 l) as [st2 out2]. simpl in *. subst. auto.
Qed.

(** One step that leaves the stream open writes no [result], [error] or
    sentinel, and keeps [lastStatus] or sets it to the status of its
    poll, which is not [failed]. *)
Lemma step_open (st : State) (i : Input) :
  closed (fst (step st i)) = false ->
  closed st = false
  /\ Forall (fun c => is_terminal_event c = false) (snd (step st i))
  /\ (lastStatus (fst (step st i)) = lastStatus st
      \/ (lastStatus (fst (step st i)) = tick_status i
          /\ tick_status i <> Some failed)).
Proof.
  destruct i as [reply|]; simpl; [|discriminate].
  unfold poll. destruct (closed st) eqn:C; simpl.
  - rewrite C. discriminate.
  - destruct reply as [[s|]|e]; simpl; try discriminate.
    destruct (status_changed (status s) (lastStatus st)).
    + destruct (status s) eqn:S; simpl; try discriminate.
      * intros _. split; [reflexivity|]. split; [constructor|].
        right. split; [reflexivity|discriminate].
      * intros _. split; [reflexivity|]. split; [repeat constructor|].
        right. split; [reflexivity|discriminate].
      * destruct (result s); simpl; [discriminate|].
        intros _. split; [reflexivity|]. split; [constructor|].
        right. split; [reflexivity|discriminate].
    + intros _. split; [reflexivity|].
      destruct (progress s) as [[n|[c|]]|]; simpl;
        try (split; [constructor|left; reflexivity]).
      destruct (truthy_str c); simpl; rewrite ?C;
        (split; [repeat constructor|left; reflexivity]).
Qed.

(** A run that leaves the stream open has written no [result], [error]
    or sentinel; its [lastStatus] is the initial one or the status that
    one of its polls reported, and that status is not [failed]. *)
Lemma run_open (st : State) (l : list Input) :
  closed (fst (run st l)) = false ->
  closed st = false
  /\ Forall (fun c => is_terminal_event c = false) (snd (run st l))
  /\ (lastStatus (fst (run st l)) = lastStatus st
      \/ (exists i, In i l /\ lastStatus (fst (run st l)) = tick_status i
                    /\ tick_status i <> Some failed)).
Proof.
  revert st. induction l as [|i l IH]; intros st H; simpl in *.
  - auto.
  - destruct (step st i) as [st1 out1] eqn:S1.
    destruct (run st1 l) as [st2 out2] eqn:R. simpl in *.
    specialize (IH st1). rewrite R in IH. simpl in IH.
    destruct (IH H) as (C1 & F2 & L2).
    pose proof (step_open st i) as SO. rewrite S1 in SO. simpl in SO.
    destruct (SO C1) as (C0 & F1 & L1).
    split; [exact C0|]. split; [apply Forall_app; auto|].
    destruct L2 as [L2|(j & Hj & L2 & N2)].
    + rewrite L2. destruct L1 as [L1|[L1 N1]].
      * left; exact L1.
      * right. exists i. auto.
    + right. exists j. auto.
Qed.



End StreamFacts.

Import Jobs.






(* ================================================================== *)
(** * Properties of the job queue *)
(* ================================================================== *)

Section QueueFacts.

Import Queue.

Lemma before_precedes (a b : Job) : before a b = true -> precedes a b.
Proof.
  unfold before, precedes. rewrite orb_true_iff, andb_true_iff.
  rewrite !Z.ltb_lt, Z.eqb_eq. lia.
Qed.

Lemma not_before_precedes (a b : Job) : before a b = false -> precedes b a.
Proof.
  unfold before, precedes. rewrite orb_false_iff, andb_false_iff.
  rewrite !Z.ltb_ge, Z.eqb_neq. lia.
Qed.

Lemma precedes_refl (a : Job) : precedes a a.
Proof. unfold precedes. lia. Qed.

Lemma precedes_trans (a b c : Job) :
  precedes a b -> precedes b c -> precedes a c.
Proof. unfold precedes. lia. Qed.

Lemma select_none_queued (i : nat) (st : Store) :
  select i st = None -> forall e, In e st -> is_queued e = false.
Proof.
  revert i. induction st as [|x st IH]; intros i H e He; simpl in *.
  - destruct He.
  - destruct (is_queued x) eqn:Qx.
    + destruct (select (S i) st) as [[? ?]|];
        [destruct (before _ _)|]; discriminate.
    + destruct He as [<-|He]; [exact Qx|]. apply (IH (S i) H e He).
Qed.

(** What [select] returns is a queued entry of the store, at the
    position it reports, that precedes every queued entry. *)
Lemma select_spec (i : nat) (st : Store) (k : nat) (j : Job) :
  select i st = Some (k, j) ->
  exists pre e post,
    st = pre ++ e :: post
    /\ k = (i + length pre)%nat
    /\ job e = j
    /\ is_queued e = true
    /\ forall e', In e' st -> is_queued e' = true -> precedes j (job e').
Proof.
  revert i k j. induction st as [|e st IH]; intros i k j H; simpl in H.
  - discriminate.
  - destruct (is_queued e) eqn:Q.
    + destruct (select (S i) st) as [[k' j']|] eqn:S.
      * destruct (IH _ _ _ S) as (pre & e0 & post & -> & Hk & Hj & Hq & Hmin).
        destruct (before j' (job e)) eqn:B; inversion H; subst.
        -- exists (e :: pre), e0, post. simpl.
           split; [reflexivity|]. split; [lia|]. split; [reflexivity|].
           split; [exact Hq|].
           intros e' [<-|He'] Hq'; [apply before_precedes; exact B|].
           apply Hmin; auto.
        -- exists [], e, (pre ++ e0 :: post). simpl.
           split; [reflexivity|]. split; [lia|]. split; [reflexivity|].
           split; [exact Q|].
           intros e' [<-|He'] Hq'; [apply precedes_refl|].
           apply precedes_trans with (job e0).
           ++ apply not_before_precedes; exact B.
           ++ apply Hmin; auto.
      * inversion H; subst.
        exists [], e, st. simpl.
        split; [reflexivity|]. split; [lia|]. split; [reflexivity|].
        split; [exact Q|].
        intros e' [<-|He'] Hq'; [apply precedes_refl|].
        rewrite (select_none_queued _ _ S e' He') in Hq'. discriminate.
    + destruct (IH _ _ _ H) as (pre & e0 & post & -> & Hk & Hj & Hq & Hmin).
      exists (e :: pre), e0, post. simpl.
      split; [reflexivity|]. split; [lia|]. split; [exact Hj|].
      split; [exact Hq|].
      intros e' [<-|He'] Hq'; [congruence|]. apply Hmin; auto.
Qed.

Lemma select_none (i : nat) (st : Store) :
  select i st = None -> queued_jobs st = [].
Proof.
  unfold queued_jobs. revert i.
  induction st as [|e st IH]; intros i H; simpl in *.
  - reflexivity.
  - destruct (is_queued e).
    + destruct (select (S i) st) as [[? ?]|];
        [destruct (before _ _)|]; discriminate.
    + apply (IH (S i) H).
Qed.

Lemma alter_middle (f : Entry -> Entry) (pre post : Store) (e : Entry) :
  alter f (length pre) (pre ++ e :: post) = pre ++ f e :: post.
Proof. induction pre as [|x pre IH]; simpl; [reflexivity|]. f_equal. exact IH. Qed.

Lemma queued_jobs_app (a b : Store) :
  queued_jobs (a ++ b) = queued_jobs a ++ queued_jobs b.
Proof. unfold queued_jobs. rewrite List.filter_app, map_app. reflexivity. Qed.

(** A claim returns a queued job that precedes every queued job, marks
    it [processing] with [startedAt] set, and leaves the other queued
    jobs queued. *)
Lemma claimNext_spec (now : Z) (st st' : Store) (j : Job) :
  claimNext now st = Some (j, st') ->
  (forall x, In x (queued_jobs st) -> precedes j x)
  /\ Permutation (j :: queued_jobs st') (queued_jobs st)
  /\ exists pre e post,
       st = pre ++ e :: post /\ job e = j
       /\ st' = pre ++ mark_processing now e :: post.
Proof.
  unfold claimNext. intro H.
  destruct (select 0 st) as [[k j']|] eqn:S; [|discriminate].
  inversion H; subst. clear H.
  destruct (select_spec _ _ _ _ S) as (pre & e & post & -> & Hk & Hj & Hq & Hmin).
  simpl in Hk. subst k. rewrite alter_middle.
  split; [|split].
  - intros x Hx. unfold queued_jobs in Hx.
    apply in_map_iff in Hx. destruct Hx as (e' & <- & He').
    apply filter_In in He'. destruct He'. apply Hmin; auto.
  - rewrite !queued_jobs_app. unfold queued_jobs at 2 4. simpl.
    rewrite Hq. simpl. rewrite Hj.
    apply Permutation_middle.
  - exists pre, e, post. auto.
Qed.

Lemma claimMany_queued (n : nat) (now : Z) (st : Store) (x : Job) :
  In x (claimMany n now st) -> In x (queued_jobs st).
Proof.
  revert now st. induction n as [|n IH]; intros now st H; simpl in H.
  - destruct H.
  - destruct (claimNext now st) as [[j st']|] eqn:C; [|destruct H].
    destruct (claimNext_spec _ _ _ _ C) as (_ & P & _).
    apply (Permutation_in _ P).
    destruct H as [<-|H]; [left; reflexivity|right; eauto].
Qed.

Lemma claimMany_sorted (n : nat) (now : Z) (st : Store) :
  StronglySorted precedes (claimMany n now st).
Proof.
  revert now st. induction n as [|n IH]; intros now st; simpl.
  - constructor.
  - destruct (claimNext now st) as [[j st']|] eqn:C; [|constructor].
    destruct (claimNext_spec _ _ _ _ C) as (Hmin & P & _).
    constructor; [apply IH|].
    apply List.Forall_forall. intros x Hx. apply Hmin.
    apply (Permutation_in _ P). right.
    apply (claimMany_queued _ _ _ _ Hx).
Qed.

Lemma claimMany_all (n : nat) (now : Z) (st : Store) :
  (length (queued_jobs st) <= n)%nat ->
  Permutation (claimMany n now st) (queued_jobs st).
Proof.
  revert now st. induction n as [|n IH]; intros now st H; simpl.
  - destruct (queued_jobs st); [constructor|simpl in H; lia].
  - destruct (claimNext now st) as [[j st']|] eqn:C.
    + destruct (claimNext_spec _ _ _ _ C) as (_ & P & _).
      apply Permutation_trans with (j :: queued_jobs st'); [|exact P].
      constructor. apply IH.
      apply Permutation_length in P. simpl in P. lia.
    + unfold claimNext in C.
      destruct (select 0 st) as [[? ?]|] eqn:S; [discriminate|].
      rewrite (select_none _ _ S). constructor.
Qed.

Lemma queued_jobs_length (st : Store) :
  (length (queued_jobs st) <= length st)%nat.
Proof.
  unfold queued_jobs. rewrite length_map. apply List.filter_length_le.
Qed.

End QueueFacts.

(** C6: a job's priority is fixed by its type, explain 10,
    summarize-batch 5, summarize 1, and [enqueue] assigns it.  Whatever
    the order in which the jobs of a store were submitted, successive
    calls of [claimNext] return its queued jobs by decreasing priority
    and, within one priority, by increasing creation time: no job comes
    after one that it precedes.  As many calls as the store has entries
    return every queued job.  Each call returns a job that precedes all
    queued ones and marks it [processing]. *)
Theorem C6_priority_order :
  (JOB_PRIORITIES explain = 10
   /\ JOB_PRIORITIES summarize_batch = 5
   /\ JOB_PRIORITIES summarize = 1)
  /\ (forall id client t now st,
        exists e, Queue.enqueue id client t now st = st ++ [e]
                  /\ Queue.priority (Queue.job e) = JOB_PRIORITIES t
                  /\ Queue.job_createdAt (Queue.job e) = now
                  /\ Queue.entry_status e = queued)
  /\ (forall (n : nat) (now : Z) (st : Queue.Store),
        StronglySorted Queue.precedes (Queue.claimMany n now st))
  /\ (forall (now : Z) (st : Queue.Store),
        Permutation (Queue.claimMany (length st) now st)
                    (Queue.queued_jobs st))
  /\ (forall (now : Z) (st st' : Queue.Store) (j : Queue.Job),
        Queue.claimNext now st = Some (j, st') ->
        (forall x, In x (Queue.queued_jobs st) -> Queue.precedes j x)
        /\ Permutation (j :: Queue.queued_jobs st') (Queue.queued_jobs st))
  /\ map Queue.job_id (Queue.claimMany 4 2000 Examples.interleaved_store)
     = [js "b"; js "d"; js "c"; js "a"].
Proof.
  split; [repeat split|].
  split; [intros; eexists; repeat split|].
  split; [apply claimMany_sorted|].
  split; [intros now st; apply claimMany_all; apply queued_jobs_length|].
  split; [|reflexivity].
  intros now st st' j H.
  destruct (claimNext_spec _ _ _ _ H) as (A & B & _). auto.
Qed.

Lemma C6_priority_order_witness :
  exists j st',
    Queue.claimNext 2000 Examples.interleaved_store = Some (j, st')
    /\ Queue.job_id j = js "b"
    /\ forall x, In x (Queue.queued_jobs Examples.interleaved_store) ->
                 Queue.precedes j x.
Proof.
  destruct (Queue.claimNext 2000 Examples.interleaved_store)
    as [[j st']|] eqn:E; [|vm_compute in E; discriminate].
  exists j, st'. split; [reflexivity|]. split.
  - vm_compute in E. inversion E. reflexivity.
  - apply (proj1 (proj2 (proj2 (proj2 (proj2 C6_priority_order))))
             2000 Examples.interleaved_store st' j E).
Defined.

(* ================================================================== *)
(** * Properties of the batch assembler *)
(* ================================================================== *)

Section ReaderFacts.

Import Reader.

Lemma estimatedTokens_nonneg (t : jsstring) : 0 <= estimatedTokens t.
Proof.
  unfold estimatedTokens, strlen. apply Z.div_pos; lia.
Qed.

Lemma batch_tokens_app (b : list Page) (p : Page) :
  batch_tokens (b ++ [p]) = batch_tokens b + estimatedTokens (pageText p).
Proof.
  unfold batch_tokens. induction b as [|x b IH]; simpl; [lia|].
  rewrite IH. lia.
Qed.

Lemma fetched_app (a b : list Effect) :
  fetched (a ++ b) = fetched a ++ fetched b.
Proof.
  induction a as [|[] a IH]; simpl; try rewrite IH; reflexivity.
Qed.

Lemma fetched_summaries (effs : list Effect) :
  Forall is_summary effs -> fetched effs = [].
Proof.
  induction 1 as [|[] effs H _ IH]; simpl; auto; destruct H.
Qed.

Lemma batch_inv_nil (c : Closure) : batch_inv c [] 0.
Proof.
  unfold batch_inv, MAX_BATCH_PAGES. simpl.
  repeat split; try lia; auto.
Qed.

(** The inner loop keeps its invariant, takes the pages of a prefix of
    the queue, sets only placeholder summaries, and accounts for every
    page of the queue: a page is left in the queue, or put into the
    batch, or skipped as generating or cached, or it is short and got
    the placeholder. *)
Lemma build_batch_spec (c : Closure) (queue : list Page) :
  forall batch tokens b t q effs,
    build_batch c queue batch tokens = (b, t, q, effs) ->
    batch_inv c batch tokens ->
    batch_inv c b t
    /\ (length batch <= length b)%nat
    /\ (length q + (length b - length batch) <= length queue)%nat
    /\ (b = [] -> q = [])
    /\ Forall is_summary effs
    /\ forall p, In p queue ->
         In p q \/ In p b \/ already_done c (pageNum p) = true
         \/ (is_short (pageText p) = true
             /\ In (SetPageSummary (pageNum p) PLACEHOLDER) effs).
Proof.
  induction queue as [|item rest IH]; intros batch tokens b t q effs H Inv.
  - simpl in H. inversion H; subst.
    repeat split; try apply Inv; auto; try lia.
  - cbn [build_batch] in H.
    destruct (negb (Z.of_nat (length batch) <? MAX_BATCH_PAGES)) eqn:Full.
    { inversion H; subst.
      split; [exact Inv|]. split; [lia|]. split; [simpl; lia|].
      split.
      { intros ->. destruct Inv as (_ & _ & _ & _).
        simpl in Full. discriminate. }
      split; [constructor|]. intros p Hp. left; exact Hp. }
    apply negb_false_iff, Z.ltb_lt in Full.
    destruct (already_done c (pageNum item)) eqn:Done.
    { destruct (IH _ _ _ _ _ _ H Inv) as (I & L1 & L2 & E & S & Cl).
      split; [exact I|]. split; [exact L1|]. split; [simpl; lia|].
      split; [exact E|]. split; [exact S|].
      intros p [<-|Hp]; [right; right; left; exact Done|apply Cl; exact Hp]. }
    destruct (is_short (pageText item)) eqn:Short.
    { destruct (build_batch c rest batch tokens) as [[[b0 t0] q0] effs0] eqn:B.
      inversion H; subst.
      destruct (IH _ _ _ _ _ _ B Inv) as (I & L1 & L2 & E & S & Cl).
      split; [exact I|]. split; [exact L1|]. split; [simpl; lia|].
      split; [exact E|]. split; [constructor; [exact Logic.I|exact S]|].
      intros p [<-|Hp].
      - right; right; right. split; [exact Short|left; reflexivity].
      - destruct (Cl p Hp) as [?|[?|[?|[? ?]]]]; auto.
        right; right; right. split; [assumption|right; assumption]. }
    destruct ((0 <? Z.of_nat (length batch))
              && (MAX_BATCH_TOKENS <?
                  tokens + estimatedTokens (pageText item))) eqn:Break.
    { inversion H; subst.
      split; [exact Inv|]. split; [lia|]. split; [simpl; lia|].
      split.
      { intros ->. simpl in Break. discriminate. }
      split; [constructor|]. intros p Hp. left; exact Hp. }
    assert (Inv' : batch_inv c (batch ++ [item])
                     (tokens + estimatedTokens (pageText item))).
    { destruct Inv as (Ht & Hl & Hb & Ha). unfold batch_inv.
      rewrite batch_tokens_app, length_app. simpl.
      split; [lia|]. split; [lia|]. split.
      - apply andb_false_iff in Break. destruct Break as [Br|Br].
        + apply Z.ltb_ge in Br. left. lia.
        + apply Z.ltb_ge in Br. right. exact Br.
      - apply Forall_app. split; [exact Ha|].
        constructor; [split; assumption|constructor]. }
    destruct (IH _ _ _ _ _ _ H Inv') as (I & L1 & L2 & E & S & Cl).
    rewrite length_app in L1, L2. simpl in L1, L2.
    split; [exact I|]. split; [lia|]. split; [simpl; lia|].
    split.
    { intros ->. simpl in L1. lia. }
    split; [exact S|].
    intros p [<-|Hp]; [|apply Cl; exact Hp].
    right; left.
    clear -H. revert H. generalize (tokens + estimatedTokens (pageText item)).
    assert (G : forall queue batch tokens b t q effs x,
               build_batch c queue batch tokens = (b, t, q, effs) ->
               In x batch -> In x b).
    { clear. induction queue as [|y queue IHq];
        intros batch tokens b t q effs x H Hx; cbn [build_batch] in H.
      - inversion H; subst; exact Hx.
      - destruct (negb _); [inversion H; subst; exact Hx|].
        destruct (already_done c (pageNum y)); [eapply IHq; eauto|].
        destruct (is_short (pageText y)).
        + destruct (build_batch c queue batch tokens) as [[[b0 t0] q0] e0] eqn:B.
          inversion H; subst. eapply IHq; eauto.
        + destruct (_ && _); [inversion H; subst; exact Hx|].
          eapply IHq; [exact H|]. apply in_or_app. left; exact Hx. }
    intros z H. eapply G; [exact H|]. apply in_or_app. right. left. reflexivity.
Qed.

Lemma filter_admissible (c : Closure) (batch : list Page) :
  Forall (admissible c) batch ->
  List.filter (fun p => negb (already_done c (pageNum p))) batch = batch.
Proof.
  induction 1 as [|p batch [Hd _] _ IH]; simpl; [reflexivity|].
  rewrite Hd. simpl. rewrite IH. reflexivity.
Qed.

Lemma distribute_summaries (summaries : json) (pages : list Page) :
  Forall is_summary (fst (distribute summaries pages)).
Proof.
  induction pages as [|p pages IH]; simpl; [constructor|].
  destruct (get_index summaries (pageNum p)) as [summary|e]; simpl;
    [|constructor].
  destruct (distribute summaries pages) as [effs err]. simpl in *.
  apply Forall_app. split; [|exact IH].
  destruct summary as [[|b|l|s|items|ms]|]; try constructor.
  destruct (truthy_str s); repeat constructor.
Qed.

Lemma parse_fallback_summaries (pages : list Page) (full : jsstring) :
  Forall is_summary (parse_fallback pages full).
Proof.
  unfold parse_fallback. destruct pages; [constructor|].
  destruct (truthy_str (trim full)); repeat constructor.
Qed.

Lemma distribute_streamed_summaries (pages : list Page) (full : jsstring) :
  Forall is_summary (distribute_streamed pages full).
Proof.
  unfold distribute_streamed.
  destruct (JSON_parse (strip_fences full)) as [summaries|];
    [|apply parse_fallback_summaries].
  pose proof (distribute_summaries summaries pages) as D.
  destruct (distribute summaries pages) as [effs [e|]]; simpl in D.
  - apply Forall_app. split; [exact D|apply parse_fallback_summaries].
  - exact D.
Qed.

Lemma poll_status_summaries (pages : list Page) (replies : list PollReply) :
  forall attempts, Forall is_summary (poll_status pages attempts replies).
Proof.
  induction replies as [|r replies IH]; intros attempts; simpl;
    [constructor|].
  destruct (300 <=? attempts); [constructor|].
  destruct (reply_status r) as [[]|]; try apply IH; try constructor.
  destruct (reply_result r) as [res|]; [|apply IH].
  destruct (success res); [|apply IH].
  destruct (Jobs.data res); [apply distribute_summaries|constructor].
Qed.

Lemma later_polls_cases (pages : list Page) (replies : list PollReply) :
  later_polls pages replies = []
  \/ exists rest, later_polls pages replies
                  = map later (poll_status pages 1 rest).
Proof.
  unfold later_polls. destruct replies as [|r rest]; [left; reflexivity|].
  destruct (reply_status r) as [[]|]; eauto.
  destruct (reply_result r) as [res|]; eauto.
  destruct (success res); eauto.
Qed.

Lemma fetched_later (effs : list Effect) :
  Forall is_summary effs -> fetched (map later effs) = [].
Proof.
  induction 1 as [|[] effs H _ IH]; simpl; auto; destruct H.
Qed.

Lemma later_polls_fetched (pages : list Page) (replies : list PollReply) :
  fetched (later_polls pages replies) = [].
Proof.
  destruct (later_polls_cases pages replies) as [->|[rest ->]];
    [reflexivity|].
  apply fetched_later, poll_status_summaries.
Qed.

(** A batch of admissible pages is sent whole, in one request. *)
Lemma generateBatchSummaries_fetched (c : Closure) (server : Server)
    (batch : list Page) :
  Forall (admissible c) batch -> batch <> [] ->
  fetched (generateBatchSummaries c server batch) = [batch].
Proof.
  intros Ha Hne. unfold generateBatchSummaries.
  rewrite (filter_admissible c batch Ha).
  destruct batch as [|p batch]; [congruence|].
  cbn [app fetched]. rewrite !fetched_app. cbn [fetched].
  assert (L : fetched match server (p :: batch) with
                      | Accepted replies => later_polls (p :: batch) replies
                      | _ => []
                      end = []).
  { destruct (server (p :: batch)); try reflexivity.
    apply later_polls_fetched. }
  rewrite L, app_nil_r. f_equal.
  apply fetched_summaries.
  destruct (server (p :: batch)); try constructor.
  - apply poll_status_summaries.
  - apply distribute_streamed_summaries.
Qed.

Lemma push_summary_keeps (q : list Page) (k : QueueCall) (p : Page) :
  In p q -> In p (push_summary q k).
Proof.
  unfold push_summary. destruct (rejects q k); [auto|].
  intro H. apply in_or_app. left; exact H.
Qed.

Lemma push_all_keeps (calls : list QueueCall) :
  forall q p, In p q -> In p (push_all q calls).
Proof.
  unfold push_all. induction calls as [|k calls IH]; intros q p H; simpl.
  - exact H.
  - apply IH. apply push_summary_keeps. exact H.
Qed.

Lemma push_all_length (calls : list QueueCall) :
  forall q, (length (push_all q calls) <= length q + length calls)%nat.
Proof.
  unfold push_all. induction calls as [|k calls IH]; intros q; simpl.
  - lia.
  - specialize (IH (push_summary q k)).
    assert (length (push_summary q k) <= S (length q))%nat.
    { unfold push_summary. destruct (rejects q k); [lia|].
      rewrite length_app. simpl. lia. }
    lia.
Qed.

Lemma arrivals_size_split (arrivals : list (list QueueCall)) :
  arrivals_size arrivals
  = (length (hd [] arrivals) + arrivals_size (tl arrivals))%nat.
Proof.
  unfold arrivals_size. destruct arrivals as [|a arrivals]; simpl.
  - reflexivity.
  - rewrite length_app. reflexivity.
Qed.

(** What a finished drain loop has done: the queue is empty; every
    request it sent is within the batch bound and holds admissible pages
    only; every short page of the queue it started with, unless
    generating or cached, got the placeholder. *)
Lemma drain_spec (c : Closure) (server : Server) (fuel : nat) :
  forall arrivals queue q effs,
    drain fuel c server arrivals queue = Some (q, effs) ->
    q = []
    /\ Forall batch_ok (fetched effs)
    /\ Forall (Forall (admissible c)) (fetched effs)
    /\ forall p, In p queue ->
         is_short (pageText p) = true ->
         already_done c (pageNum p) = false ->
         In (SetPageSummary (pageNum p) PLACEHOLDER) effs.
Proof.
  induction fuel as [|fuel IH]; intros arrivals queue q effs H;
    [discriminate|].
  cbn [drain] in H.
  destruct queue as [|x xs].
  { inversion H; subst. repeat split; auto. }
  destruct (build_batch c (x :: xs) [] 0) as [[[batch tok] q1] effs1] eqn:B.
  destruct (build_batch_spec c _ _ _ _ _ _ _ B (batch_inv_nil c))
    as (I & L1 & L2 & E & S & Cl).
  destruct I as (Ht & Hl & Hb & Ha).
  destruct (0 <? Z.of_nat (length batch)) eqn:NE.
  - apply Z.ltb_lt in NE.
    assert (Hne : batch <> []) by (intros ->; simpl in NE; lia).
    assert (Hok : batch_ok batch).
    { split; [exact Hl|]. destruct Hb as [Hb|Hb]; [left; lia|right; lia]. }
    pose proof (generateBatchSummaries_fetched c server batch Ha Hne) as G.
    pose proof (fetched_summaries effs1 S) as F1.
    assert (Rest : exists arrivals3 queue3 delay q' rest,
               drain fuel c server arrivals3 queue3 = Some (q', rest)
               /\ (q, effs)
                  = (q', effs1 ++ generateBatchSummaries c server batch
                           ++ delay ++ rest)
               /\ fetched delay = []
               /\ forall p, In p q1 -> In p queue3).
    { destruct (0 <? Z.of_nat (length (push_all q1 (hd [] arrivals)))).
      - destruct (drain fuel c server (tl (tl arrivals))
                    (push_all (push_all q1 (hd [] arrivals))
                       (hd [] (tl arrivals)))) as [[q' rest]|] eqn:R;
          [|discriminate].
        exists (tl (tl arrivals)),
          (push_all (push_all q1 (hd [] arrivals)) (hd [] (tl arrivals))),
          [Delay 2000], q', rest.
        split; [exact R|].
        split; [inversion H; reflexivity|]. split; [reflexivity|].
        intros p Hp. apply push_all_keeps, push_all_keeps, Hp.
      - destruct (drain fuel c server (tl arrivals)
                    (push_all q1 (hd [] arrivals))) as [[q' rest]|] eqn:R;
          [|discriminate].
        exists (tl arrivals), (push_all q1 (hd [] arrivals)), [], q', rest.
        split; [exact R|].
        split; [inversion H; reflexivity|]. split; [reflexivity|].
        intros p Hp. apply push_all_keeps, Hp. }
    destruct Rest as (arrivals3 & queue3 & delay & q' & rest & R & Eq & Fd & Keep).
    inversion Eq; subst. clear Eq H.
    destruct (IH _ _ _ _ R) as (Q & B1 & B2 & P2).
    rewrite !fetched_app, F1, G, Fd. cbn [app].
    split; [exact Q|]. split; [constructor; assumption|].
    split; [constructor; assumption|].
    intros p Hp Hs Hd.
    destruct (Cl p Hp) as [Hq|[Hbt|[Hdone|[_ Hin]]]].
    + apply in_or_app; right. apply in_or_app; right. apply in_or_app; right.
      apply P2; auto.
    + rewrite List.Forall_forall in Ha. destruct (Ha p Hbt). congruence.
    + congruence.
    + apply in_or_app; left. exact Hin.
  - apply Z.ltb_ge in NE.
    assert (batch = []) by (destruct batch; [reflexivity|simpl in NE; lia]).
    subst batch. rewrite (E eq_refl) in *.
    destruct fuel as [|fuel']; [discriminate|].
    cbn [drain] in H. inversion H; subst. rewrite app_nil_r.
    rewrite (fetched_summaries effs1 S).
    split; [reflexivity|]. split; [constructor|]. split; [constructor|].
    intros p Hp Hs Hd.
    destruct (Cl p Hp) as [[]|[[]|[Hdone|[_ Hin]]]]; [congruence|exact Hin].
Qed.

(** The fuel [processSummaryQueue] gives the loop is enough. *)
Lemma drain_total (c : Closure) (server : Server) (fuel : nat) :
  forall arrivals queue,
    (length queue + arrivals_size arrivals < fuel)%nat ->
    exists r, drain fuel c server arrivals queue = Some r.
Proof.
  induction fuel as [|fuel IH]; intros arrivals queue Hf; [lia|].
  cbn [drain].
  destruct queue as [|x xs]; [eauto|].
  destruct (build_batch c (x :: xs) [] 0) as [[[batch tok] q1] effs1] eqn:B.
  destruct (build_batch_spec c _ _ _ _ _ _ _ B (batch_inv_nil c))
    as (I & L1 & L2 & E & S & Cl).
  destruct (0 <? Z.of_nat (length batch)) eqn:NE.
  - apply Z.ltb_lt in NE. simpl in L2. cbn [length] in Hf.
    pose proof (push_all_length (hd [] arrivals) q1) as P1.
    pose proof (push_all_length (hd [] (tl arrivals))
                  (push_all q1 (hd [] arrivals))) as P2.
    pose proof (arrivals_size_split arrivals) as A1.
    pose proof (arrivals_size_split (tl arrivals)) as A2.
    destruct (0 <? Z.of_nat (length (push_all q1 (hd [] arrivals)))).
    + destruct (IH (tl (tl arrivals))
                  (push_all (push_all q1 (hd [] arrivals))
                     (hd [] (tl arrivals)))) as [[q' rest] R]; [lia|].
      rewrite R. eauto.
    + destruct (IH (tl arrivals) (push_all q1 (hd [] arrivals)))
        as [[q' rest] R]; [lia|].
      rewrite R. eauto.
  - apply Z.ltb_ge in NE.
    assert (batch = []) by (destruct batch; [reflexivity|simpl in NE; lia]).
    subst batch. rewrite (E eq_refl).
    destruct (IH arrivals []) as [[q' rest] R]; [simpl in *; lia|].
    rewrite R. eauto.
Qed.

(** [processSummaryQueue] returns, and what it returns comes from a
    finished drain loop or from the early return. *)
Lemma processSummaryQueue_cases (c : Closure) (server : Server)
    (arrivals : list (list QueueCall)) (refs : Refs) :
  (processSummaryQueue c server arrivals refs = Some (refs, [])
   /\ (isProcessingQueueRef refs = true \/ summaryQueueRef refs = []))
  \/ (isProcessingQueueRef refs = false
      /\ exists fuel effs,
           drain fuel c server arrivals (summaryQueueRef refs)
           = Some ([], effs)
           /\ processSummaryQueue c server arrivals refs
              = Some ({| summaryQueueRef := [];
                         isProcessingQueueRef := false |}, effs)).
Proof.
  unfold processSummaryQueue.
  destruct (isProcessingQueueRef refs) eqn:P; [left; auto|].
  destruct (summaryQueueRef refs) as [|x xs] eqn:Q; [left; auto|].
  right. split; [reflexivity|].
  destruct (drain_total c server
              (S (length (x :: xs) + arrivals_size arrivals))
              arrivals (x :: xs)) as [[q effs] R]; [lia|].
  destruct (drain_spec c server _ _ _ _ _ R) as (-> & _).
  exists (S (length (x :: xs) + arrivals_size arrivals)), effs.
  split; [exact R|].
  replace (Z.of_nat (length (x :: xs)) =? 0) with false
    by (symmetry; apply Z.eqb_neq; cbn [length]; lia).
  cbn [orb]. rewrite R. reflexivity.
Qed.

(** What the inner loop leaves of the queue was in the queue. *)
Lemma build_batch_left (c : Closure) (queue : list Page) :
  forall batch tokens b t q effs,
    build_batch c queue batch tokens = (b, t, q, effs) ->
    forall p, In p q -> In p queue.
Proof.
  induction queue as [|item rest IH]; intros batch tokens b t q effs H p Hp;
    cbn [build_batch] in H.
  - inversion H; subst. exact Hp.
  - destruct (negb _); [inversion H; subst; exact Hp|].
    destruct (already_done c (pageNum item));
      [right; eapply IH; eauto|].
    destruct (is_short (pageText item)).
    + destruct (build_batch c rest batch tokens) as [[[b0 t0] q0] e0] eqn:B.
      inversion H; subst. right. eapply IH; eauto.
    + destruct (_ && _); [inversion H; subst; exact Hp|].
      right. eapply IH; eauto.
Qed.

(** Every page of the queue after the calls was in the queue or is the
    page of one of the calls. *)
Lemma push_all_from (calls : list QueueCall) :
  forall q item,
    In item (push_all q calls) ->
    In item q \/ exists k, In k calls /\ item = call_page k.
Proof.
  unfold push_all. induction calls as [|k0 calls IH]; intros q item H;
    simpl in H; [left; exact H|].
  destruct (IH _ _ H) as [Hq|(k & Hk & E)].
  - unfold push_summary in Hq. destruct (rejects q k0); [left; exact Hq|].
    apply in_app_or in Hq. destruct Hq as [Hq|[<-|[]]]; [left; exact Hq|].
    right. exists k0. split; [left; reflexivity|reflexivity].
  - right. exists k. split; [right; exact Hk|exact E].
Qed.

(** A call for a page that its render shows neither generating nor
    cached leaves the number of the page in the queue: with the page of
    the call, or with the page queued under that number before. *)
Lemma push_all_queued (calls : list QueueCall) :
  forall q k,
    In k calls ->
    already_done (call_closure k) (pageNum (call_page k)) = false ->
    exists item,
      In item (push_all q calls)
      /\ pageNum item = pageNum (call_page k)
      /\ (In item q \/ exists k', In k' calls /\ item = call_page k').
Proof.
  induction calls as [|k0 calls IH]; intros q k Hk Hd; [destruct Hk|].
  change (push_all q (k0 :: calls)) with (push_all (push_summary q k0) calls).
  destruct Hk as [->|Hk].
  - unfold push_summary, rejects. rewrite Hd. cbn [orb].
    destruct (existsb (fun item => pageNum item =? pageNum (call_page k)) q)
      eqn:Ex.
    + apply List.existsb_exists in Ex. destruct Ex as (item & Hi & E).
      apply Z.eqb_eq in E. exists item.
      split; [apply push_all_keeps; exact Hi|]. split; [exact E|].
      left; exact Hi.
    + exists (call_page k).
      split; [apply push_all_keeps, in_or_app; right; left; reflexivity|].
      split; [reflexivity|].
      right. exists k. split; [left; reflexivity|reflexivity].
  - destruct (IH (push_summary q k0) k Hk Hd) as (item & Hi & E & Hfrom).
    exists item. split; [exact Hi|]. split; [exact E|].
    destruct Hfrom as [Hq|(k' & Hk' & ->)].
    + unfold push_summary in Hq. destruct (rejects q k0); [left; exact Hq|].
      apply in_app_or in Hq. destruct Hq as [Hq|[<-|[]]]; [left; exact Hq|].
      right. exists k0. split; [left; reflexivity|reflexivity].
    + right. exists k'. split; [right; exact Hk'|reflexivity].
Qed.

(** A turn of the outer loop: the effects of a finished loop are those
    of its first turn followed by those of the loop from the state the
    turn leaves. *)
Lemma drain_turn (c : Closure) (server : Server) (fuel : nat)
    (arrivals : list (list QueueCall)) (queue q : list Page)
    (effs : list Effect) :
  drain fuel c server arrivals queue = Some (q, effs) ->
  exists fuel' pre rest,
    effs = pre ++ rest
    /\ drain fuel' c server (fst (turn c (arrivals, queue)))
         (snd (turn c (arrivals, queue))) = Some (q, rest).
Proof.
  destruct fuel as [|fuel]; [discriminate|].
  intro H. pose proof H as H0. cbn [drain] in H. unfold turn.
  destruct queue as [|x xs].
  { exists (S fuel), [], effs. split; [reflexivity|exact H0]. }
  clear H0.
  destruct (build_batch c (x :: xs) [] 0) as [[[batch tok] q1] effs1].
  destruct (0 <? Z.of_nat (length batch)).
  - destruct (0 <? Z.of_nat (length (push_all q1 (hd [] arrivals)))).
    + cbn [fst snd].
      destruct (drain fuel c server (tl (tl arrivals))
                  (push_all (push_all q1 (hd [] arrivals))
                     (hd [] (tl arrivals)))) as [[q' rest]|] eqn:R;
        [|discriminate].
      inversion H; subst.
      exists fuel, (effs1 ++ generateBatchSummaries c server batch
                      ++ [Delay 2000]), rest.
      split; [rewrite <- !app_assoc; reflexivity|exact R].
    + cbn [fst snd].
      destruct (drain fuel c server (tl arrivals)
                  (push_all q1 (hd [] arrivals))) as [[q' rest]|] eqn:R;
        [|discriminate].
      inversion H; subst.
      exists fuel, (effs1 ++ generateBatchSummaries c server batch), rest.
      split; [rewrite <- !app_assoc; reflexivity|exact R].
  - cbn [fst snd].
    destruct (drain fuel c server arrivals q1) as [[q' rest]|] eqn:R;
      [|discriminate].
    inversion H; subst.
    exists fuel, effs1, rest. split; [reflexivity|exact R].
Qed.

Lemma drain_turns (c : Closure) (server : Server) (n : nat) :
  forall fuel arrivals queue q effs,
    drain fuel c server arrivals queue = Some (q, effs) ->
    exists fuel' pre rest,
      effs = pre ++ rest
      /\ drain fuel' c server (fst (turns n c arrivals queue))
           (queue_at n c arrivals queue) = Some (q, rest).
Proof.
  unfold queue_at.
  induction n as [|n IH]; intros fuel arrivals queue q effs H.
  - exists fuel, [], effs. split; [reflexivity|exact H].
  - destruct (IH _ _ _ _ _ H) as (fuel1 & pre1 & rest1 & E1 & D1).
    cbn [turns].
    destruct (turns n c arrivals queue) as [a0 q0].
    cbn [fst snd] in D1.
    destruct (drain_turn c server _ _ _ _ _ D1)
      as (fuel2 & pre2 & rest2 & E2 & D2).
    exists fuel2, (pre1 ++ pre2), rest2.
    split; [rewrite E1, E2, app_assoc; reflexivity|exact D2].
Qed.

(** A short page that is in the queue when a turn starts gets the
    placeholder before the loop ends, unless the closure of the loop
    shows it generating or cached. *)
Lemma drain_placeholder (c : Closure) (server : Server) (fuel : nat)
    (arrivals : list (list QueueCall)) (queue q : list Page)
    (effs : list Effect) (n : nat) (p : Page) :
  drain fuel c server arrivals queue = Some (q, effs) ->
  In p (queue_at n c arrivals queue) ->
  is_short (pageText p) = true ->
  already_done c (pageNum p) = false ->
  In (SetPageSummary (pageNum p) PLACEHOLDER) effs.
Proof.
  intros D Hp Hs Hd.
  destruct (drain_turns c server n _ _ _ _ _ D)
    as (fuel' & pre & rest & -> & D').
  apply in_or_app. right.
  apply (drain_spec c server _ _ _ _ _ D'); assumption.
Qed.

(** A call made during a turn for a page that its render shows neither
    generating nor cached leaves the number of the page in the queue of
    the next turn: with a page that was in the queue when the turn
    started, or with the page of a call of the turn. *)
Lemma arriving_queued (c : Closure) (n : nat)
    (arrivals : list (list QueueCall)) (queue : list Page) (k : QueueCall) :
  In k (arriving_at n c arrivals queue) ->
  already_done (call_closure k) (pageNum (call_page k)) = false ->
  exists item,
    In item (queue_at (S n) c arrivals queue)
    /\ pageNum item = pageNum (call_page k)
    /\ (In item (queue_at n c arrivals queue)
        \/ exists k', In k' (arriving_at n c arrivals queue)
                      /\ item = call_page k').
Proof.
  unfold arriving_at, queue_at. cbn [turns].
  destruct (turns n c arrivals queue) as [a0 q0].
  unfold arriving, turn. cbn [snd].
  destruct q0 as [|x xs]; [intros []|].
  destruct (build_batch c (x :: xs) [] 0) as [[[batch tok] q1] effs1] eqn:B.
  pose proof (build_batch_left c _ _ _ _ _ _ _ B) as Left.
  destruct (0 <? Z.of_nat (length batch)); [|intros []].
  intros Hk Hd.
  destruct (0 <? Z.of_nat (length (push_all q1 (hd [] a0)))); cbn [snd].
  - apply in_app_or in Hk. destruct Hk as [Hk|Hk].
    + destruct (push_all_queued (hd [] a0) q1 k Hk Hd)
        as (item & Hi & E & Hfrom).
      exists item. split; [apply push_all_keeps; exact Hi|].
      split; [exact E|].
      destruct Hfrom as [Hq|(k' & Hk' & ->)]; [left; apply Left; exact Hq|].
      right. exists k'. split; [apply in_or_app; left; exact Hk'|reflexivity].
    + destruct (push_all_queued (hd [] (tl a0)) (push_all q1 (hd [] a0))
                  k Hk Hd) as (item & Hi & E & Hfrom).
      exists item. split; [exact Hi|]. split; [exact E|].
      destruct Hfrom as [Hq|(k' & Hk' & ->)].
      * destruct (push_all_from _ _ _ Hq) as [Hq1|(k' & Hk' & ->)];
          [left; apply Left; exact Hq1|].
        right. exists k'.
        split; [apply in_or_app; left; exact Hk'|reflexivity].
      * right. exists k'.
        split; [apply in_or_app; right; exact Hk'|reflexivity].
  - rewrite app_nil_r in Hk.
    destruct (push_all_queued (hd [] a0) q1 k Hk Hd)
      as (item & Hi & E & Hfrom).
    exists item. split; [exact Hi|]. split; [exact E|].
    destruct Hfrom as [Hq|(k' & Hk' & ->)]; [left; apply Left; exact Hq|].
    right. exists k'. split; [rewrite app_nil_r; exact Hk'|reflexivity].
Qed.

End ReaderFacts.

(** C1: [processSummaryQueue] returns, whatever the queue, the closure,
    the server's answers and the pages queued while it runs, and every
    request it has sent holds at most [MAX_BATCH_PAGES] = 20 pages and
    at most [MAX_BATCH_TOKENS] = 25000 estimated tokens, the sum over its
    pages of [ceil(length / 4)], unless it holds exactly one page. *)
Theorem C1_batch_bounds (c : Reader.Closure) (server : Reader.Server)
    (arrivals : list (list Reader.QueueCall)) (refs : Reader.Refs) :
  exists refs' effs,
    Reader.processSummaryQueue c server arrivals refs = Some (refs', effs)
    /\ Forall batch_ok (Reader.fetched effs).
Proof.
  destruct (processSummaryQueue_cases c server arrivals refs)
    as [[E _]|(_ & fuel & effs & D & E)].
  - exists refs, []. split; [exact E|constructor].
  - eexists _, effs. split; [exact E|].
    apply (drain_spec c server _ _ _ _ _ D).
Qed.

Section ShortPages.

Import Reader.

Lemma non_ws_count_le (s : jsstring) : non_ws_count s <= strlen s.
Proof.
  unfold non_ws_count, strlen.
  pose proof (List.filter_length_le (fun c => negb (is_ws c)) s). lia.
Qed.

Lemma non_ws_count_trimStart (s : jsstring) :
  non_ws_count (trimStart s) = non_ws_count s.
Proof.
  unfold non_ws_count. induction s as [|c s IH]; [reflexivity|].
  cbn [trimStart]. destruct (is_ws c) eqn:W; [|reflexivity].
  cbn [List.filter]. rewrite W. exact IH.
Qed.

Lemma non_ws_count_rev (s : jsstring) : non_ws_count (rev s) = non_ws_count s.
Proof.
  unfold non_ws_count. rewrite List.filter_rev, length_rev. reflexivity.
Qed.

Lemma non_ws_count_trim (s : jsstring) : non_ws_count (trim s) = non_ws_count s.
Proof.
  unfold trim, trimEnd.
  rewrite non_ws_count_rev, non_ws_count_trimStart, non_ws_count_rev.
  apply non_ws_count_trimStart.
Qed.

(** A page the loop treats as short has fewer than ten code units that
    are not white space; the converse fails. *)
Lemma is_short_few_non_ws (text : jsstring) :
  is_short text = true -> non_ws_count text < 10.
Proof.
  unfold is_short. rewrite orb_true_iff. intros [H|H].
  - destruct text; [reflexivity|discriminate].
  - apply Z.ltb_lt in H. rewrite <- non_ws_count_trim.
    pose proof (non_ws_count_le (trim text)). lia.
Qed.

End ShortPages.

(** C8, as the code has it: a page whose text is empty, or has fewer
    than 10 code units once leading and trailing white space is trimmed,
    is never part of a request sent to the server; such a page has fewer
    than 10 non-white-space characters.  Every such page that is in the
    queue when the loop starts or when one of its later turns starts,
    unless the closure of the loop shows it as generating or cached, is
    resolved with the fixed placeholder summary before the loop returns.
    The pages queued while the loop runs are among them: a call of
    [queueSummary] made during a turn, for a page that its own render
    shows neither generating nor cached, leaves the number of the page
    in the queue of the next turn, with the page of a call of the turn
    or with a page queued under that number before, and if the text
    queued under the number is short the number gets the placeholder.
    The turns are those of the loop: its effects are those of the turns
    made followed by those of the loop from the state the last of them
    leaves.  The loop returns whatever is queued while it runs. *)
Theorem C8_short_pages (c : Reader.Closure) (server : Reader.Server)
    (arrivals : list (list Reader.QueueCall)) (refs : Reader.Refs) :
  Reader.isProcessingQueueRef refs = false ->
  exists refs' effs,
    Reader.processSummaryQueue c server arrivals refs = Some (refs', effs)
    /\ Forall (Forall (fun p => Reader.is_short (Reader.pageText p) = false))
         (Reader.fetched effs)
    /\ (forall p,
         In p (Reader.summaryQueueRef refs) ->
         Reader.is_short (Reader.pageText p) = true ->
         non_ws_count (Reader.pageText p) < 10
         /\ (Reader.already_done c (Reader.pageNum p) = false ->
             In (Reader.SetPageSummary (Reader.pageNum p) Reader.PLACEHOLDER)
                effs))
    /\ (forall n p,
         In p (queue_at n c arrivals (Reader.summaryQueueRef refs)) ->
         Reader.is_short (Reader.pageText p) = true ->
         non_ws_count (Reader.pageText p) < 10
         /\ (Reader.already_done c (Reader.pageNum p) = false ->
             In (Reader.SetPageSummary (Reader.pageNum p) Reader.PLACEHOLDER)
                effs))
    /\ (forall n k,
         In k (arriving_at n c arrivals (Reader.summaryQueueRef refs)) ->
         Reader.already_done (Reader.call_closure k)
           (Reader.pageNum (Reader.call_page k)) = false ->
         exists item,
           In item (queue_at (S n) c arrivals (Reader.summaryQueueRef refs))
           /\ Reader.pageNum item = Reader.pageNum (Reader.call_page k)
           /\ (In item (queue_at n c arrivals (Reader.summaryQueueRef refs))
               \/ exists k',
                    In k' (arriving_at n c arrivals
                             (Reader.summaryQueueRef refs))
                    /\ item = Reader.call_page k')
           /\ (Reader.is_short (Reader.pageText item) = true ->
               Reader.already_done c (Reader.pageNum item) = false ->
               In (Reader.SetPageSummary (Reader.pageNum item)
                     Reader.PLACEHOLDER) effs))
    /\ (forall n,
         exists fuel pre rest,
           effs = pre ++ rest
           /\ Reader.drain fuel c server
                (fst (turns n c arrivals (Reader.summaryQueueRef refs)))
                (queue_at n c arrivals (Reader.summaryQueueRef refs))
              = Some ([], rest)).
Proof.
  intro Hidle.
  destruct (processSummaryQueue_cases c server arrivals refs)
    as [[E [H|H]]|(_ & fuel & effs & D & E)].
  - congruence.
  - exists refs, []. split; [exact E|]. split; [constructor|].
    rewrite H.
    assert (Q : forall n, turns n c arrivals [] = (arrivals, [])).
    { induction n as [|n IH]; [reflexivity|].
      cbn [turns]. rewrite IH. reflexivity. }
    split; [intros p []|].
    split; [intros n p; unfold queue_at; rewrite Q; intros []|].
    split; [intros n k; unfold arriving_at; rewrite Q; intros []|].
    intro n. exists 1%nat, [], []. unfold queue_at. rewrite Q.
    split; reflexivity.
  - destruct (drain_spec c server _ _ _ _ _ D) as (_ & _ & A & P).
    eexists _, effs. split; [exact E|]. split; [|split; [|split; [|split]]].
    + eapply List.Forall_impl; [|exact A].
      intros batch Hb. eapply List.Forall_impl; [|exact Hb].
      intros p [_ Hs]. exact Hs.
    + intros p Hp Hs. split; [apply is_short_few_non_ws; exact Hs|].
      intro Hd. apply P; assumption.
    + intros n p Hp Hs. split; [apply is_short_few_non_ws; exact Hs|].
      intro Hd. exact (drain_placeholder c server _ _ _ _ _ n p D Hp Hs Hd).
    + intros n k Hk Hd.
      destruct (arriving_queued c n arrivals _ k Hk Hd)
        as (item & Hi & En & Hfrom).
      exists item. split; [exact Hi|]. split; [exact En|].
      split; [exact Hfrom|].
      intros Hs Hdc.
      exact (drain_placeholder c server _ _ _ _ _ (S n) item D Hi Hs Hdc).
    + intro n. exact (drain_turns c server n _ _ _ _ _ D).
Qed.

Lemma C8_short_pages_witness :
  exists refs' effs,
    Reader.processSummaryQueue Examples.fresh Examples.failing_server
      [[Examples.tiny_call]] (Examples.idle [Examples.prose_page])
    = Some (refs', effs)
    /\ In Examples.tiny_call
         (arriving_at 0 Examples.fresh [[Examples.tiny_call]]
            [Examples.prose_page])
    /\ In (Reader.SetPageSummary 2 Reader.PLACEHOLDER) effs.
Proof.
  destruct (C8_short_pages Examples.fresh Examples.failing_server
              [[Examples.tiny_call]] (Examples.idle [Examples.prose_page])
              eq_refl) as (refs' & effs & E & _ & _ & P & _ & _).
  exists refs', effs. split; [exact E|].
  split; [vm_compute; left; reflexivity|].
  apply (P 1%nat Examples.tiny_page).
  - vm_compute. left. reflexivity.
  - vm_compute. reflexivity.
  - vm_compute. reflexivity.
Defined.

(** C8 as stated fails: the text [a b c d e f] has six characters that
    are not white space, fewer than 10, but eleven code units after
    trimming; the page gets no placeholder and is sent to the server. *)
Lemma C8_counterexample :
  non_ws_count (Reader.pageText Examples.spaced_page) = 6
  /\ Reader.processSummaryQueue Examples.fresh Examples.failing_server []
       (Examples.idle [Examples.spaced_page])
     = Some (Examples.idle [],
             [Reader.MarkGenerating [1];
              Reader.Fetch [Examples.spaced_page];
              Reader.UnmarkGenerating [1]]).
Proof. split; vm_compute; reflexivity. Qed.

(** C9, as the code has it: when the text of a streamed batch answer
    cannot be parsed as JSON after trimming and fence stripping, the
    assembler sets one summary at most: if the trimmed text is not
    empty, it becomes the summary of the first page of the batch;
    if it is empty, no page gets a summary.  The other pages get none,
    the request is not repeated, and the function returns normally,
    unmarking the pages. *)
Theorem C9_unparseable_batch (c : Reader.Closure) (server : Reader.Server)
    (pages : list Reader.Page) (first : Reader.Page)
    (others : list Reader.Page) (fullSummary : jsstring) :
  List.filter (fun p => negb (Reader.already_done c (Reader.pageNum p))) pages
  = first :: others ->
  server (first :: others) = Reader.Streamed fullSummary ->
  JSON_parse (Reader.strip_fences fullSummary) = None ->
  Reader.generateBatchSummaries c server pages
  = [Reader.MarkGenerating (map Reader.pageNum (first :: others));
     Reader.Fetch (first :: others)]
    ++ (if truthy_str (trim fullSummary)
        then [Reader.SetPageSummary (Reader.pageNum first) (trim fullSummary)]
        else [])
    ++ [Reader.UnmarkGenerating (map Reader.pageNum (first :: others))].
Proof.
  intros Hf Hs Hp. unfold Reader.generateBatchSummaries.
  rewrite Hf, Hs. unfold Reader.distribute_streamed. rewrite Hp.
  reflexivity.
Qed.

Lemma C9_unparseable_batch_witness :
  Reader.generateBatchSummaries Examples.fresh
    (Examples.streaming (js " Sorry, I cannot summarize these pages. "))
    [Examples.prose_page; Examples.more_prose_page]
  = [Reader.MarkGenerating [3; 4];
     Reader.Fetch [Examples.prose_page; Examples.more_prose_page];
     Reader.SetPageSummary 3 (js "Sorry, I cannot summarize these pages.");
     Reader.UnmarkGenerating [3; 4]].
Proof.
  apply (C9_unparseable_batch Examples.fresh
           (Examples.streaming (js " Sorry, I cannot summarize these pages. "))
           [Examples.prose_page; Examples.more_prose_page]
           Examples.prose_page [Examples.more_prose_page]
           (js " Sorry, I cannot summarize these pages. ")).
  - vm_compute. reflexivity.
  - reflexivity.
  - vm_compute. reflexivity.
Defined.

(** C9 as stated fails: an answer without text cannot be parsed, and
    then no page, the first one included, gets a summary; and an answer
    with white space around it is stored trimmed, not as received. *)
Lemma C9_counterexample :
  JSON_parse (Reader.strip_fences (js "")) = None
  /\ Reader.generateBatchSummaries Examples.fresh (Examples.streaming (js ""))
       [Examples.prose_page; Examples.more_prose_page]
     = [Reader.MarkGenerating [3; 4];
        Reader.Fetch [Examples.prose_page; Examples.more_prose_page];
        Reader.UnmarkGenerating [3; 4]]
  /\ Reader.generateBatchSummaries Examples.fresh
       (Examples.streaming (js " Sorry. "))
       [Examples.prose_page; Examples.more_prose_page]
     = [Reader.MarkGenerating [3; 4];
        Reader.Fetch [Examples.prose_page; Examples.more_prose_page];
        Reader.SetPageSummary 3 (js "Sorry.");
        Reader.UnmarkGenerating [3; 4]]
  /\ js "Sorry." <> js " Sorry. ".
Proof. repeat split; try (vm_compute; reflexivity). discriminate. Qed.

(* ================================================================== *)
(** * The model of [JSON.parse] never runs out of fuel *)
(* ================================================================== *)

Section ParserFuel.

(** A branch in which the parser has rejected its input. *)
Ltac rejected := split; [discriminate|intros; discriminate].

Lemma skip_ws_length (s : jsstring) : (length (skip_ws s) <= length s)%nat.
Proof.
  induction s as [|c s IH]; simpl; [lia|].
  destruct (json_ws c); simpl; lia.
Qed.

Lemma parse_chars_spec (n : nat) :
  forall s acc, (length s <= n)%nat ->
    parse_chars s acc <> PFuel
    /\ forall a r, parse_chars s acc = POk a r -> (length r < length s)%nat.
Proof.
  induction n as [|n IH]; intros s acc Hn.
  - destruct s; [|simpl in Hn; lia]. simpl. split; [discriminate|].
    intros a r H. discriminate.
  - destruct s as [|c s]; [simpl; rejected|].
    cbn [parse_chars]. simpl in Hn.
    destruct (c =? 34)%N.
    { split; [discriminate|]. intros a r H. inversion H; subst. simpl. lia. }
    destruct (c <? 32)%N; [rejected|].
    destruct (c =? 92)%N.
    + destruct s as [|e s]; [rejected|].
      simpl in Hn.
      destruct (e =? 117)%N.
      * destruct s as [|h1 [|h2 [|h3 [|h4 s]]]];
          try rejected.
        destruct (hex4 h1 h2 h3 h4);
          [|rejected].
        simpl in Hn.
        destruct (IH s (acc ++ [n0]) ltac:(lia)) as [A B].
        split; [exact A|]. intros a r H. specialize (B a r H). simpl. lia.
      * destruct (escape e); [|rejected].
        destruct (IH s (acc ++ [n0]) ltac:(lia)) as [A B].
        split; [exact A|]. intros a r H. specialize (B a r H). simpl. lia.
    + destruct (IH s (acc ++ [c]) ltac:(lia)) as [A B].
      split; [exact A|]. intros a r H. specialize (B a r H). simpl. lia.
Qed.

Lemma span_digits_length (s : jsstring) :
  (length (fst (span_digits s)) + length (snd (span_digits s)) = length s)%nat.
Proof.
  induction s as [|c s IH]; simpl; [reflexivity|].
  destruct (is_digit c); simpl; [|reflexivity].
  destruct (span_digits s) as [d r]. simpl in *. lia.
Qed.

Lemma digits1_length (s d r : jsstring) :
  digits1 s = Some (d, r) -> (length r < length s)%nat.
Proof.
  unfold digits1. pose proof (span_digits_length s) as L.
  destruct (span_digits s) as [[|x d'] r']; [discriminate|].
  intro H. inversion H; subst. simpl in L. lia.
Qed.

Lemma parse_number_spec (s : jsstring) :
  parse_number s <> PFuel
  /\ forall v r, parse_number s = POk v r -> (length r < length s)%nat.
Proof.
  unfold parse_number.
  set (p := match s with
            | [] => ([], s)
            | c :: s' => if (c =? 45)%N then ([c], s') else ([], s)
            end).
  assert (L1 : (length (snd p) <= length s)%nat).
  { subst p. destruct s as [|c s']; simpl; [lia|].
    destruct (c =? 45)%N; simpl; lia. }
  destruct p as [sign s1]. simpl in L1.
  destruct (parse_int s1) as [[i s2]|] eqn:PI;
    [|rejected].
  assert (L2 : (length s2 < length s1)%nat).
  { unfold parse_int in PI. destruct s1 as [|c s1']; [discriminate|].
    destruct (c =? 48)%N.
    - inversion PI; subst. simpl. lia.
    - destruct (is_digit c); [|discriminate].
      apply digits1_length in PI. exact PI. }
  destruct (parse_frac s2) as [[f s3]|] eqn:PF;
    [|rejected].
  assert (L3 : (length s3 <= length s2)%nat).
  { unfold parse_frac in PF. destruct s2 as [|c s2'].
    - inversion PF; subst. simpl. lia.
    - destruct (c =? 46)%N.
      + destruct (digits1 s2') as [[d r]|] eqn:D; [|discriminate].
        inversion PF; subst. apply digits1_length in D. simpl. lia.
      + inversion PF; subst. lia. }
  destruct (parse_exp s3) as [[e s4]|] eqn:PE;
    [|rejected].
  assert (L4 : (length s4 <= length s3)%nat).
  { unfold parse_exp in PE. destruct s3 as [|c s3'].
    - inversion PE; subst. simpl. lia.
    - destruct ((c =? 101) || (c =? 69))%N.
      + destruct s3' as [|sg s3'']; [discriminate|].
        destruct ((sg =? 43) || (sg =? 45))%N.
        * destruct (digits1 s3'') as [[d r]|] eqn:D; [|discriminate].
          inversion PE; subst. apply digits1_length in D. simpl. lia.
        * destruct (digits1 (sg :: s3'')) as [[d r]|] eqn:D; [|discriminate].
          inversion PE; subst. apply digits1_length in D. simpl in *. lia.
      + inversion PE; subst. lia. }
  split; [discriminate|]. intros v r H. inversion H; subst. lia.
Qed.

Lemma parse_keyword_spec (k : jsstring) (v : json) (s : jsstring) :
  k <> [] ->
  parse_keyword k v s <> PFuel
  /\ forall v' r, parse_keyword k v s = POk v' r -> (length r < length s)%nat.
Proof.
  intro Hk. unfold parse_keyword.
  destruct (startsWith k s) eqn:E; [|rejected].
  split; [discriminate|]. intros v' r H. inversion H; subst.
  rewrite length_drop.
  destruct k as [|x k]; [congruence|].
  destruct s as [|y s]; [simpl in E; discriminate|]. simpl. lia.
Qed.

(** A value, an element list or a member list that is parsed leaves
    less input than it was given. *)
Lemma parse_value_consumes (fuel : nat) :
  (forall s v r, parse_value fuel s = POk v r -> (length r < length s)%nat)
  /\ (forall s acc v r,
        parse_elements fuel s acc = POk v r -> (length r < length s)%nat)
  /\ (forall s acc v r,
        parse_members fuel s acc = POk v r -> (length r < length s)%nat).
Proof.
  induction fuel as [|f (IHv & IHe & IHm)].
  - repeat split; intros; discriminate.
  - split; [|split].
    + intros s v r H. cbn [parse_value] in H.
      pose proof (skip_ws_length s) as W.
      destruct (skip_ws s) as [|c r0]; [discriminate|]. simpl in W.
      destruct (c =? 123)%N.
      { pose proof (skip_ws_length r0) as W0.
        destruct (skip_ws r0) as [|c' r'] eqn:S0; [discriminate|].
        destruct (c' =? 125)%N.
        - inversion H; subst. simpl in W0. lia.
        - apply IHm in H. lia. }
      destruct (c =? 91)%N.
      { pose proof (skip_ws_length r0) as W0.
        destruct (skip_ws r0) as [|c' r'] eqn:S0; [discriminate|].
        destruct (c' =? 93)%N.
        - inversion H; subst. simpl in W0. lia.
        - apply IHe in H. lia. }
      destruct (c =? 34)%N.
      { destruct (parse_chars r0 []) as [str r'| |] eqn:PC; try discriminate.
        inversion H; subst.
        apply (proj2 (parse_chars_spec _ r0 [] (le_n _))) in PC. lia. }
      destruct (c =? 116)%N.
      { apply (proj2 (parse_keyword_spec (js "true") _ (c :: r0)
                        ltac:(cbv; discriminate))) in H. simpl in H. lia. }
      destruct (c =? 102)%N.
      { apply (proj2 (parse_keyword_spec (js "false") _ (c :: r0)
                        ltac:(cbv; discriminate))) in H. simpl in H. lia. }
      destruct (c =? 110)%N.
      { apply (proj2 (parse_keyword_spec (js "null") _ (c :: r0)
                        ltac:(cbv; discriminate))) in H. simpl in H. lia. }
      apply (proj2 (parse_number_spec (c :: r0))) in H. simpl in H. lia.
    + intros s acc v r H. cbn [parse_elements] in H.
      destruct (parse_value f s) as [v0 r0| |] eqn:PV; try discriminate.
      apply IHv in PV.
      pose proof (skip_ws_length r0) as W.
      destruct (skip_ws r0) as [|c r']; [discriminate|]. simpl in W.
      destruct (c =? 44)%N; [apply IHe in H; lia|].
      destruct (c =? 93)%N; [|discriminate].
      inversion H; subst. lia.
    + intros s acc v r H. cbn [parse_members] in H.
      destruct s as [|q s1]; [discriminate|].
      destruct (q =? 34)%N; [|discriminate].
      destruct (parse_chars s1 []) as [key s2| |] eqn:PC; try discriminate.
      apply (proj2 (parse_chars_spec _ s1 [] (le_n _))) in PC.
      pose proof (skip_ws_length s2) as W2.
      destruct (skip_ws s2) as [|c s3]; [discriminate|]. simpl in W2.
      destruct (c =? 58)%N; [|discriminate].
      destruct (parse_value f s3) as [v0 r0| |] eqn:PV; try discriminate.
      apply IHv in PV.
      pose proof (skip_ws_length r0) as W.
      destruct (skip_ws r0) as [|d r']; [discriminate|]. simpl in W.
      destruct (d =? 44)%N.
      { apply IHm in H. pose proof (skip_ws_length r'). simpl. lia. }
      destruct (d =? 125)%N; [|discriminate].
      inversion H; subst. simpl. lia.
Qed.

(** With fuel above twice the length of the input the parser does not
    run out of it. *)
Lemma parse_value_has_fuel (fuel : nat) :
  (forall s, (2 * length s + 1 <= fuel)%nat -> parse_value fuel s <> PFuel)
  /\ (forall s acc, (2 * length s + 2 <= fuel)%nat ->
        parse_elements fuel s acc <> PFuel)
  /\ (forall s acc, (2 * length s + 2 <= fuel)%nat ->
        parse_members fuel s acc <> PFuel).
Proof.
  induction fuel as [|f (IHv & IHe & IHm)].
  - repeat split; intros; lia.
  - split; [|split].
    + intros s Hf. cbn [parse_value].
      pose proof (skip_ws_length s) as W.
      destruct (skip_ws s) as [|c r0]; [discriminate|]. simpl in W.
      destruct (c =? 123)%N.
      { pose proof (skip_ws_length r0) as W0.
        destruct (skip_ws r0) as [|c' r'] eqn:S0; [discriminate|].
        destruct (c' =? 125)%N; [discriminate|].
        apply IHm. simpl in W0 |- *. lia. }
      destruct (c =? 91)%N.
      { destruct (skip_ws r0) as [|c' r'] eqn:S0; [discriminate|].
        destruct (c' =? 93)%N; [discriminate|].
        apply IHe. lia. }
      destruct (c =? 34)%N.
      { pose proof (proj1 (parse_chars_spec _ r0 [] (le_n _))) as PC.
        destruct (parse_chars r0 []); congruence. }
      destruct (c =? 116)%N;
        [apply parse_keyword_spec; cbv; discriminate|].
      destruct (c =? 102)%N;
        [apply parse_keyword_spec; cbv; discriminate|].
      destruct (c =? 110)%N;
        [apply parse_keyword_spec; cbv; discriminate|].
      apply parse_number_spec.
    + intros s acc Hf. cbn [parse_elements].
      pose proof (IHv s ltac:(lia)) as NV.
      destruct (parse_value f s) as [v0 r0| |] eqn:PV;
        [|discriminate|congruence].
      apply (proj1 (parse_value_consumes f)) in PV.
      pose proof (skip_ws_length r0) as W.
      destruct (skip_ws r0) as [|c r']; [discriminate|]. simpl in W.
      destruct (c =? 44)%N; [apply IHe; lia|].
      destruct (c =? 93)%N; discriminate.
    + intros s acc Hf. cbn [parse_members].
      destruct s as [|q s1]; [discriminate|]. simpl in Hf.
      destruct (q =? 34)%N; [|discriminate].
      pose proof (parse_chars_spec _ s1 [] (le_n _)) as [NC LC].
      destruct (parse_chars s1 []) as [key s2| |] eqn:PC;
        [|discriminate|congruence].
      specialize (LC _ _ eq_refl).
      pose proof (skip_ws_length s2) as W2.
      destruct (skip_ws s2) as [|c s3]; [discriminate|]. simpl in W2.
      destruct (c =? 58)%N; [|discriminate].
      pose proof (IHv s3 ltac:(lia)) as NV.
      destruct (parse_value f s3) as [v0 r0| |] eqn:PV;
        [|discriminate|congruence].
      apply (proj1 (parse_value_consumes f)) in PV.
      pose proof (skip_ws_length r0) as W.
      destruct (skip_ws r0) as [|d r']; [discriminate|]. simpl in W.
      destruct (d =? 44)%N.
      { apply IHm. pose proof (skip_ws_length r'). lia. }
      destruct (d =? 125)%N; discriminate.
Qed.

(** [JSON_parse] answers [None] only for a text that is not JSON. *)
Lemma JSON_parse_fuel (s : jsstring) :
  parse_value (2 * length s + 2) s <> PFuel.
Proof. apply parse_value_has_fuel. lia. Qed.

End ParserFuel.

(* ================================================================== *)
(** * Further properties of the router and the adapter *)
(* ================================================================== *)

Lemma slice_last_spec (n : nat) (history : list Message) :
  (exists older, history = older ++ slice_last n history)
  /\ length (slice_last n history) = Nat.min (length history) n.
Proof.
  unfold slice_last. split.
  - exists (take (length history - n) history).
    symmetry. apply take_drop.
  - rewrite length_drop. lia.
Qed.

Lemma getOptimizedHistory_shape (history : list Message) (p : Provider) :
  (exists older, history = older ++ getOptimizedHistory history p)
  /\ length (getOptimizedHistory history p)
     = history_window p (length history).
Proof.
  destruct p; simpl; try apply slice_last_spec.
  split; [exists []; reflexivity|reflexivity].
Qed.

(** X1: [getOptimizedHistory] returns the most recent messages, in
    order: its result is a suffix of the history, of length
    [min(n, 6)] for groq, siliconflow and huggingface, [min(n, 10)] for
    github, and the whole history for gemini. *)
Theorem X1_history_recent_suffix (history : list Message) (p : Provider) :
  (exists older, history = older ++ getOptimizedHistory history p)
  /\ length (getOptimizedHistory history p)
     = history_window p (length history).
Proof.
  destruct p; simpl; try apply slice_last_spec.
  split; [exists []; reflexivity|reflexivity].
Qed.

Lemma required_inj (p q : Provider) : required p = required q -> p = q.
Proof. destruct p, q; simpl; intro H; try reflexivity; discriminate. Qed.

(** X2: a key check reports a provider available exactly when it lists
    no missing variable.  Setting a provider's variable to a non-empty
    value makes that provider available and changes the check of no other
    provider; removing it, or setting it to the empty string, makes the
    provider unavailable. *)
Theorem X2_key_configuration (env : Env) (p : Provider) :
  (available (checkApiKeys env p) = true
   <-> missing (checkApiKeys env p) = [])
  /\ (forall v : jsstring, v <> [] ->
        available (checkApiKeys (<[required p := v]> env) p) = true
        /\ forall q, q <> p ->
             checkApiKeys (<[required p := v]> env) q = checkApiKeys env q)
  /\ missing (checkApiKeys (delete (required p) env) p) = [required p]
  /\ missing (checkApiKeys (<[required p := js ""]> env) p) = [required p].
Proof.
  unfold Env, jsstring in *. split; [|split; [|split]].
  - assert (E : missing (checkApiKeys env p)
                = if available (checkApiKeys env p) then []
                  else [required p]) by reflexivity.
    rewrite E.
    destruct (available (checkApiKeys env p)); split; intro H; congruence.
  - intros v Hv. split.
    + unfold checkApiKeys. cbn [available]. unfold Env, jsstring.
      rewrite lookup_insert_eq. destruct v; [congruence|reflexivity].
    + intros q Hq. unfold checkApiKeys, Env, jsstring.
      rewrite lookup_insert_ne; [reflexivity|].
      intro E. apply required_inj in E. congruence.
  - unfold checkApiKeys. cbn [missing]. unfold Env, jsstring.
    rewrite lookup_delete_eq. reflexivity.
  - unfold checkApiKeys. cbn [missing]. unfold Env, jsstring.
    rewrite lookup_insert_eq. reflexivity.
Qed.

Lemma X2_key_configuration_witness :
  available (checkApiKeys (<[required groq := js "gsk-2"]> ∅) groq) = true
  /\ checkApiKeys (<[required groq := js "gsk-2"]> ∅) github
     = checkApiKeys ∅ github.
Proof.
  destruct (proj1 (proj2 (X2_key_configuration ∅ groq)) (js "gsk-2")
              ltac:(discriminate)) as [A B].
  split; [exact A|]. apply B. discriminate.
Defined.

Section FallbackWalk.

Variable env : Env.
Variable up : Upstream.
Variable o : StreamOptions.
Variable messages : list Message.

(** The providers a walk calls are the first usable ones of its list,
    in order. *)
Lemma try_fallbacks_invoked_prefix (ps : list Provider) :
  exists rest,
    List.filter (usable env) ps
    = invoked (snd (try_fallbacks env up o messages ps)) ++ rest.
Proof.
  induction ps as [|p ps [rest IH]].
  - exists []. reflexivity.
  - rewrite try_fallbacks_cons. cbn [List.filter].
    destruct (usable env p) eqn:U.
    + destruct (up (fallback_call env o messages p)).
      * destruct (try_fallbacks env up o messages ps) as [r l].
        exists rest. simpl in *. rewrite IH. reflexivity.
      * exists (List.filter (usable env) ps). reflexivity.
    + destruct (try_fallbacks env up o messages ps) as [r l].
      exists rest. simpl in *. exact IH.
Qed.

(** Every call of a walk is the fallback call of its provider. *)
Lemma try_fallbacks_calls (ps : list Provider) (c : ApiCall) :
  In (AInvoke c) (snd (try_fallbacks env up o messages ps)) ->
  c = fallback_call env o messages (call_provider c).
Proof.
  induction ps as [|p ps IH]; [intros []|].
  rewrite try_fallbacks_cons.
  destruct (usable env p).
  - destruct (up (fallback_call env o messages p)).
    + destruct (try_fallbacks env up o messages ps) as [r l].
      simpl in *. intros [H|[H|H]]; [discriminate| |auto].
      inversion H. reflexivity.
    + simpl. intros [H|[H|[]]]; [discriminate|].
      inversion H. reflexivity.
  - destruct (try_fallbacks env up o messages ps) as [r l].
    simpl in *. intros [H|H]; [discriminate|auto].
Qed.

End FallbackWalk.

Lemma exception_fallbacks_NoDup (p : Provider) :
  List.NoDup (exception_fallbacks p) /\ ~ In p (exception_fallbacks p)
  /\ ~ In github (exception_fallbacks p).
Proof.
  destruct p; cbn;
    (split;
     [ repeat (constructor; [cbn; intuition discriminate|]); constructor
     | split; intuition discriminate ]).
Qed.

Lemma usable_not_gemini (env : Env) (q : Provider) :
  usable env q = true -> q <> gemini /\ q <> github /\ has_key env q.
Proof.
  unfold usable, has_key. rewrite andb_true_iff.
  intros [K C]. destruct q; simpl in C; try discriminate;
    repeat split; auto; discriminate.
Qed.

(** The log of [streamFromProvider]: the primary attempt, followed by a
    walk of the fallbacks when that attempt threw and the provider is not
    siliconflow. *)
Lemma streamFromProvider_log (env : Env) (up : Upstream) (o : StreamOptions) :
  snd (streamFromProvider env up o) = snd (primary_attempt env up o)
  \/ snd (streamFromProvider env up o)
     = snd (primary_attempt env up o)
       ++ snd (try_fallbacks env up o (final_messages o)
                 (exception_fallbacks (provider (model o)))).
Proof.
  unfold streamFromProvider.
  destruct (primary_attempt env up o) as [[c|e] plog]; simpl; [left; auto|].
  destruct (negb (Provider_eqb (provider (model o)) siliconflow));
    [|left; reflexivity].
  destruct (try_fallbacks env up o (final_messages o)
              (exception_fallbacks (provider (model o)))) as [[c|] flog];
    right; reflexivity.
Qed.

(** The providers [streamFromProvider] calls: the selected one, unless
    it is gemini or its variable is not set, then the first usable
    fallbacks of the exception list, in order. *)
Lemma streamFromProvider_invoked (env : Env) (up : Upstream)
    (o : StreamOptions) :
  exists called rest,
    invoked (snd (streamFromProvider env up o))
    = primary_invoked env (provider (model o)) ++ called
    /\ List.filter (usable env) (exception_fallbacks (provider (model o)))
       = called ++ rest.
Proof.
  pose proof (primary_attempt_log env up o) as [_ Hi].
  destruct (streamFromProvider_log env up o) as [E|E]; rewrite E.
  - exists [], (List.filter (usable env)
                  (exception_fallbacks (provider (model o)))).
    rewrite Hi, app_nil_r. auto.
  - destruct (try_fallbacks_invoked_prefix env up o (final_messages o)
                (exception_fallbacks (provider (model o)))) as [rest Hpre].
    eexists _, rest. rewrite invoked_app, Hi. split; [reflexivity|exact Hpre].
Qed.

(** No provider other than the selected one is called without a key. *)
Lemma streamFromProvider_keyed (env : Env) (up : Upstream)
    (o : StreamOptions) (q : Provider) :
  In q (invoked (snd (streamFromProvider env up o))) ->
  q = provider (model o) \/ has_key env q.
Proof.
  destruct (streamFromProvider_invoked env up o) as (called & rest & E & F).
  rewrite E. intro H. apply in_app_or in H. destruct H as [H|H].
  - left. destruct (primary_invoked_cases env (provider (model o))) as [P|P];
      rewrite P in H; [destruct H|]. destruct H as [<-|[]]. reflexivity.
  - right.
    assert (In q (List.filter (usable env)
                    (exception_fallbacks (provider (model o)))))
      by (rewrite F; apply in_or_app; left; exact H).
    apply filter_In in H0. destruct H0 as [_ U].
    apply usable_not_gemini in U. apply U.
Qed.

(** X3: whatever the keys and the upstream answers, [streamFromProvider]
    never calls gemini, calls github only when github is the selected
    provider, calls no provider twice, and calls no provider other than
    the selected one unless that provider has a key. *)
Theorem X3_calls_made (env : Env) (up : Upstream) (o : StreamOptions) :
  let called := invoked (snd (streamFromProvider env up o)) in
  ~ In gemini called
  /\ (In github called -> provider (model o) = github)
  /\ List.NoDup called
  /\ forall q, In q called -> q = provider (model o) \/ has_key env q.
Proof.
  intro called. subst called.
  pose proof (exception_fallbacks_NoDup (provider (model o))) as (ND & NP & NG).
  destruct (streamFromProvider_invoked env up o) as (fb & rest & E & F).
  rewrite E.
  assert (Hsub : forall q, In q fb ->
                   In q (exception_fallbacks (provider (model o)))
                   /\ usable env q = true).
  { intros q Hq.
    assert (In q (List.filter (usable env)
                    (exception_fallbacks (provider (model o)))))
      by (rewrite F; apply in_or_app; left; exact Hq).
    apply filter_In in H. exact H. }
  assert (NDf : List.NoDup fb).
  { assert (N : List.NoDup (List.filter (usable env)
                              (exception_fallbacks (provider (model o)))))
      by (apply List.NoDup_filter; exact ND).
    rewrite F in N. apply List.NoDup_app_remove_r in N. exact N. }
  assert (Hprim : forall q,
                    In q (primary_invoked env (provider (model o))) ->
                    q = provider (model o) /\ q <> gemini).
  { intros q Hq.
    assert (G : provider (model o) = gemini ->
                primary_invoked env (provider (model o)) = []).
    { intros ->. reflexivity. }
    destruct (primary_invoked_cases env (provider (model o))) as [P|P];
      rewrite P in Hq; [destruct Hq|]. destruct Hq as [<-|[]].
    split; [reflexivity|]. intro N. rewrite (G N) in P. discriminate. }
  assert (NDp : List.NoDup (primary_invoked env (provider (model o)))).
  { destruct (primary_invoked_cases env (provider (model o))) as [P|P];
      rewrite P; repeat constructor. simpl. tauto. }
  split; [|split; [|split]].
  - intro H. apply in_app_or in H. destruct H as [H|H].
    + destruct (Hprim _ H). congruence.
    + destruct (Hsub _ H) as [_ U]. apply usable_not_gemini in U.
      destruct U. congruence.
  - intro H. apply in_app_or in H. destruct H as [H|H].
    + destruct (Hprim _ H). congruence.
    + destruct (Hsub _ H) as [_ U]. apply usable_not_gemini in U.
      destruct U as (_ & U & _). congruence.
  - apply List.NoDup_app; [exact NDp|exact NDf|].
    intros q Hq Hq'.
    destruct (Hprim _ Hq) as [-> _]. destruct (Hsub _ Hq'). contradiction.
  - intros q H. rewrite <- E in H.
    apply (streamFromProvider_keyed env up o q H).
Qed.

Lemma X3_calls_made_witness :
  provider (model (Examples.options_for github)) = github.
Proof.
  apply (proj1 (proj2 (X3_calls_made Examples.groq_github_env
                         Examples.all_down (Examples.options_for github)))).
  vm_compute. left. reflexivity.
Defined.

Lemma final_messages_shape (o : StreamOptions) :
  exists sys hist,
    final_messages o
    = {| role := "system"; content := sys |} :: hist
      ++ [{| role := "user"; content := prompt o |}]
    /\ sys <> []
    /\ sys = match systemPrompt o with
             | Some (c :: s) => c :: s
             | _ => COMPRESSED_SYSTEM_PROMPT
             end
    /\ hist = match history o with
              | Some h => getOptimizedHistory h (provider (model o))
              | None => []
              end.
Proof.
  unfold final_messages, build_messages.
  destruct (systemPrompt o) as [[|c s]|]; simpl;
    eexists _, _; (split; [reflexivity|]); split;
    try (vm_compute; discriminate); try discriminate; split; try reflexivity;
    destruct (history o); reflexivity.
Qed.

(** X4: every call [streamFromProvider] makes, to the selected provider
    or to a fallback, carries the same three-part list of messages.
    First the system message: the given system prompt, or the compressed
    prompt when none or an empty one is given; it is never empty.  Then
    the history cut to the window of the selected provider, also in a
    call to a fallback: the last messages of the given history, 6 at
    most for groq, siliconflow and huggingface, 10 for github, all of
    them for gemini.  Last the user's prompt. *)
Theorem X4_messages_sent (env : Env) (up : Upstream) (o : StreamOptions)
    (c : ApiCall) :
  In (AInvoke c) (snd (streamFromProvider env up o)) ->
  call_messages c
  = {| role := "system"; content := system_prompt_sent o |}
    :: history_sent o ++ [{| role := "user"; content := prompt o |}]
  /\ system_prompt_sent o <> []
  /\ (exists older, default [] (history o) = older ++ history_sent o)
  /\ length (history_sent o)
     = history_window (provider (model o))
         (length (default [] (history o))).
Proof.
  intro H.
  assert (M : call_messages c = final_messages o).
  { assert (P : forall c', In (AInvoke c') (snd (primary_attempt env up o)) ->
                  call_messages c' = final_messages o).
    { intros c'. unfold primary_attempt.
      assert (Q : forall c0, primary_call env o (final_messages o)
                             = Return c0 ->
                    call_messages c0 = final_messages o).
      { intros c0. unfold primary_call.
        destruct (provider (model o)); try discriminate;
          (destruct (env !! _); [|discriminate]);
          intro E; inversion E; reflexivity. }
      destruct (primary_call env o (final_messages o)) as [c0|e0];
        [|intros []].
      specialize (Q c0 eq_refl).
      destruct (up c0); simpl; intros [E|[]]; inversion E; subst; exact Q. }
    destruct (streamFromProvider_log env up o) as [E|E]; rewrite E in H.
    - apply P. exact H.
    - apply in_app_or in H. destruct H as [H|H]; [apply P; exact H|].
      apply try_fallbacks_calls in H. rewrite H. reflexivity. }
  destruct (final_messages_shape o) as (sys & hist & E & Hs & Hsys & Hh).
  fold (system_prompt_sent o) in Hsys. fold (history_sent o) in Hh.
  subst sys hist. rewrite M. split; [exact E|]. split; [exact Hs|].
  unfold history_sent. destruct (history o) as [h|]; simpl.
  - apply getOptimizedHistory_shape.
  - split; [exists []; reflexivity|].
    destruct (provider (model o)); reflexivity.
Qed.

Lemma X4_messages_sent_witness :
  exists c,
    In (AInvoke c)
       (snd (streamFromProvider Examples.siliconflow_groq_env
               Examples.only_groq_up (Examples.options_for huggingface)))
    /\ call_provider c = groq
    /\ call_messages c
       = [{| role := "system"; content := COMPRESSED_SYSTEM_PROMPT |};
          {| role := "user"; content := js "Explain the term" |}].
Proof.
  set (c := fallback_call Examples.siliconflow_groq_env
              (Examples.options_for huggingface)
              (final_messages (Examples.options_for huggingface)) groq).
  assert (H : In (AInvoke c)
                (snd (streamFromProvider Examples.siliconflow_groq_env
                        Examples.only_groq_up
                        (Examples.options_for huggingface)))).
  { vm_compute. right. left. reflexivity. }
  destruct (X4_messages_sent _ _ _ c H) as (E & _).
  exists c. split; [exact H|]. split; [reflexivity|]. exact E.
Defined.

(* ================================================================== *)
(** * Further properties of the explain endpoint and its widget *)
(* ================================================================== *)

Lemma first_available_spec (env : Env) (ps : list Provider) :
  invoked (snd (Explain.first_available env ps)) = []
  /\ forall q, fst (Explain.first_available env ps) = Some q ->
       has_key env q /\ In q ps.
Proof.
  induction ps as [|p ps [IHl IHf]]; cbn [Explain.first_available].
  - split; [reflexivity|]. intros q H. discriminate.
  - destruct (available (checkApiKeys env p)) eqn:K.
    + split; [reflexivity|]. intros q H. inversion H; subst.
      split; [exact K|left; reflexivity].
    + destruct (Explain.first_available env ps) as [found log].
      simpl in *. split; [exact IHl|].
      intros q H. destruct (IHf q H). split; [assumption|right; assumption].
Qed.

(** What the handler does for a request with a term: it answers 500
    for want of any key, or it hands a selection whose provider has a key
    to [streamFromProvider] and answers with its outcome. *)
Lemma handle_with_term (env : Env) (up : Upstream) (t : jsstring)
    (taskType context : option json) :
  t <> [] ->
  let input := Explain.router_input t taskType in
  exists checks,
    invoked checks = []
    /\ (Explain.handle env up (Some (JStr t)) taskType context
        = (Explain.error_response 500 Explain.NO_KEYS_MESSAGE,
           ASelect input :: ACheck (provider (selectModel input)) :: checks)
        \/ exists selection,
             has_key env (provider selection)
             /\ (selection = selectModel input
                 \/ exists q, selection = Explain.fallback_selection q)
             /\ Explain.handle env up (Some (JStr t)) taskType context
                = (explain_response
                     (fst (streamFromProvider env up
                             (explain_options t context selection))),
                   ASelect input :: ACheck (provider (selectModel input))
                   :: checks
                   ++ snd (streamFromProvider env up
                             (explain_options t context selection)))).
Proof.
  intros Ht input. unfold Explain.handle.
  destruct t as [|c t]; [congruence|].
  cbn [truthy truthy_str typeof Explain.jstype_eqb negb orb].
  cbv zeta. fold input.
  destruct (available (checkApiKeys env (provider (selectModel input)))) eqn:K;
    cbn [negb].
  - exists []. split; [reflexivity|]. right. exists (selectModel input).
    split; [exact K|]. split; [left; reflexivity|].
    fold (explain_options (c :: t) context (selectModel input)).
    destruct (streamFromProvider env up
                (explain_options (c :: t) context (selectModel input)))
      as [[call|e] log2]; reflexivity.
  - pose proof (first_available_spec env
                  (Explain.availableFallbacks (provider (selectModel input))))
      as [Hi Hf].
    destruct (Explain.first_available env
                (Explain.availableFallbacks (provider (selectModel input))))
      as [[q|] log1]; simpl in Hi, Hf; cbn [option_map].
    + exists log1. split; [exact Hi|]. right.
      exists (Explain.fallback_selection q).
      split; [apply (Hf q eq_refl)|]. split; [right; exists q; reflexivity|].
      fold (explain_options (c :: t) context (Explain.fallback_selection q)).
      destruct (streamFromProvider env up
                  (explain_options (c :: t) context
                     (Explain.fallback_selection q)))
        as [[call|e] log2]; reflexivity.
    + exists log1. split; [exact Hi|]. left. reflexivity.
Qed.

(** The two ways the handler is reached with a term or without one. *)
Lemma term_cases (term : option json) :
  (forall t, term = Some (JStr t) -> t = [])
  \/ exists t, term = Some (JStr t) /\ t <> [].
Proof.
  destruct term as [[|b|l|t|items|ms]|]; try (left; intros; discriminate).
  destruct t as [|c t].
  - left. intros t' Ht'. congruence.
  - right. exists (c :: t). split; [reflexivity|discriminate].
Qed.

Lemma invoked_In (log : list Action) (c : ApiCall) :
  In (AInvoke c) log -> In (call_provider c) (invoked log).
Proof.
  induction log as [|[] log IH]; simpl; intros H;
    try (destruct H as [H|H]; [discriminate|auto]); [destruct H|].
  destruct H as [H|H]; [inversion H; left; reflexivity|right; auto].
Qed.

(** A stream that [streamFromProvider] returns comes from a call it
    made and that answered. *)
Lemma streamFromProvider_returned (env : Env) (up : Upstream)
    (o : StreamOptions) (c : ApiCall) :
  fst (streamFromProvider env up o) = Return c ->
  up c = None /\ In (AInvoke c) (snd (streamFromProvider env up o)).
Proof.
  unfold streamFromProvider, primary_attempt.
  destruct (primary_call env o (final_messages o)) as [c0|e0].
  - destruct (up c0) eqn:U; simpl.
    + destruct (negb _); [|discriminate].
      destruct (try_fallbacks env up o (final_messages o)
                  (exception_fallbacks (provider (model o))))
        as [[c1|] flog] eqn:T; simpl; [|discriminate].
      intro H. inversion H; subst.
      destruct (try_fallbacks_found _ _ _ _ _ _ _ T) as [(q & _ & _ & E & N) _].
      split; [exact N|]. right.
      clear -T. revert flog T.
      induction (exception_fallbacks (provider (model o))) as [|p ps IH];
        intros flog T; [discriminate|].
      rewrite try_fallbacks_cons in T.
      destruct (usable env p).
      * destruct (up (fallback_call env o (final_messages o) p)).
        -- destruct (try_fallbacks env up o (final_messages o) ps) as [r l].
           inversion T; subst. right; right. apply IH. reflexivity.
        -- inversion T; subst. right; left. reflexivity.
      * destruct (try_fallbacks env up o (final_messages o) ps) as [r l].
        inversion T; subst. right. apply IH. reflexivity.
    + intro H. inversion H; subst. split; [exact U|left; reflexivity].
  - simpl. destruct (negb _); [|discriminate].
    destruct (try_fallbacks env up o (final_messages o)
                (exception_fallbacks (provider (model o))))
      as [[c1|] flog] eqn:T; simpl; [|discriminate].
    intro H. inversion H; subst.
    destruct (try_fallbacks_found _ _ _ _ _ _ _ T) as [(q & _ & _ & E & N) _].
    split; [exact N|].
    clear -T. revert flog T.
    induction (exception_fallbacks (provider (model o))) as [|p ps IH];
      intros flog T; [discriminate|].
    rewrite try_fallbacks_cons in T.
    destruct (usable env p).
    * destruct (up (fallback_call env o (final_messages o) p)).
      -- destruct (try_fallbacks env up o (final_messages o) ps) as [r l].
         inversion T; subst. right; right. apply IH. reflexivity.
      -- inversion T; subst. right; left. reflexivity.
    * destruct (try_fallbacks env up o (final_messages o) ps) as [r l].
      inversion T; subst. right. apply IH. reflexivity.
Qed.

(** The explain endpoint calls no provider that lacks a key. *)
Lemma POST_calls_keyed (env : Env) (up : Upstream) (parsed : thrown json)
    (q : Provider) :
  In q (invoked (snd (Explain.POST env up parsed))) -> has_key env q.
Proof.
  unfold Explain.POST.
  destruct parsed as [v|e]; [|intros []].
  destruct (Explain.is_null v); [intros []|].
  destruct (term_cases (Explain.field v "term")) as [D|(t & E & Ht)].
  - rewrite (handle_term_required env up _ _ _ D). intros [].
  - rewrite E.
    destruct (handle_with_term env up t (Explain.field v "taskType")
                (Explain.field v "context") Ht)
      as (checks & Hc & [H|(sel & K & _ & H)]); rewrite H; cbn [snd invoked].
    + rewrite Hc. intros [].
    + rewrite invoked_app, Hc. cbn [app]. intro Hq.
      destruct (streamFromProvider_keyed _ _ _ _ Hq) as [ -> | Hk ]; assumption.
Qed.

(** X5: whatever the request and the upstream answers, the explain
    endpoint calls no provider for which the environment holds no key,
    neither as the selected provider nor as a fallback. *)
Theorem X5_explain_calls_keyed (env : Env) (up : Upstream)
    (parsed : thrown json) (q : Provider) :
  In q (invoked (snd (Explain.POST env up parsed))) ->
  available (checkApiKeys env q) = true.
Proof. apply POST_calls_keyed. Qed.

Lemma X5_explain_calls_keyed_witness :
  available (checkApiKeys Examples.groq_github_env groq) = true.
Proof.
  apply (X5_explain_calls_keyed Examples.groq_github_env Examples.all_down
           (Return Examples.explain_entropy) groq).
  vm_compute. left. reflexivity.
Defined.

(** The three kinds of answer of the endpoint. *)
Lemma POST_cases (env : Env) (up : Upstream) (parsed : thrown json) :
  (exists m, Explain.POST env up parsed = (Explain.error_response 400 m, []))
  \/ (exists m l,
        Explain.POST env up parsed = (Explain.error_response 500 m, l))
  \/ (exists c l,
        Explain.POST env up parsed = (explain_response (Return c), l)
        /\ up c = None /\ In (AInvoke c) l).
Proof.
  unfold Explain.POST.
  destruct parsed as [v|e]; [|right; left; eexists _, _; reflexivity].
  destruct (Explain.is_null v); [right; left; eexists _, _; reflexivity|].
  destruct (term_cases (Explain.field v "term")) as [D|(t & E & Ht)].
  - left. eexists. apply handle_term_required. exact D.
  - rewrite E.
    destruct (handle_with_term env up t (Explain.field v "taskType")
                (Explain.field v "context") Ht)
      as (checks & Hc & [H|(sel & K & _ & H)]).
    + right; left. eexists _, _. exact H.
    + destruct (fst (streamFromProvider env up
                       (explain_options t (Explain.field v "context") sel)))
        as [c|e] eqn:R.
      * destruct (streamFromProvider_returned _ _ _ _ R) as [U I].
        right; right. eexists _, _. split; [exact H|]. split; [exact U|].
        right; right. apply in_or_app. right. exact I.
      * right; left. eexists _, _. exact H.
Qed.

(** X6: the explain endpoint answers 200 with an event stream, or 400
    or 500 with a JSON error.  A stream comes from a call that was made
    to a provider with a key and that answered; a 400 is given before
    anything was selected, checked or called. *)
Theorem X6_explain_response (env : Env) (up : Upstream)
    (parsed : thrown json) :
  let resp := fst (Explain.POST env up parsed) in
  let log := snd (Explain.POST env up parsed) in
  match Explain.body resp with
  | Explain.EventStream c =>
      Explain.status resp = 200
      /\ Explain.content_type resp = "text/event-stream"
      /\ up c = None
      /\ In (AInvoke c) log
      /\ available (checkApiKeys env (call_provider c)) = true
  | Explain.JsonError m =>
      (Explain.status resp = 400 \/ Explain.status resp = 500)
      /\ Explain.content_type resp = "application/json"
      /\ (Explain.status resp = 400 -> log = [])
  end.
Proof.
  cbv zeta.
  pose proof (POST_calls_keyed env up parsed) as Keyed.
  destruct (POST_cases env up parsed)
    as [(m & E)|[(m & l & E)|(c & l & E & U & I)]];
    rewrite E in *; cbn [fst snd] in *.
  - simpl. repeat split; auto.
  - simpl. repeat split; auto. intro; discriminate.
  - simpl. repeat split; auto.
    apply Keyed. apply invoked_In. exact I.
Qed.

Lemma ws_runs_bounds (s : jsstring) :
  forall b, 0 <= ws_runs b s <= strlen s.
Proof.
  unfold strlen. induction s as [|c s IH]; intro b; simpl ws_runs.
  - simpl. lia.
  - rewrite length_cons.
    destruct (is_ws c).
    + specialize (IH true). destruct b; lia.
    + specialize (IH false). lia.
Qed.

(** X7: the widget sends the endpoint only terms that pass its check
    and that the router gives to groq.  A selection the widget accepts
    is trimmed and has between 1 and 99 code units; the endpoint does
    not answer 400 to the body built from it, and it selects groq and
    checks groq's key first, whatever context is sent along. *)
Theorem X7_widget_request (env : Env) (up : Upstream)
    (selection context t : jsstring) :
  Widget.handleSelection selection = Some t ->
  t = trim selection
  /\ 0 < strlen t < 100
  /\ exists rest,
       snd (Explain.POST env up (Return (Widget.request_body t context)))
       = ASelect (Explain.router_input t None) :: ACheck groq :: rest
       /\ provider (selectModel (Explain.router_input t None)) = groq
       /\ Explain.status
            (fst (Explain.POST env up (Return (Widget.request_body t context))))
          <> 400.
Proof.
  unfold Widget.handleSelection. intro H.
  destruct ((0 <? strlen (trim selection))
            && (strlen (trim selection) <? 100)) eqn:B; [|discriminate].
  inversion H; subst. clear H.
  apply andb_true_iff in B. destruct B as [B1 B2].
  apply Z.ltb_lt in B1, B2.
  set (t := trim selection) in *.
  split; [reflexivity|]. split; [lia|].
  assert (Ht : t <> []).
  { intros E. rewrite E in B1. unfold strlen in B1. simpl in B1. lia. }
  assert (Fterm : Explain.field (Widget.request_body t context) "term"
                  = Some (JStr t)).
  { unfold Widget.request_body, Explain.field.
    destruct (truthy_str context); reflexivity. }
  assert (Ftask : Explain.field (Widget.request_body t context) "taskType"
                  = None).
  { unfold Widget.request_body, Explain.field.
    destruct (truthy_str context); reflexivity. }
  assert (G : provider (selectModel (Explain.router_input t None)) = groq).
  { unfold selectModel, effective_wordCount, Explain.router_input.
    cbn [text hasImage historyLength taskType wordCount truthy default
         num_or].
    pose proof (ws_runs_bounds t false) as W. unfold split_ws_length.
    replace (1 + ws_runs false t =? 0) with false
      by (symmetry; apply Z.eqb_neq; lia).
    replace (10000 <? 1 + ws_runs false t) with false
      by (symmetry; apply Z.ltb_ge; lia).
    replace (50000 <? strlen t) with false
      by (symmetry; apply Z.ltb_ge; lia).
    reflexivity. }
  unfold Explain.POST. cbn [Widget.request_body Explain.is_null].
  change (JObj ((js "term", JStr t)
                :: (if truthy_str context
                    then [(js "context", JStr context)] else [])))
    with (Widget.request_body t context).
  rewrite Fterm, Ftask.
  destruct (handle_with_term env up t None
              (Explain.field (Widget.request_body t context) "context") Ht)
    as (checks & Hc & [E|(sel & K & _ & E)]); rewrite E; cbn [fst snd];
    rewrite G.
  - eexists. split; [reflexivity|]. split; [reflexivity|].
    simpl. discriminate.
  - eexists. split; [reflexivity|]. split; [reflexivity|].
    destruct (fst (streamFromProvider env up _)); simpl; discriminate.
Qed.

Lemma X7_widget_request_witness :
  exists rest,
    snd (Explain.POST Examples.groq_github_env Examples.all_down
           (Return (Widget.request_body (js "entropy") (js ""))))
    = ASelect (Explain.router_input (js "entropy") None)
      :: ACheck groq :: rest.
Proof.
  destruct (X7_widget_request Examples.groq_github_env Examples.all_down
              (js "  entropy ") (js "") (js "entropy") eq_refl)
    as (_ & _ & rest & E & _).
  exists rest. exact E.
Defined.

Section StreamAssembly.

Variable extract : jsstring -> jsstring.

Lemma split_lines_nonempty (s : jsstring) : Widget.split_lines s <> [].
Proof.
  induction s as [|c s IH]; simpl; [discriminate|].
  destruct (c =? 10)%N; [discriminate|].
  destruct (Widget.split_lines s); [congruence|discriminate].
Qed.

(** Splitting a text that arrives in two parts: the complete lines of
    the first part, then the lines of the rest of the first part
    followed by the second. *)
Lemma split_lines_app (a b : jsstring) :
  Widget.split_lines (a ++ b)
  = List.removelast (Widget.split_lines a)
    ++ Widget.split_lines (List.last (Widget.split_lines a) [] ++ b).
Proof.
  induction a as [|c a IH]; [reflexivity|].
  cbn [app Widget.split_lines].
  destruct (c =? 10)%N eqn:C.
  - pose proof (split_lines_nonempty a) as N.
    destruct (Widget.split_lines a) as [|l ls] eqn:S; [congruence|].
    cbn [List.removelast List.last]. rewrite IH. reflexivity.
  - rewrite IH.
    pose proof (split_lines_nonempty a) as N.
    destruct (Widget.split_lines a) as [|l ls] eqn:S; [congruence|].
    destruct ls as [|l' ls'].
    + cbn [List.removelast List.last app Widget.split_lines].
      rewrite C. reflexivity.
    + cbn [List.removelast List.last app]. reflexivity.
Qed.

Lemma process_lines_app (l1 l2 : list jsstring) (fullText : jsstring) :
  Widget.process_lines extract (l1 ++ l2) fullText
  = (fst (Widget.process_lines extract l2
            (fst (Widget.process_lines extract l1 fullText))),
     snd (Widget.process_lines extract l1 fullText)
     ++ snd (Widget.process_lines extract l2
               (fst (Widget.process_lines extract l1 fullText)))).
Proof.
  revert fullText. induction l1 as [|line l1 IH]; intro fullText.
  - simpl. destruct (Widget.process_lines extract l2 fullText); reflexivity.
  - cbn [app Widget.process_lines].
    destruct (truthy_str (trim line)); [|apply IH].
    destruct (truthy_str (extract line)); [|apply IH].
    rewrite IH.
    destruct (Widget.process_lines extract l1 (fullText ++ extract line))
      as [f s]. reflexivity.
Qed.

Lemma split_lines_no_lf (s : jsstring) :
  List.Forall (fun l => ~ In 10%N l) (Widget.split_lines s).
Proof.
  induction s as [|c s IH]; cbn [Widget.split_lines].
  - constructor; [intros []|constructor].
  - destruct (c =? 10)%N eqn:C.
    + constructor; [intros []|exact IH].
    + apply N.eqb_neq in C.
      destruct (Widget.split_lines s) as [|l ls].
      * constructor; [|constructor]. intros [E|[]]. congruence.
      * inversion IH; subst. constructor; [|assumption].
        intros [E|I]; [congruence|contradiction].
Qed.

Lemma split_lines_single (s : jsstring) :
  ~ In 10%N s -> Widget.split_lines s = [s].
Proof.
  induction s as [|c s IH]; intro H; cbn [Widget.split_lines];
    [reflexivity|].
  destruct (c =? 10)%N eqn:C.
  - apply N.eqb_eq in C. exfalso. apply H. left. exact C.
  - rewrite IH; [reflexivity|]. intro I. apply H. right. exact I.
Qed.

Lemma last_no_lf (s : jsstring) :
  ~ In 10%N (List.last (Widget.split_lines s) []).
Proof.
  pose proof (split_lines_no_lf s) as F.
  pose proof (split_lines_nonempty s) as N.
  rewrite List.Forall_forall in F. apply F.
  destruct (List.exists_last N) as (ls & l & E). rewrite E.
  rewrite List.last_last. apply in_or_app. right. left. reflexivity.
Qed.

(** Reading the chunks with a line buffer is processing the lines of
    the text that the buffer and the chunks make together. *)
Lemma read_stream_lines (chunks : list jsstring) :
  forall buffer fullText,
    ~ In 10%N buffer ->
    Widget.read_stream extract chunks buffer fullText
    = Widget.process_lines extract
        (Widget.split_lines (buffer ++ concat chunks)) fullText.
Proof.
  induction chunks as [|value rest IH]; intros buffer fullText Hb.
  - cbn [Widget.read_stream concat]. rewrite app_nil_r.
    rewrite (split_lines_single buffer Hb).
    cbn [Widget.process_lines].
    destruct (truthy_str (trim buffer)); [|reflexivity].
    destruct (truthy_str (extract buffer)); reflexivity.
  - cbn [Widget.read_stream concat]. cbv zeta.
    rewrite app_assoc, (split_lines_app (buffer ++ value) (concat rest)),
      process_lines_app.
    destruct (Widget.process_lines extract
                (List.removelast (Widget.split_lines (buffer ++ value)))
                fullText) as [fullText1 shown].
    cbn [fst snd].
    rewrite (IH _ fullText1 (last_no_lf (buffer ++ value))).
    destruct (Widget.process_lines extract _ fullText1). reflexivity.
Qed.

End StreamAssembly.

(** X8: the explanation the widget shows does not depend on how the
    response body is cut into chunks: reading the chunks through the
    line buffer processes the lines of the whole text, as reading the
    text in one piece does. *)
Theorem X8_chunking_irrelevant (extract : jsstring -> jsstring)
    (chunks : list jsstring) :
  Widget.read_stream extract chunks [] []
  = Widget.process_lines extract (Widget.split_lines (concat chunks)) []
  /\ Widget.read_stream extract chunks [] []
     = Widget.read_stream extract [concat chunks] [] [].
Proof.
  assert (N : ~ In 10%N (@nil N)) by (intros []).
  split.
  - apply (read_stream_lines extract chunks [] [] N).
  - rewrite (read_stream_lines extract chunks [] [] N).
    rewrite (read_stream_lines extract [concat chunks] [] [] N).
    cbn [concat]. rewrite app_nil_r. reflexivity.
Qed.

(* ================================================================== *)
(** * Further properties of the job stream *)
(* ================================================================== *)

Section StreamShape.

Import Stream.

Lemma result_events_shape (r : JobResult) :
  result_events r = []
  \/ exists c, is_result c = true /\ result_events r = [c].
Proof.
  unfold result_events.
  destruct (success r && truthy (data r)); [|left; reflexivity].
  destruct (data r) as [[|b|l|s|items|ms]|]; simpl;
    try (left; reflexivity); right; eexists; (split; [|reflexivity]);
    reflexivity.
Qed.

(** What the step that closes an open stream writes. *)
Lemma step_closing (st : State) (i : Input) :
  closed st = false ->
  closed (fst (step st i)) = true ->
  Forall (fun c => is_terminal_event c = false) (snd (step st i))
  \/ closing (snd (step st i)).
Proof.
  intros Ho. destruct i as [reply|]; simpl; [|left; constructor].
  unfold poll. rewrite Ho.
  destruct reply as [[s|]|e]; simpl;
    try solve [intros _; left; repeat constructor].
  destruct (status_changed (status s) (lastStatus st)).
  - destruct (status s) eqn:S; simpl; try congruence.
    + destruct (result s) as [r|]; simpl; [|congruence].
      intros _. right. unfold closing.
      destruct (result_events_shape r) as [->|(c & Hc & ->)].
      * left. reflexivity.
      * right. exists c. rewrite Hc. split; reflexivity.
    + intros _. right. right. eexists. (split; [|reflexivity]). reflexivity.
  - intro C.
    destruct (progress s) as [[n|[c|]]|]; simpl in *; try congruence.
    destruct (truthy_str c); simpl in *; congruence.
Qed.

Lemma run_shape (l : list Input) :
  forall st, closed st = false ->
    Forall (fun c => is_terminal_event c = false) (snd (run st l))
    \/ exists front tail,
         snd (run st l) = front ++ tail
         /\ Forall (fun c => is_terminal_event c = false) front
         /\ closing tail
         /\ closed (fst (run st l)) = true.
Proof.
  induction l as [|i l IH]; intros st Ho.
  - left. constructor.
  - cbn [run].
    pose proof (step_open st i) as SO.
    pose proof (step_closing st i Ho) as SC.
    pose proof (run_closed (fst (step st i)) l) as RC.
    specialize (IH (fst (step st i))).
    destruct (step st i) as [st1 out1]. cbn [fst snd] in *.
    destruct (run st1 l) as [st2 out2]. cbn [fst snd] in *.
    destruct (closed st1) eqn:C1.
    + destruct (RC eq_refl) as [C2 ->]. rewrite app_nil_r.
      destruct (SC eq_refl) as [F|Cl]; [left; exact F|].
      right. exists [], out1. repeat split; auto.
    + destruct (SO eq_refl) as (_ & F1 & _).
      destruct (IH eq_refl) as [F2|(front & tail & E & F2 & Cl & C2)].
      * left. apply Forall_app. split; assumption.
      * right. exists (out1 ++ front), tail. rewrite E, app_assoc.
        repeat split; auto. apply Forall_app. split; assumption.
Qed.

End StreamShape.

(** X9: whatever the polls answer and whenever the client leaves, the
    chunks written to a job stream hold no [result] event, [error] event
    or sentinel at all, or they end with at most one such event directly
    followed by the one sentinel, and the stream is closed. *)
Theorem X9_stream_shape (inputs : list Stream.Input) :
  let out := snd (Stream.GET inputs) in
  Forall (fun c => Stream.is_terminal_event c = false) out
  \/ exists front tail,
       out = front ++ tail
       /\ Forall (fun c => Stream.is_terminal_event c = false) front
       /\ closing tail
       /\ Stream.closed (fst (Stream.GET inputs)) = true.
Proof. apply run_shape. reflexivity. Qed.

Lemma run_processing (ss : list JobStatus) (st : Stream.State) :
  Stream.closed st = false ->
  Stream.lastStatus st = Some processing ->
  Forall (fun s => status s = processing) ss ->
  Stream.run st (polls ss) = (st, flat_map progress_events ss).
Proof.
  intros Ho Hl F. induction F as [|s ss Hs _ IH]; [reflexivity|].
  assert (P : Stream.poll st (Return (Some s)) = (st, progress_events s)).
  { unfold Stream.poll, progress_events. rewrite Ho, Hl, Hs. simpl.
    destruct (progress s) as [[n|[c|]]|]; try reflexivity.
    destruct (truthy_str c); reflexivity. }
  cbn [polls map Stream.run Stream.step flat_map].
  fold (polls ss). rewrite P, IH. reflexivity.
Qed.

(** X10: a job that every poll from the first one on finds
    [processing] gets one [status] event, at the first poll, and after it
    a [progress] event for each poll whose progress carries non-empty
    content; the stream stays open. *)
Theorem X10_processing_polls (s : JobStatus) (rest : list JobStatus) :
  Forall (fun s => status s = processing) (s :: rest) ->
  Stream.GET (polls (s :: rest))
  = ({| Stream.lastStatus := Some processing; Stream.closed := false |},
     Stream.Data Stream.EvStatusProcessing :: flat_map progress_events rest).
Proof.
  intro F. inversion F as [|s' ss Hs Hrest]; subst.
  assert (P : Stream.poll Stream.initial (Return (Some s))
              = ({| Stream.lastStatus := Some processing;
                    Stream.closed := false |},
                 [Stream.Data Stream.EvStatusProcessing])).
  { unfold Stream.poll, Stream.initial.
    cbn [Stream.closed Stream.lastStatus]. rewrite Hs. reflexivity. }
  unfold Stream.GET. cbn [polls map Stream.run Stream.step].
  fold (polls rest).
  rewrite P.
  rewrite (run_processing rest
             {| Stream.lastStatus := Some processing;
                Stream.closed := false |} eq_refl eq_refl Hrest).
  reflexivity.
Qed.

Lemma X10_processing_polls_witness :
  snd (Stream.GET (polls [Examples.streaming_record (js "Entropy");
                          Examples.streaming_record (js "Entropy is");
                          Examples.streaming_record (js "")]))
  = [Stream.Data Stream.EvStatusProcessing;
     Stream.Data (Stream.EvProgress (js "Entropy is"))].
Proof.
  rewrite (X10_processing_polls (Examples.streaming_record (js "Entropy"))
             [Examples.streaming_record (js "Entropy is");
              Examples.streaming_record (js "")]).
  - reflexivity.
  - repeat constructor.
Defined.

(** X11: when a poll of an open stream finds no record of the job, or
    throws, the stream gets one event that carries the error text and no
    type, and is closed without a sentinel: nothing is written
    afterwards. *)
Theorem X11_poll_failure (pre post : list Stream.Input)
    (reply : thrown (option JobStatus)) (ev : Stream.Event) :
  Stream.closed (fst (Stream.GET pre)) = false ->
  failure_event reply = Some ev ->
  let out := snd (Stream.GET (pre ++ Stream.Tick reply :: post)) in
  out = snd (Stream.GET pre) ++ [Stream.Data ev]
  /\ Forall (fun c => Stream.is_terminal_event c = false) out
  /\ Stream.closed (fst (Stream.GET (pre ++ Stream.Tick reply :: post)))
     = true.
Proof.
  intros Ho Hf. cbv zeta. unfold Stream.GET in *.
  rewrite run_app. cbn [fst snd].
  destruct (run_open Stream.initial pre Ho) as (_ & Fpre & _).
  destruct (Stream.run Stream.initial pre) as [st0 out0].
  cbn [fst snd] in *.
  assert (P : Stream.poll st0 reply = (Stream.close st0, [Stream.Data ev])).
  { unfold Stream.poll. rewrite Ho.
    destruct reply as [[s|]|e]; simpl in Hf; inversion Hf; reflexivity. }
  cbn [Stream.run Stream.step]. rewrite P.
  destruct (run_closed (Stream.close st0) post eq_refl) as [C E].
  destruct (Stream.run (Stream.close st0) post) as [st2 out2].
  cbn [fst snd] in *. subst out2.
  split; [reflexivity|]. split; [|exact C].
  apply Forall_app. split; [exact Fpre|].
  constructor; [|constructor].
  destruct reply as [[s|]|e]; simpl in Hf; inversion Hf; reflexivity.
Qed.

Lemma X11_poll_failure_witness :
  snd (Stream.GET [Stream.Tick (Return None); Stream.Tick (Return None)])
  = [Stream.Data Stream.EvNotFound].
Proof.
  apply (X11_poll_failure [] [Stream.Tick (Return None)] (Return None)
           Stream.EvNotFound eq_refl eq_refl).
Defined.

(** X12: once the client has left, nothing more is written to the
    stream, whatever the later polls find. *)
Theorem X12_abort_silences (pre post : list Stream.Input) :
  snd (Stream.GET (pre ++ Stream.Abort :: post)) = snd (Stream.GET pre)
  /\ Stream.closed (fst (Stream.GET (pre ++ Stream.Abort :: post))) = true.
Proof.
  unfold Stream.GET. rewrite run_app. cbn [fst snd].
  destruct (Stream.run Stream.initial pre) as [st0 out0]. cbn [fst snd].
  cbn [Stream.run Stream.step].
  destruct (run_closed (Stream.close st0) post eq_refl) as [C E].
  destruct (Stream.run (Stream.close st0) post) as [st2 out2].
  cbn [fst snd] in *. subst out2. rewrite !app_nil_r. auto.
Qed.

(* ================================================================== *)
(** * Further properties of the batch assembler *)
(* ================================================================== *)

Section AssemblerFacts.

Import Reader.

Lemma summary_for_mono (pages pages' : list Page) (e : Effect) :
  (forall n, In n (map pageNum pages) -> In n (map pageNum pages')) ->
  summary_for pages e -> summary_for pages' e.
Proof.
  intros H. destruct e; simpl; auto. intros [I T]. split; auto.
Qed.

Lemma summary_for_is_summary (pages : list Page) (effs : list Effect) :
  Forall (summary_for pages) effs -> Forall is_summary effs.
Proof.
  apply List.Forall_impl. intros [] H; simpl in *; auto.
Qed.

Lemma distribute_for (summaries : json) (pages : list Page) :
  Forall (summary_for pages) (fst (distribute summaries pages)).
Proof.
  induction pages as [|p pages IH]; simpl; [constructor|].
  destruct (get_index summaries (pageNum p)) as [summary|e]; simpl;
    [|constructor].
  destruct (distribute summaries pages) as [effs err]. simpl in *.
  apply Forall_app. split.
  - destruct summary as [[|b|l|s|items|ms]|]; try constructor.
    destruct s as [|ch s]; simpl; constructor; [|constructor].
    simpl. split; [left; reflexivity|discriminate].
  - eapply List.Forall_impl; [|exact IH].
    intros e. apply summary_for_mono. intros n H. right. exact H.
Qed.

Lemma parse_fallback_for (pages : list Page) (full : jsstring) :
  Forall (summary_for pages) (parse_fallback pages full).
Proof.
  unfold parse_fallback. destruct pages as [|p pages]; [constructor|].
  destruct (trim full) as [|ch s] eqn:T; simpl; constructor;
    [|constructor].
  simpl. split; [left; reflexivity|discriminate].
Qed.

Lemma distribute_streamed_for (pages : list Page) (full : jsstring) :
  Forall (summary_for pages) (distribute_streamed pages full).
Proof.
  unfold distribute_streamed.
  destruct (JSON_parse (strip_fences full)) as [summaries|];
    [|apply parse_fallback_for].
  pose proof (distribute_for summaries pages) as D.
  destruct (distribute summaries pages) as [effs [e|]]; simpl in D.
  - apply Forall_app. split; [exact D|apply parse_fallback_for].
  - exact D.
Qed.

Lemma poll_status_for (pages : list Page) (replies : list PollReply) :
  forall attempts,
    Forall (summary_for pages) (poll_status pages attempts replies).
Proof.
  induction replies as [|r replies IH]; intros attempts; simpl;
    [constructor|].
  destruct (300 <=? attempts); [constructor|].
  destruct (reply_status r) as [[]|]; try apply IH; try constructor.
  destruct (reply_result r) as [res|]; [|apply IH].
  destruct (success res); [|apply IH].
  destruct (Jobs.data res); [apply distribute_for|constructor].
Qed.

Lemma later_for (pages : list Page) (effs : list Effect) :
  Forall (summary_for pages) effs ->
  Forall (later_summary_for pages) (map later effs).
Proof.
  induction 1 as [|[] effs H _ IH]; simpl; constructor; auto; destruct H.
Qed.

Lemma later_polls_for (pages : list Page) (replies : list PollReply) :
  Forall (later_summary_for pages) (later_polls pages replies).
Proof.
  destruct (later_polls_cases pages replies) as [->|[rest ->]];
    [constructor|].
  apply later_for, poll_status_for.
Qed.

(** Of the first poll and the later ones, one at most sets
    summaries. *)
Lemma first_or_later (pages : list Page) (replies : list PollReply) :
  first_poll pages replies = [] \/ later_polls pages replies = [].
Proof.
  unfold first_poll, later_polls.
  destruct replies as [|r rest]; [left; reflexivity|].
  cbn [take poll_status]. rewrite take_0. cbn [poll_status].
  change (300 <=? 0) with false. cbv iota.
  destruct (reply_status r) as [[]|]; auto.
  destruct (reply_result r) as [res|]; auto.
  destruct (success res); auto.
Qed.

(** The effects of [generateBatchSummaries]: none, or the marking, the
    one request, the summaries set before it returns, the unmarking, and
    the summaries set afterwards from the timer, all for pages of the
    request. *)
Lemma generateBatchSummaries_shape (c : Closure) (server : Server)
    (pages : list Page) :
  let sent :=
    List.filter (fun p => negb (already_done c (pageNum p))) pages in
  (sent = [] /\ generateBatchSummaries c server pages = [])
  \/ exists sets after,
       generateBatchSummaries c server pages
       = MarkGenerating (map pageNum sent) :: Fetch sent
         :: sets ++ UnmarkGenerating (map pageNum sent) :: after
       /\ Forall (summary_for sent) sets
       /\ Forall (later_summary_for sent) after
       /\ (sets = [] \/ after = [])
       /\ ((forall replies, server sent <> Accepted replies) ->
           after = []).
Proof.
  cbv zeta. unfold generateBatchSummaries.
  destruct (List.filter (fun p => negb (already_done c (pageNum p))) pages)
    as [|p sent]; [left; auto|].
  right. eexists _, _. split; [reflexivity|].
  destruct (server (p :: sent)) as [m|replies| | |full];
    try (repeat split; try constructor; auto; fail).
  - split; [apply poll_status_for|]. split; [apply later_polls_for|].
    split; [apply first_or_later|].
    intro N. exfalso. apply (N replies). reflexivity.
  - split; [apply distribute_streamed_for|]. repeat split; auto.
Qed.

Lemma build_batch_filter (c : Closure) (queue : list Page) :
  forall batch tokens b t q effs,
    build_batch c queue batch tokens = (b, t, q, effs) ->
    b ++ List.filter (admissibleb c) q
    = batch ++ List.filter (admissibleb c) queue.
Proof.
  induction queue as [|item rest IH]; intros batch tokens b t q effs H.
  - inversion H; subst. reflexivity.
  - cbn [build_batch] in H.
    destruct (negb (Z.of_nat (length batch) <? MAX_BATCH_PAGES));
      [inversion H; subst; reflexivity|].
    destruct (already_done c (pageNum item)) eqn:D.
    { cbn [List.filter]. unfold admissibleb at 2. rewrite D. cbn [negb andb].
      eapply IH; exact H. }
    destruct (is_short (pageText item)) eqn:Sh.
    { destruct (build_batch c rest batch tokens) as [[[b' t'] q'] effs']
        eqn:B.
      inversion H; subst.
      cbn [List.filter]. unfold admissibleb at 2. rewrite D, Sh.
      cbn [negb andb]. eapply IH; exact B. }
    destruct ((0 <? Z.of_nat (length batch))
              && (MAX_BATCH_TOKENS <? tokens + estimatedTokens (pageText item)));
      [inversion H; subst; reflexivity|].
    rewrite (IH _ _ _ _ _ _ H), <- app_assoc.
    cbn [List.filter]. unfold admissibleb at 2. rewrite D, Sh. reflexivity.
Qed.

Lemma push_all_nil (q : list Page) : push_all q [] = q.
Proof. reflexivity. Qed.

Lemma admissibleb_spec (c : Closure) (p : Page) :
  admissibleb c p = true <-> admissible c p.
Proof.
  unfold admissibleb, admissible.
  destruct (already_done c (pageNum p)), (is_short (pageText p)); simpl;
    intuition congruence.
Qed.

Lemma fetched_batch (c : Closure) (server : Server) (batch : list Page)
    (tokens : Z) :
  batch_inv c batch tokens -> 0 < Z.of_nat (length batch) ->
  fetched (generateBatchSummaries c server batch) = [batch].
Proof.
  intros (_ & _ & _ & A) L. apply generateBatchSummaries_fetched; [exact A|].
  intro E. rewrite E in L. simpl in L. lia.
Qed.

(** Without arrivals, the requests hold the admissible pages of the
    queue, in the order of the queue. *)
Lemma drain_order (c : Closure) (server : Server) (fuel : nat) :
  forall queue q effs,
    drain fuel c server [] queue = Some (q, effs) ->
    concat (fetched effs) = List.filter (admissibleb c) queue.
Proof.
  induction fuel as [|fuel IH]; intros queue q effs H; [discriminate|].
  cbn [drain] in H.
  destruct queue as [|x xs]; [inversion H; reflexivity|].
  destruct (build_batch c (x :: xs) [] 0) as [[[batch tok] q1] effs1] eqn:B.
  destruct (build_batch_spec c _ _ _ _ _ _ _ B (batch_inv_nil c))
    as (I & _ & _ & E & S & _).
  pose proof (build_batch_filter c _ _ _ _ _ _ _ B) as F.
  cbn [app] in F. rewrite <- F.
  destruct (0 <? Z.of_nat (length batch)) eqn:NE.
  - apply Z.ltb_lt in NE.
    cbn [hd tl] in H. rewrite !push_all_nil in H.
    assert (R : exists rest,
               drain fuel c server [] q1 = Some (q, rest)
               /\ fetched effs
                  = batch :: fetched rest).
    { destruct (0 <? Z.of_nat (length q1));
        destruct (drain fuel c server [] q1) as [[q' rest]|] eqn:Dr;
        try discriminate; inversion H; subst; exists rest;
        (split; [reflexivity|]);
        rewrite !fetched_app, (fetched_summaries _ S),
          (fetched_batch c server batch tok I NE); reflexivity. }
    destruct R as (rest & Dr & ->).
    cbn [concat]. rewrite (IH _ _ _ Dr). reflexivity.
  - assert (batch = []) as ->.
    { apply Z.ltb_ge in NE. destruct batch; [reflexivity|].
      cbn [length] in NE. lia. }
    rewrite (E eq_refl) in *.
    destruct (drain fuel c server [] []) as [[q' rest]|] eqn:Dr;
      [|discriminate].
    inversion H; subst.
    rewrite fetched_app, (fetched_summaries _ S). cbn [app].
    rewrite (IH _ _ _ Dr). reflexivity.
Qed.

(** With or without arrivals, no admissible page of the queue is
    lost. *)
Lemma drain_complete (c : Closure) (server : Server) (fuel : nat) :
  forall arrivals queue q effs,
    drain fuel c server arrivals queue = Some (q, effs) ->
    forall p, In p queue -> admissibleb c p = true ->
      In p (concat (fetched effs)).
Proof.
  induction fuel as [|fuel IH]; intros arrivals queue q effs H p Hp Ha;
    [discriminate|].
  cbn [drain] in H.
  destruct queue as [|x xs]; [destruct Hp|].
  destruct (build_batch c (x :: xs) [] 0) as [[[batch tok] q1] effs1] eqn:B.
  destruct (build_batch_spec c _ _ _ _ _ _ _ B (batch_inv_nil c))
    as (I & _ & _ & E & S & Cl).
  apply admissibleb_spec in Ha. destruct Ha as [Hd Hs].
  destruct (Cl p Hp) as [Hq|[Hb|[Hx|[Hx _]]]]; try congruence.
  - (* the page is left in the queue *)
    destruct (0 <? Z.of_nat (length batch)) eqn:NE.
    + apply Z.ltb_lt in NE.
      set (queue2 := push_all q1 (hd [] arrivals)) in *.
      assert (H2 : In p queue2) by (apply push_all_keeps; exact Hq).
      destruct (0 <? Z.of_nat (length queue2)).
      * destruct (drain fuel c server (tl (tl arrivals))
                    (push_all queue2 (hd [] (tl arrivals))))
          as [[q' rest]|] eqn:Dr; [|discriminate].
        inversion H; subst.
        rewrite !fetched_app, !concat_app, !in_app_iff.
        repeat right. cbn [app fetched].
        apply (IH _ _ _ _ Dr). { apply push_all_keeps; exact H2. }
        apply admissibleb_spec. split; assumption.
      * destruct (drain fuel c server (tl arrivals) queue2)
          as [[q' rest]|] eqn:Dr; [|discriminate].
        inversion H; subst.
        rewrite !fetched_app, !concat_app, !in_app_iff.
        repeat right. cbn [app fetched].
        apply (IH _ _ _ _ Dr); [exact H2|].
        apply admissibleb_spec. split; assumption.
    + assert (batch = []) as ->.
      { apply Z.ltb_ge in NE. destruct batch; [reflexivity|].
        cbn [length] in NE. lia. }
      rewrite (E eq_refl) in Hq. destruct Hq.
  - (* the page is in the batch *)
    assert (NE : 0 < Z.of_nat (length batch)).
    { destruct batch; [destruct Hb|]. cbn [length]. lia. }
    assert (NE' := NE). apply Z.ltb_lt in NE'. rewrite NE' in H.
    assert (R : exists tail,
               effs = effs1 ++ generateBatchSummaries c server batch ++ tail).
    { destruct (0 <? Z.of_nat (length (push_all q1 (hd [] arrivals))));
        match type of H with
        | match ?d with _ => _ end = _ =>
            destruct d as [[q' rest]|]; [|discriminate]
        end; inversion H; subst; eexists; reflexivity. }
    destruct R as (tail & ->).
    rewrite !fetched_app, (fetched_batch c server batch tok I NE).
    rewrite !concat_app, !in_app_iff. right; left.
    cbn [concat]. rewrite app_nil_r. exact Hb.
Qed.

Lemma paced_summaries (effs rest : list Effect) (sent : bool) :
  Forall is_summary effs -> paced sent (effs ++ rest) = paced sent rest.
Proof.
  induction 1 as [|[] effs H _ IH]; simpl; auto; destruct H.
Qed.

Lemma paced_later (pages : list Page) (effs rest : list Effect)
    (sent : bool) :
  Forall (later_summary_for pages) effs ->
  paced sent (effs ++ rest) = paced sent rest.
Proof.
  induction 1 as [|[] effs H _ IH]; simpl; auto; destruct H.
Qed.

Lemma paced_batch (c : Closure) (server : Server) (batch : list Page)
    (tokens : Z) (rest : list Effect) :
  batch_inv c batch tokens -> 0 < Z.of_nat (length batch) ->
  paced false (generateBatchSummaries c server batch ++ rest)
  = paced true rest.
Proof.
  intros I NE.
  pose proof (fetched_batch c server batch tokens I NE) as F.
  destruct (generateBatchSummaries_shape c server batch)
    as [[_ E]|(sets & after & E & S & L & _)]; rewrite E in *;
    [discriminate|].
  cbn [app paced negb andb]. rewrite <- app_assoc.
  rewrite (paced_summaries _ _ _ (summary_for_is_summary _ _ S)).
  cbn [app paced]. apply (paced_later _ _ _ _ L).
Qed.

Lemma drain_paced (c : Closure) (server : Server) (fuel : nat) :
  forall arrivals queue q effs,
    drain fuel c server arrivals queue = Some (q, effs) ->
    paced false effs = true.
Proof.
  induction fuel as [|fuel IH]; intros arrivals queue q effs H;
    [discriminate|].
  cbn [drain] in H.
  destruct queue as [|x xs]; [inversion H; reflexivity|].
  destruct (build_batch c (x :: xs) [] 0) as [[[batch tok] q1] effs1] eqn:B.
  destruct (build_batch_spec c _ _ _ _ _ _ _ B (batch_inv_nil c))
    as (I & _ & _ & E & S & _).
  destruct (0 <? Z.of_nat (length batch)) eqn:NE.
  - apply Z.ltb_lt in NE.
    set (queue2 := push_all q1 (hd [] arrivals)) in *.
    destruct (0 <? Z.of_nat (length queue2)) eqn:L2.
    + destruct (drain fuel c server (tl (tl arrivals))
                  (push_all queue2 (hd [] (tl arrivals))))
        as [[q' rest]|] eqn:Dr; [|discriminate].
      inversion H; subst.
      rewrite (paced_summaries _ _ _ S), (paced_batch c server batch tok _ I NE).
      cbn [app paced]. simpl. apply (IH _ _ _ _ Dr).
    + destruct (drain fuel c server (tl arrivals) queue2)
        as [[q' rest]|] eqn:Dr; [|discriminate].
      inversion H; subst.
      rewrite (paced_summaries _ _ _ S), (paced_batch c server batch tok _ I NE).
      cbn [app].
      assert (queue2 = []) as Q2.
      { apply Z.ltb_ge in L2. destruct queue2; [reflexivity|].
        cbn [length] in L2. lia. }
      rewrite Q2 in Dr. destruct fuel; [discriminate|].
      inversion Dr; subst. reflexivity.
  - destruct (drain fuel c server arrivals q1) as [[q' rest]|] eqn:Dr;
      [|discriminate].
    inversion H; subst.
    rewrite (paced_summaries _ _ _ S). apply (IH _ _ _ _ Dr).
Qed.

Lemma push_summary_NoDup (q : list Page) (k : QueueCall) :
  List.NoDup (map pageNum q) -> List.NoDup (map pageNum (push_summary q k)).
Proof.
  unfold push_summary, rejects. intro H.
  destruct (already_done (call_closure k) (pageNum (call_page k)));
    [exact H|].
  cbn [orb].
  destruct (existsb (fun item => pageNum item =? pageNum (call_page k)) q)
    eqn:X; [exact H|].
  rewrite map_app. cbn [map].
  apply List.NoDup_app; [exact H| |].
  - constructor; [intros []|constructor].
  - intros n Hn [<-|[]].
    apply in_map_iff in Hn. destruct Hn as (item & En & Hi).
    assert (existsb (fun item => pageNum item =? pageNum (call_page k)) q
            = true).
    { apply existsb_exists. exists item. split; [exact Hi|].
      apply Z.eqb_eq. exact En. }
    congruence.
Qed.

End AssemblerFacts.


(** X14: when no page is queued while it runs, [processSummaryQueue]
    sends the pages of the queue that are neither short nor generating
    or cached, each once for each time it is queued, in the order of the
    queue: the requests put end to end are the queue without the other
    pages.  It leaves the queue empty. *)
Theorem X14_requests_in_order (c : Reader.Closure) (server : Reader.Server)
    (refs : Reader.Refs) :
  Reader.isProcessingQueueRef refs = false ->
  exists effs,
    Reader.processSummaryQueue c server [] refs
    = Some ({| Reader.summaryQueueRef := [];
               Reader.isProcessingQueueRef := false |}, effs)
    /\ concat (Reader.fetched effs)
       = List.filter (admissibleb c) (Reader.summaryQueueRef refs).
Proof.
  intro Hidle.
  destruct (processSummaryQueue_cases c server [] refs)
    as [[E [H|H]]|(_ & fuel & effs & D & E)].
  - congruence.
  - exists []. destruct refs as [queue busy]. simpl in *. subst.
    split; [exact E|reflexivity].
  - exists effs. split; [exact E|].
    apply (drain_order c server fuel _ _ _ D).
Qed.

Lemma X14_requests_in_order_witness :
  exists effs,
    Reader.processSummaryQueue Examples.fresh Examples.failing_server []
      (Examples.idle [Examples.tiny_page; Examples.prose_page;
                      Examples.more_prose_page])
    = Some (Examples.idle [], effs)
    /\ concat (Reader.fetched effs)
       = [Examples.prose_page; Examples.more_prose_page].
Proof.
  destruct (X14_requests_in_order Examples.fresh Examples.failing_server
              (Examples.idle [Examples.tiny_page; Examples.prose_page;
                              Examples.more_prose_page]) eq_refl)
    as (effs & E & F).
  exists effs. split; [exact E|]. rewrite F. vm_compute. reflexivity.
Defined.

(** X15: whatever is queued while [processSummaryQueue] runs, no page
    of the queue it starts with is lost: a page that is not short and
    not generating or cached is part of a request. *)
Theorem X15_no_page_lost (c : Reader.Closure) (server : Reader.Server)
    (arrivals : list (list Reader.QueueCall)) (refs : Reader.Refs)
    (p : Reader.Page) :
  Reader.isProcessingQueueRef refs = false ->
  In p (Reader.summaryQueueRef refs) ->
  admissible c p ->
  exists refs' effs,
    Reader.processSummaryQueue c server arrivals refs = Some (refs', effs)
    /\ exists batch, In batch (Reader.fetched effs) /\ In p batch.
Proof.
  intros Hidle Hp Ha.
  destruct (processSummaryQueue_cases c server arrivals refs)
    as [[E [H|H]]|(_ & fuel & effs & D & E)].
  - congruence.
  - rewrite H in Hp. destruct Hp.
  - eexists _, effs. split; [exact E|].
    apply in_concat.
    apply (drain_complete c server fuel _ _ _ _ D p Hp).
    apply admissibleb_spec. exact Ha.
Qed.

Lemma X15_no_page_lost_witness :
  exists refs' effs,
    Reader.processSummaryQueue Examples.fresh Examples.failing_server
      [[{| Reader.call_closure := Examples.fresh;
           Reader.call_page := Examples.more_prose_page |}]]
      (Examples.idle [Examples.tiny_page; Examples.prose_page])
    = Some (refs', effs)
    /\ exists batch, In batch (Reader.fetched effs)
                     /\ In Examples.prose_page batch.
Proof.
  apply (X15_no_page_lost Examples.fresh Examples.failing_server _
           (Examples.idle [Examples.tiny_page; Examples.prose_page])
           Examples.prose_page eq_refl).
  - right. left. reflexivity.
  - split; vm_compute; reflexivity.
Defined.

(** X16: [processSummaryQueue] never sends two requests without the
    two-second wait between them. *)
Theorem X16_requests_paced (c : Reader.Closure) (server : Reader.Server)
    (arrivals : list (list Reader.QueueCall)) (refs : Reader.Refs) :
  exists refs' effs,
    Reader.processSummaryQueue c server arrivals refs = Some (refs', effs)
    /\ paced false effs = true.
Proof.
  destruct (processSummaryQueue_cases c server arrivals refs)
    as [[E _]|(_ & fuel & effs & D & E)].
  - exists refs, []. split; [exact E|reflexivity].
  - eexists _, effs. split; [exact E|].
    apply (drain_paced c server fuel _ _ _ _ D).
Qed.

(** X17: [queueSummary] keeps the page numbers of the pending queue
    distinct.  A call made while the loop runs has no effect but to push
    its page, and it does not push a page whose number is queued. *)
Theorem X17_queue_distinct (server : Reader.Server)
    (arrivals : list (list Reader.QueueCall)) (refs : Reader.Refs)
    (k : Reader.QueueCall) :
  List.NoDup (map Reader.pageNum (Reader.summaryQueueRef refs)) ->
  exists refs' effs,
    Reader.queueSummary server arrivals refs k = Some (refs', effs)
    /\ List.NoDup (map Reader.pageNum (Reader.summaryQueueRef refs'))
    /\ (Reader.isProcessingQueueRef refs = true ->
        effs = []
        /\ Reader.summaryQueueRef refs'
           = Reader.push_summary (Reader.summaryQueueRef refs) k).
Proof.
  intro H.
  pose proof (push_summary_NoDup (Reader.summaryQueueRef refs) k H) as P.
  unfold Reader.queueSummary, Reader.push_summary in *.
  destruct (Reader.rejects (Reader.summaryQueueRef refs) k).
  - exists refs, []. auto.
  - match goal with
    | |- context [Reader.processSummaryQueue ?c ?s ?a ?r] =>
        destruct (processSummaryQueue_cases c s a r)
          as [[E _]|(Hidle & fuel & effs & D & E)]; rewrite E
    end.
    + eexists _, []. split; [reflexivity|]. split; [exact P|]. auto.
    + eexists _, effs. split; [reflexivity|]. split; [constructor|].
      simpl in Hidle. congruence.
Qed.

Lemma X17_queue_distinct_witness :
  exists refs' effs,
    Reader.queueSummary Examples.failing_server []
      {| Reader.summaryQueueRef := [Examples.prose_page];
         Reader.isProcessingQueueRef := true |}
      {| Reader.call_closure := Examples.fresh;
         Reader.call_page := Examples.prose_page |}
    = Some (refs', effs)
    /\ List.NoDup (map Reader.pageNum (Reader.summaryQueueRef refs')).
Proof.
  destruct (X17_queue_distinct Examples.failing_server []
              {| Reader.summaryQueueRef := [Examples.prose_page];
                 Reader.isProcessingQueueRef := true |}
              {| Reader.call_closure := Examples.fresh;
                 Reader.call_page := Examples.prose_page |})
    as (refs' & effs & E & N & _).
  - simpl. constructor; [intros []|constructor].
  - exists refs', effs. split; assumption.
Defined.

Section Fences.

Import Reader.

Lemma trimStart_keeps (c : N) (s : jsstring) :
  is_ws c = false -> trimStart (c :: s) = c :: s.
Proof. intro H. simpl. rewrite H. reflexivity. Qed.

(** A text between two back quotes is not changed by [trim]. *)
Lemma trim_quoted (s : jsstring) :
  trim (96%N :: s ++ [96%N]) = 96%N :: s ++ [96%N].
Proof.
  assert (R : rev (96%N :: s ++ [96%N]) = 96%N :: rev (96%N :: s)).
  { change (96%N :: s ++ [96%N]) with ((96%N :: s) ++ [96%N]).
    rewrite rev_app_distr. reflexivity. }
  unfold trim, trimEnd.
  rewrite trimStart_keeps by reflexivity.
  rewrite R, trimStart_keeps by reflexivity.
  rewrite <- R. apply rev_involutive.
Qed.

Lemma strip_close_fence (body : jsstring) :
  strip_close (body ++ 10%N :: js "```") = body.
Proof.
  unfold strip_close, endsWith.
  change (js "```") with [96%N; 96%N; 96%N].
  rewrite rev_app_distr. cbn [rev app startsWith code_eqb].
  replace (length (body ++ [10%N; 96%N; 96%N; 96%N]) - 4)%nat
    with (length body) by (rewrite length_app; simpl; lia).
  cbn. rewrite take_app_length. reflexivity.
Qed.

Lemma strip_fences_fenced (body : jsstring) :
  strip_fences (fenced "```json" body) = body
  /\ strip_fences (fenced "```" body) = body.
Proof.
  pose proof (strip_close_fence body) as C.
  change (js "```") with [96%N; 96%N; 96%N] in C.
  unfold strip_fences, fenced.
  change (js "```json") with [96%N; 96%N; 96%N; 106%N; 115%N; 111%N; 110%N].
  change (js "```") with [96%N; 96%N; 96%N].
  split.
  - replace ([96%N; 96%N; 96%N; 106%N; 115%N; 111%N; 110%N]
             ++ 10%N :: body ++ [10%N; 96%N; 96%N; 96%N])
      with (96%N :: ([96%N; 96%N; 106%N; 115%N; 111%N; 110%N; 10%N]
                     ++ body ++ [10%N; 96%N; 96%N]) ++ [96%N])
      by (cbn [app]; rewrite <- !app_assoc; reflexivity).
    rewrite trim_quoted.
    cbn [app startsWith code_eqb andb]. cbn.
    unfold strip_open. cbn [length drop app].
    rewrite <- app_assoc. exact C.
  - replace ([96%N; 96%N; 96%N]
             ++ 10%N :: body ++ [10%N; 96%N; 96%N; 96%N])
      with (96%N :: ([96%N; 96%N; 10%N]
                     ++ body ++ [10%N; 96%N; 96%N]) ++ [96%N])
      by (cbn [app]; rewrite <- !app_assoc; reflexivity).
    rewrite trim_quoted.
    cbn [app startsWith code_eqb andb]. cbn.
    unfold strip_open. cbn [length drop app].
    rewrite <- app_assoc. exact C.
Qed.

End Fences.

(** X18: the fence stripping of the batch assembler gives back the
    text of a Markdown code block, opened with or without the [json]
    tag, whatever the text is. *)
Theorem X18_fences_stripped (body : jsstring) :
  Reader.strip_fences (fenced "```json" body) = body
  /\ Reader.strip_fences (fenced "```" body) = body.
Proof. apply strip_fences_fenced. Qed.

(* ================================================================== *)
(** * The calls of the explain endpoint *)
(* ================================================================== *)

Section EndpointCalls.

Variable env : Env.
Variable up : Upstream.
Variable o : StreamOptions.

Lemma try_fallbacks_client (ps : list Provider) (c : ApiCall) :
  In (AInvoke c) (snd (try_fallbacks env up o (final_messages o) ps)) ->
  has_client (call_provider c) = true.
Proof.
  induction ps as [|p ps IH]; [intros []|].
  rewrite try_fallbacks_cons.
  destruct (usable env p) eqn:U.
  - apply andb_true_iff in U. destruct U as [_ U].
    destruct (up (fallback_call env o (final_messages o) p)).
    + destruct (try_fallbacks env up o (final_messages o) ps) as [r l].
      simpl in *. intros [H|[H|H]]; [discriminate| |auto].
      inversion H. exact U.
    + simpl. intros [H|[H|[]]]; [discriminate|].
      inversion H. exact U.
  - destruct (try_fallbacks env up o (final_messages o) ps) as [r l].
    simpl in *. intros [H|H]; [discriminate|auto].
Qed.

(** A call of [streamFromProvider] is the call of the selected
    provider or the call of a fallback that has a client. *)
Lemma streamFromProvider_call (c : ApiCall) :
  In (AInvoke c) (snd (streamFromProvider env up o)) ->
  primary_call env o (final_messages o) = Return c
  \/ (c = fallback_call env o (final_messages o) (call_provider c)
      /\ has_client (call_provider c) = true).
Proof.
  assert (P : In (AInvoke c) (snd (primary_attempt env up o)) ->
              primary_call env o (final_messages o) = Return c).
  { unfold primary_attempt.
    destruct (primary_call env o (final_messages o)) as [c0|e];
      [|intros []].
    destruct (up c0); simpl; intros [H|[]]; inversion H; reflexivity. }
  destruct (streamFromProvider_log env up o) as [E|E]; rewrite E.
  - left. auto.
  - rewrite in_app_iff. intros [H|H]; [left; auto|right].
    split; [eapply try_fallbacks_calls|eapply try_fallbacks_client];
      exact H.
Qed.

End EndpointCalls.

(** The selections of the router and of the endpoint's missing-key path
    name, for each provider, the same model, and the base URL the
    adapter has for that provider. *)
Lemma selection_consistent (sel : ModelSelection) :
  (exists input, sel = selectModel input)
  \/ (exists q, sel = Explain.fallback_selection q) ->
  modelId sel = modelId (Explain.fallback_selection (provider sel))
  /\ url_or (baseUrl sel) (default_baseURL (provider sel))
     = default_baseURL (provider sel).
Proof.
  intros [[input ->]|[q ->]].
  - unfold selectModel.
    repeat match goal with
           | |- context [if ?b then _ else _] => destruct b
           end; split; reflexivity.
  - destruct q; split; reflexivity.
Qed.

Lemma fallback_model_consistent (p : Provider) :
  has_client p = true ->
  fallback_model p = modelId (Explain.fallback_selection p).
Proof. destruct p; simpl; intro H; reflexivity || discriminate. Qed.

Lemma primary_call_fields (env : Env) (o : StreamOptions)
    (messages : list Message) (c : ApiCall) :
  primary_call env o messages = Return c ->
  call_provider c = provider (model o)
  /\ call_baseURL c
     = url_or (baseUrl (model o)) (default_baseURL (provider (model o)))
  /\ call_apiKey c = env !! required (provider (model o))
  /\ call_model c = modelId (model o)
  /\ call_messages c = messages
  /\ call_max_tokens c
     = num_or (maxTokens o) (default_max_tokens (provider (model o))).
Proof.
  unfold primary_call.
  destruct (provider (model o)); try discriminate; cbn [required];
    (match goal with |- context [env !! ?k] =>
       destruct (env !! k) eqn:K end; [|discriminate]);
    intro E; inversion E; subst c; cbn; rewrite ?K; repeat split.
Qed.

(** X19: each call the explain endpoint makes, to the selected provider
    or to a fallback, is made for a request whose body is a JSON value
    with a non-empty string [term]; it goes to the base URL of the
    provider called, with that provider's key from the environment, the
    one model the code names for that provider, a limit of 50 tokens, and
    two messages: the endpoint's system prompt, and the prompt the
    endpoint builds from the [term] and the [context] of that request. *)
Theorem X19_explain_call_parameters (env : Env) (up : Upstream)
    (parsed : thrown json) (c : ApiCall) :
  In (AInvoke c) (snd (Explain.POST env up parsed)) ->
  exists v t,
    parsed = Return v
    /\ Explain.field v "term" = Some (JStr t)
    /\ t <> []
    /\ call_baseURL c = default_baseURL (call_provider c)
    /\ call_apiKey c = env !! required (call_provider c)
    /\ call_model c = modelId (Explain.fallback_selection (call_provider c))
    /\ call_max_tokens c = 50
    /\ call_messages c
       = [{| role := "system"; content := Explain.EXPLAIN_SYSTEM_PROMPT |};
          {| role := "user";
             content := Explain.build_prompt t
                          (Explain.field v "context") |}].
Proof.
  unfold Explain.POST.
  destruct parsed as [v|e]; [|intros []].
  destruct (Explain.is_null v); [intros []|].
  destruct (term_cases (Explain.field v "term")) as [D|(t & E & Ht)].
  { rewrite (handle_term_required env up _ _ _ D). intros []. }
  rewrite E. intro I. exists v, t.
  split; [reflexivity|]. split; [exact E|]. split; [exact Ht|].
  revert I.
  destruct (handle_with_term env up t (Explain.field v "taskType")
              (Explain.field v "context") Ht)
    as (checks & Hc & [H|(sel & K & W & H)]); rewrite H; cbn [snd].
  { intros [I|[I|I]]; try discriminate. exfalso.
    apply invoked_In in I. rewrite Hc in I. exact I. }
  intros [I|[I|I]]; try discriminate.
  apply in_app_iff in I. destruct I as [I|I].
  { exfalso. apply invoked_In in I. rewrite Hc in I. exact I. }
  assert (Wf : modelId sel = modelId (Explain.fallback_selection (provider sel))
               /\ url_or (baseUrl sel) (default_baseURL (provider sel))
                  = default_baseURL (provider sel)).
  { apply selection_consistent. destruct W as [->|[q ->]]; eauto. }
  destruct Wf as [Wm Wu].
  assert (M : final_messages (explain_options t (Explain.field v "context") sel)
              = [{| role := "system";
                    content := Explain.EXPLAIN_SYSTEM_PROMPT |};
                 {| role := "user";
                    content := Explain.build_prompt t
                                 (Explain.field v "context") |}])
    by reflexivity.
  destruct (streamFromProvider_call _ _ _ _ I) as [P|[P C]].
  - apply primary_call_fields in P.
    cbn [explain_options model maxTokens num_or] in P.
    destruct P as (Pp & Pu & Pk & Pm & Pmsg & Pt).
    rewrite Pp, Pu, Pk, Pm, Pmsg, Pt, Wu, Wm, M. repeat split.
  - rewrite P.
    cbn [fallback_call call_baseURL call_apiKey call_model call_max_tokens
         call_messages call_provider explain_options maxTokens num_or].
    rewrite M, (fallback_model_consistent _ C). repeat split.
Qed.

Lemma X19_explain_call_parameters_witness :
  exists c,
    In (AInvoke c)
       (snd (Explain.POST Examples.groq_github_env Examples.only_groq_up
               (Return Examples.explain_entropy)))
    /\ call_baseURL c = "https://api.groq.com/openai/v1"
    /\ call_max_tokens c = 50
    /\ call_messages c
       = [{| role := "system"; content := Explain.EXPLAIN_SYSTEM_PROMPT |};
          {| role := "user"; content := plain_prompt (js "entropy") |}].
Proof.
  eexists. split.
  - vm_compute. right. right. left. reflexivity.
  - match goal with
    | |- call_baseURL ?c = _ /\ _ =>
        destruct (X19_explain_call_parameters Examples.groq_github_env
                    Examples.only_groq_up (Return Examples.explain_entropy) c)
          as (v & t & Ev & Et & _ & U & _ & _ & T & M)
    end.
    + vm_compute. right. right. left. reflexivity.
    + inversion Ev; subst v.
      assert (Ht : t = js "entropy")
        by (vm_compute in Et; inversion Et; reflexivity).
      subst t.
      split; [exact U|]. split; [exact T|]. exact M.
Defined.

(* ================================================================== *)
(** * The PDF loader *)
(* ================================================================== *)

Section Trimming.

Lemma trimStart_suffix (s : jsstring) : exists a, s = a ++ trimStart s.
Proof.
  induction s as [|c s [a IH]]; [exists []; reflexivity|].
  simpl. destruct (is_ws c).
  - exists (c :: a). simpl. f_equal. exact IH.
  - exists []. reflexivity.
Qed.

Lemma trimStart_head (s : jsstring) : head_non_ws (trimStart s) = true.
Proof.
  induction s as [|c s IH]; [reflexivity|].
  simpl. destruct (is_ws c) eqn:W; [exact IH|]. simpl. rewrite W. reflexivity.
Qed.

Lemma trimStart_fixed (s : jsstring) :
  head_non_ws s = true -> trimStart s = s.
Proof.
  destruct s as [|c s]; [reflexivity|]. simpl.
  destruct (is_ws c); [discriminate|reflexivity].
Qed.

Lemma trimStart_snoc (l : jsstring) (c : N) :
  is_ws c = false -> trimStart (l ++ [c]) = trimStart l ++ [c].
Proof.
  intro W. induction l as [|d l IH]; simpl.
  - rewrite W. reflexivity.
  - destruct (is_ws d); [exact IH|reflexivity].
Qed.

Lemma trimEnd_cons (c : N) (s : jsstring) :
  is_ws c = false -> trimEnd (c :: s) = c :: trimEnd s.
Proof.
  intro W. unfold trimEnd. cbn [rev].
  rewrite (trimStart_snoc _ _ W), rev_app_distr. reflexivity.
Qed.

Lemma trimEnd_prefix (s : jsstring) : exists b, s = trimEnd s ++ b.
Proof.
  unfold trimEnd. destruct (trimStart_suffix (rev s)) as [a E].
  exists (rev a). rewrite <- rev_app_distr, <- E, rev_involutive.
  reflexivity.
Qed.

Lemma trimEnd_idem (s : jsstring) : trimEnd (trimEnd s) = trimEnd s.
Proof.
  unfold trimEnd. rewrite rev_involutive.
  rewrite (trimStart_fixed _ (trimStart_head (rev s))). reflexivity.
Qed.

Lemma trim_head (s : jsstring) : head_non_ws (trim s) = true.
Proof.
  unfold trim. pose proof (trimStart_head s) as H.
  destruct (trimStart s) as [|c u]; [reflexivity|].
  simpl in H. apply negb_true_iff in H.
  rewrite (trimEnd_cons _ _ H). simpl. rewrite H. reflexivity.
Qed.

(** [trim] changes nothing in a text it has trimmed. *)
Lemma trim_idem (s : jsstring) : trim (trim s) = trim s.
Proof.
  unfold trim at 1. rewrite (trimStart_fixed _ (trim_head s)).
  unfold trim. apply trimEnd_idem.
Qed.

(** [trim] keeps a segment of the text. *)
Lemma trim_segment (s : jsstring) : exists a b, s = a ++ trim s ++ b.
Proof.
  destruct (trimStart_suffix s) as [a Ea].
  destruct (trimEnd_prefix (trimStart s)) as [b Eb].
  exists a, b. unfold trim. rewrite <- Eb. exact Ea.
Qed.

Lemma single_spaced_app_r (a b : jsstring) :
  single_spaced (a ++ b) = true -> single_spaced b = true.
Proof.
  induction a as [|c a IH]; [auto|]. cbn [app single_spaced].
  intro H. apply andb_true_iff in H. apply IH, H.
Qed.

Lemma single_spaced_app_l (a b : jsstring) :
  single_spaced (a ++ b) = true -> single_spaced a = true.
Proof.
  induction a as [|c a IH]; [auto|]. cbn [app single_spaced].
  intro H. apply andb_true_iff in H. destruct H as [H1 H2].
  rewrite (IH H2), andb_true_r.
  destruct (negb (is_ws c)); [reflexivity|]. cbn [orb] in *.
  apply andb_true_iff in H1. destruct H1 as [H1 H3]. rewrite H1. cbn [andb].
  destruct a as [|d a]; [reflexivity|exact H3].
Qed.

Lemma collapse_ws_spaced (s : jsstring) :
  forall in_run,
    single_spaced (PdfLoader.collapse_ws in_run s) = true
    /\ (in_run = true ->
        head_non_ws (PdfLoader.collapse_ws in_run s) = true).
Proof.
  induction s as [|c s IH]; intro in_run; [split; reflexivity|].
  cbn [PdfLoader.collapse_ws].
  destruct (is_ws c) eqn:W.
  - destruct in_run.
    + apply IH.
    + destruct (IH true) as [S H]. split; [|discriminate].
      cbn [single_spaced]. rewrite S, andb_true_r.
      apply orb_true_iff. right. cbn [N.eqb Pos.eqb andb].
      specialize (H eq_refl).
      destruct (PdfLoader.collapse_ws true s); [reflexivity|exact H].
  - destruct (IH false) as [S _]. split.
    + cbn [single_spaced]. rewrite W, S. reflexivity.
    + intros _. simpl. rewrite W. reflexivity.
Qed.

(** The normal form of the text of a page. *)
Lemma items_text_normal (items : list (option jsstring)) :
  trim (PdfLoader.items_text items) = PdfLoader.items_text items
  /\ single_spaced (PdfLoader.items_text items) = true.
Proof.
  unfold PdfLoader.items_text. split; [apply trim_idem|].
  set (r := PdfLoader.collapse_ws false _).
  destruct (trim_segment r) as (a & b & E).
  assert (S : single_spaced r = true) by apply collapse_ws_spaced.
  rewrite E in S.
  apply single_spaced_app_r in S. apply single_spaced_app_l in S. exact S.
Qed.

Lemma is_short_trimmed (t : jsstring) :
  trim t = t -> Reader.is_short t = (strlen t <? 10).
Proof.
  intro E. unfold Reader.is_short. rewrite E.
  destruct t; reflexivity.
Qed.

End Trimming.

Section Registry.

Import PdfLoader.

Lemma getPageText_lookup (reg : Registry) (id : jsstring) (n : Z) :
  getPageText reg id n
  = match reg !! id with
    | Some doc =>
        if (1 <=? n) && (n <=? numPages doc)
        then Return (items_text (textItems doc n))
        else Throw (OUT_OF_RANGE n)
    | None => Throw (NOT_LOADED id)
    end.
Proof.
  unfold getPageText, getPage, getPdfOrThrow.
  destruct (reg !! id) as [doc|]; [|reflexivity].
  destruct (n <? 1) eqn:A; destruct (numPages doc <? n) eqn:B;
    destruct (1 <=? n) eqn:C; destruct (n <=? numPages doc) eqn:D;
    try reflexivity; exfalso;
    repeat match goal with
           | H : (_ <? _) = true |- _ => apply Z.ltb_lt in H
           | H : (_ <? _) = false |- _ => apply Z.ltb_ge in H
           | H : (_ <=? _) = true |- _ => apply Z.leb_le in H
           | H : (_ <=? _) = false |- _ => apply Z.leb_gt in H
           end; lia.
Qed.

Lemma releasePdf_delete (reg : Registry) (id : jsstring) :
  releasePdf reg id = delete id reg.
Proof.
  unfold releasePdf. destruct (reg !! id) eqn:E; [reflexivity|].
  symmetry. apply delete_id. exact E.
Qed.

End Registry.

(** X20: a document put into the registry under an id can be read
    under that id, page by page, for the pages from 1 to its page count,
    and a page number outside them is refused as out of range.  Once
    the id is released, reading under it is refused as not loaded.
    Loading and releasing an id change nothing for another id, and a
    load that fails changes nothing at all. *)
Theorem X20_registry (reg : PdfLoader.Registry) (doc : PdfLoader.Doc)
    (id other e : jsstring) (n : Z) :
  other <> id ->
  let loaded :=
    fst (PdfLoader.loadPdfFromArrayBuffer reg (Return doc) id) in
  let released := PdfLoader.releasePdf loaded id in
  PdfLoader.getPageText loaded id n
  = (if (1 <=? n) && (n <=? PdfLoader.numPages doc)
     then Return (PdfLoader.items_text (PdfLoader.textItems doc n))
     else Throw (PdfLoader.OUT_OF_RANGE n))
  /\ PdfLoader.isPdfLoaded loaded id = true
  /\ PdfLoader.getPageText released id n = Throw (PdfLoader.NOT_LOADED id)
  /\ PdfLoader.isPdfLoaded released id = false
  /\ PdfLoader.getPageText loaded other n
     = PdfLoader.getPageText reg other n
  /\ PdfLoader.getPageText released other n
     = PdfLoader.getPageText reg other n
  /\ fst (PdfLoader.loadPdfFromArrayBuffer reg (Throw e) id) = reg.
Proof.
  intro Hne. cbv zeta. cbn [PdfLoader.loadPdfFromArrayBuffer fst].
  rewrite releasePdf_delete, !getPageText_lookup.
  unfold PdfLoader.isPdfLoaded, PdfLoader.Registry, jsstring in *.
  rewrite lookup_insert_eq, lookup_delete_eq.
  rewrite (lookup_delete_ne _ id other) by congruence.
  rewrite (lookup_insert_ne _ id other) by congruence.
  repeat split; reflexivity.
Qed.

Lemma X20_registry_witness :
  PdfLoader.getPageText
    (fst (PdfLoader.loadPdfFromArrayBuffer ∅ (Return Examples.two_page_doc)
            (js "doc-1")))
    (js "doc-1") 3
  = Throw (js "Page 3 is out of range.").
Proof.
  destruct (X20_registry ∅ Examples.two_page_doc (js "doc-1") (js "doc-2")
              (js "") 3) as (E & _).
  - vm_compute. discriminate.
  - rewrite E. reflexivity.
Defined.

(** X21: the text [getPageText] returns for a page is in normal form:
    it has no white space at either end, and its only white space is
    single spaces between other characters.  The batch assembler's test
    for a short page is therefore a plain length test on it. *)
Theorem X21_page_text_normal (reg : PdfLoader.Registry) (id : jsstring)
    (n : Z) (t : jsstring) :
  PdfLoader.getPageText reg id n = Return t ->
  trim t = t
  /\ single_spaced t = true
  /\ Reader.is_short t = (strlen t <? 10).
Proof.
  unfold PdfLoader.getPageText.
  destruct (PdfLoader.getPage reg id n) as [items|e]; [|discriminate].
  intro H. inversion H; subst.
  destruct (items_text_normal items) as [T S].
  split; [exact T|]. split; [exact S|].
  apply is_short_trimmed. exact T.
Qed.

Lemma X21_page_text_normal_witness :
  PdfLoader.getPageText
    (fst (PdfLoader.loadPdfFromArrayBuffer ∅ (Return Examples.two_page_doc)
            (js "doc-1")))
    (js "doc-1") 1
  = Return (js "Entropy is a measure.")
  /\ single_spaced (js "Entropy is a measure.") = true.
Proof.
  assert (E : PdfLoader.getPageText
                (fst (PdfLoader.loadPdfFromArrayBuffer ∅
                        (Return Examples.two_page_doc) (js "doc-1")))
                (js "doc-1") 1
              = Return (js "Entropy is a measure."))
    by (vm_compute; reflexivity).
  split; [exact E|].
  apply (X21_page_text_normal _ _ _ _ E).
Defined.

(* ================================================================== *)
(** * The page controls of the PDF reader *)
(* ================================================================== *)

Section PageNumbers.

Import Pages.

Lemma js_string_of_uint (u : Decimal.uint) :
  js (NilEmpty.string_of_uint u) = uint_codes u.
Proof.
  unfold js. induction u; cbn [NilEmpty.string_of_uint uint_codes];
    [reflexivity|..];
    cbn [String.list_ascii_of_string map]; rewrite IHu; reflexivity.
Qed.

Lemma span_digits_codes (u : Decimal.uint) :
  span_digits (uint_codes u) = (uint_codes u, []).
Proof.
  induction u; cbn [uint_codes]; [reflexivity|..];
    cbn [span_digits]; rewrite IHu; reflexivity.
Qed.

Lemma digits_value_acc (u : Decimal.uint) :
  forall acc : positive,
    fold_left (fun acc c => 10 * acc + digit_value c) (uint_codes u)
      (Z.pos acc)
    = Z.pos (Pos.of_uint_acc u acc).
Proof.
  induction u; intro acc; cbn [uint_codes fold_left Pos.of_uint_acc];
    [reflexivity|..];
    rewrite <- IHu; f_equal; unfold digit_value; simpl Z.of_N; lia.
Qed.

Lemma digits_value_codes (u : Decimal.uint) :
  digits_value (uint_codes u) = Z.of_N (Pos.of_uint u).
Proof.
  unfold digits_value.
  induction u; cbn [uint_codes fold_left Pos.of_uint Z.of_N];
    [reflexivity|exact IHu|..];
    rewrite <- digits_value_acc; f_equal.
Qed.

Lemma parseInt_codes (u : Decimal.uint) :
  u <> Decimal.Nil ->
  parseInt (uint_codes u) = Some (Z.of_N (Pos.of_uint u))
  /\ parseInt (45%N :: uint_codes u) = Some (- Z.of_N (Pos.of_uint u)).
Proof.
  intro Hu.
  pose proof (span_digits_codes u) as Sp.
  pose proof (digits_value_codes u) as V.
  destruct u; [congruence|..];
    (split;
     [ unfold parseInt; cbn [uint_codes trimStart] in *;
       match goal with
       | |- context [is_ws ?c] => change (is_ws c) with false
       end; cbv iota;
       match goal with
       | |- context [(?c =? 45)%N] => change (c =? 45)%N with false
       end;
       match goal with
       | |- context [(?c =? 43)%N] => change (c =? 43)%N with false
       end; cbv iota; rewrite Sp; cbn [fst]; rewrite V; reflexivity
     | unfold parseInt; cbn [uint_codes trimStart] in *;
       change (is_ws 45) with false; cbv iota;
       change (45 =? 45)%N with true; cbv iota;
       rewrite Sp; cbn [fst]; rewrite V; reflexivity ]).
Qed.

(** [parseInt] reads back the number [toString] has written. *)
Lemma parseInt_toString (n : Z) : parseInt (toString n) = Some n.
Proof.
  unfold toString. destruct n as [|p|p]; [reflexivity|..];
    cbn [Z.to_int NilEmpty.string_of_int].
  - rewrite js_string_of_uint.
    pose proof (DecimalPos.Unsigned.of_to p) as E.
    destruct (parseInt_codes (Pos.to_uint p)) as [H _].
    { intro N. rewrite N in E. discriminate. }
    rewrite H, E. reflexivity.
  - assert (J : forall s,
               js (String (Ascii.Ascii true false true true false true
                             false false) s)
               = 45%N :: js s) by reflexivity.
    rewrite J, js_string_of_uint.
    pose proof (DecimalPos.Unsigned.of_to p) as E.
    destruct (parseInt_codes (Pos.to_uint p)) as [_ H].
    { intro N. rewrite N in E. discriminate. }
    rewrite H, E. reflexivity.
Qed.

End PageNumbers.

(** X22: the page field reads back what the reader writes into it.
    For integers in the safe range, from [- MAX_SAFE_INTEGER] to
    [MAX_SAFE_INTEGER], [parseInt] of the text of an integer is that
    integer, so leaving the field with the text of a page number selects
    that page when it is a page of the document, and otherwise puts the
    text of the current page back. *)
Theorem X22_page_input_round_trip (n currentPage pdfPageCount : Z) :
  Z.abs n <= MAX_SAFE_INTEGER ->
  Z.abs currentPage <= MAX_SAFE_INTEGER ->
  Pages.parseInt (toString n) = Some n
  /\ Pages.handlePageInputBlur (toString n) currentPage pdfPageCount
     = if (1 <=? n) && (n <=? pdfPageCount)
       then [Pages.SetCurrentPage n]
       else [Pages.SetPageInputValue (toString currentPage)].
Proof.
  intros _ _. split; [apply parseInt_toString|].
  unfold Pages.handlePageInputBlur. rewrite parseInt_toString. reflexivity.
Qed.

Lemma X22_page_input_round_trip_witness :
  Pages.handlePageInputBlur (js "7") 3 10 = [Pages.SetCurrentPage 7]
  /\ Pages.handlePageInputBlur (js "12") 3 10
     = [Pages.SetPageInputValue (js "3")].
Proof.
  split.
  - apply (proj2 (X22_page_input_round_trip 7 3 10
                    ltac:(vm_compute; discriminate)
                    ltac:(vm_compute; discriminate))).
  - apply (proj2 (X22_page_input_round_trip 12 3 10
                    ltac:(vm_compute; discriminate)
                    ltac:(vm_compute; discriminate))).
Defined.

(** X23: the page controls never select a page outside the document.
    With the current page between 1 and the page count, and the page
    count a safe integer, the page that the previous button, the next
    button or the page field selects is between 1 and the page count,
    whatever the field holds; and leaving the field makes one call: it
    selects the page [parseInt] reads in the field if that is a page of
    the document, and otherwise resets the text to the current page. *)
Theorem X23_navigation_in_range (pageInputValue : jsstring)
    (currentPage pdfPageCount : Z) :
  1 <= currentPage <= pdfPageCount ->
  pdfPageCount <= MAX_SAFE_INTEGER ->
  (forall page,
     In (Pages.SetCurrentPage page)
        (Pages.handlePreviousPage currentPage
         ++ Pages.handleNextPage currentPage pdfPageCount
         ++ Pages.handlePageInputBlur pageInputValue currentPage
              pdfPageCount) ->
     1 <= page <= pdfPageCount)
  /\ ((exists page,
         Pages.parseInt pageInputValue = Some page
         /\ 1 <= page <= pdfPageCount
         /\ Pages.handlePageInputBlur pageInputValue currentPage pdfPageCount
            = [Pages.SetCurrentPage page])
      \/ ((forall page, Pages.parseInt pageInputValue = Some page ->
                        ~ 1 <= page <= pdfPageCount)
          /\ Pages.handlePageInputBlur pageInputValue currentPage
               pdfPageCount
             = [Pages.SetPageInputValue (toString currentPage)])).
Proof.
  intros Hc _. split.
  - intros page H.
    unfold Pages.handlePreviousPage, Pages.handleNextPage,
      Pages.handlePageInputBlur in H.
    rewrite !in_app_iff in H.
    destruct H as [H|[H|H]].
    + destruct (1 <? currentPage) eqn:E; [|destruct H].
      apply Z.ltb_lt in E. destruct H as [H|[]]. inversion H. lia.
    + destruct (currentPage <? pdfPageCount) eqn:E; [|destruct H].
      apply Z.ltb_lt in E. destruct H as [H|[]]. inversion H. lia.
    + destruct (Pages.parseInt pageInputValue) as [p|].
      * destruct ((1 <=? p) && (p <=? pdfPageCount)) eqn:E.
        -- apply andb_true_iff in E. destruct E as [E1 E2].
           apply Z.leb_le in E1, E2.
           destruct H as [H|[]]. inversion H. lia.
        -- destruct H as [H|[]]. discriminate.
      * destruct H as [H|[]]. discriminate.
  - unfold Pages.handlePageInputBlur.
    destruct (Pages.parseInt pageInputValue) as [p|].
    + destruct ((1 <=? p) && (p <=? pdfPageCount)) eqn:E.
      * apply andb_true_iff in E. destruct E as [E1 E2].
        apply Z.leb_le in E1, E2.
        left. exists p. split; [reflexivity|]. split; [lia|reflexivity].
      * right. split; [|reflexivity].
        intros page Hp. inversion Hp; subst.
        apply andb_false_iff in E.
        destruct E as [E|E]; apply Z.leb_gt in E; lia.
    + right. split; [intros page Hp; discriminate|reflexivity].
Qed.

Lemma X23_navigation_in_range_witness :
  Pages.handlePageInputBlur (js " 2nd") 3 5 = [Pages.SetCurrentPage 2]
  /\ Pages.handlePageInputBlur (js "9") 3 5
     = [Pages.SetPageInputValue (js "3")].
Proof.
  split.
  - destruct (proj2 (X23_navigation_in_range (js " 2nd") 3 5
                       ltac:(lia) ltac:(vm_compute; discriminate)))
      as [(page & Hp & _ & E)|[N _]].
    + vm_compute in Hp. inversion Hp; subst. exact E.
    + exfalso. apply (N 2); [vm_compute; reflexivity|lia].
  - destruct (proj2 (X23_navigation_in_range (js "9") 3 5
                       ltac:(lia) ltac:(vm_compute; discriminate)))
      as [(page & Hp & R & _)|[_ E]].
    + exfalso. vm_compute in Hp. inversion Hp; subst. lia.
    + exact E.
Defined.

Section PagesShown.

Import Pages.

Lemma seq_sorted (a n : nat) : StronglySorted lt (seq a n).
Proof.
  revert a. induction n as [|n IH]; intro a; simpl; constructor.
  - apply IH.
  - apply List.Forall_forall. intros x Hx. apply in_seq in Hx. lia.
Qed.

Lemma seqZ_sorted (m len : Z) : StronglySorted Z.lt (seqZ m len).
Proof.
  unfold seqZ.
  induction (seq_sorted 0 (Z.to_nat len)) as [|a l _ IH F];
    [constructor|].
  cbn [fmap list_fmap]. constructor; [exact IH|].
  apply List.Forall_forall. intros x Hx.
  apply in_map_iff in Hx. destruct Hx as (y & <- & Hy).
  rewrite List.Forall_forall in F. specialize (F y Hy). lia.
Qed.

Lemma filter_sorted (f : Z -> bool) (l : list Z) :
  StronglySorted Z.lt l -> StronglySorted Z.lt (List.filter f l).
Proof.
  induction 1 as [|a l _ IH F]; simpl; [constructor|].
  destruct (f a); [|exact IH].
  constructor; [exact IH|].
  apply List.Forall_forall. intros x Hx.
  apply List.filter_In in Hx. destruct Hx as [Hx _].
  rewrite List.Forall_forall in F. auto.
Qed.

Lemma in_seqZ (m len k : Z) : In k (seqZ m len) <-> m <= k < m + len.
Proof. rewrite <- elem_of_seqZ. symmetry. apply list_elem_of_In. Qed.

End PagesShown.

(** X24: the reader always has a page to show, and shows pages in
    order.  In paginated mode it shows the current page.  In continuous
    mode it shows the pages of the document whose text or image is
    cached, each once and in increasing order, and page 1 when none
    is. *)
Theorem X24_pages_to_render (mode : Pages.ScrollingMode)
    (currentPage pdfPageCount : Z)
    (pageTextCache pageImageCache : gmap Z jsstring) :
  let shown :=
    Pages.getPagesToRender mode currentPage pdfPageCount
      pageTextCache pageImageCache in
  shown <> []
  /\ StronglySorted Z.lt shown
  /\ match mode with
     | Pages.paginated => shown = [currentPage]
     | Pages.continuous =>
         (shown = [1]
          /\ forall i, 1 <= i <= pdfPageCount ->
               page_loaded pageTextCache pageImageCache i = false)
         \/ (forall i, In i shown <->
               1 <= i <= pdfPageCount
               /\ page_loaded pageTextCache pageImageCache i = true)
     end.
Proof.
  cbv zeta. destruct mode; cbn [Pages.getPagesToRender].
  - split; [discriminate|]. split; [repeat constructor|reflexivity].
  - fold (page_loaded pageTextCache pageImageCache).
    set (l := List.filter (page_loaded pageTextCache pageImageCache)
                (seqZ 1 pdfPageCount)).
    assert (M : forall i, In i l <->
                  1 <= i <= pdfPageCount
                  /\ page_loaded pageTextCache pageImageCache i = true).
    { intro i. unfold l. rewrite List.filter_In, in_seqZ.
      intuition lia. }
    destruct (0 <? Z.of_nat (length l)) eqn:E.
    + apply Z.ltb_lt in E. split.
      { intro N. rewrite N in E. simpl in E. lia. }
      split; [apply filter_sorted, seqZ_sorted|].
      right. exact M.
    + apply Z.ltb_ge in E.
      assert (N : l = []) by (destruct l; [reflexivity|simpl in E; lia]).
      split; [discriminate|]. split; [repeat constructor|].
      left. split; [reflexivity|].
      intros i Hi.
      destruct (page_loaded pageTextCache pageImageCache i) eqn:L;
        [|reflexivity].
      assert (I : In i l) by (apply M; auto).
      rewrite N in I. destruct I.
Qed.

(* ================================================================== *)
(** * The passage the widget sends with a term *)
(* ================================================================== *)

(** X25: the passage the widget takes around a selection has no white
    space at either end, and is empty when the text does not contain the
    selection.  The endpoint therefore builds its prompt from the passage
    exactly when the widget found one: the body carries no context for an
    empty passage, and for any other the endpoint's own test of the
    context succeeds. *)
Theorem X25_context_used (fullText selectedText : jsstring)
    (contextWords : nat) :
  let context :=
    Widget.getSurroundingContext fullText selectedText contextWords in
  trim context = context
  /\ (Widget.indexOf fullText selectedText = None -> context = [])
  /\ Explain.build_prompt selectedText
       (Explain.field (Widget.request_body selectedText context) "context")
     = if truthy_str context
       then passage_prompt selectedText context
       else plain_prompt selectedText.
Proof.
  cbv zeta.
  assert (T : trim (Widget.getSurroundingContext fullText selectedText
                      contextWords)
              = Widget.getSurroundingContext fullText selectedText
                  contextWords).
  { unfold Widget.getSurroundingContext.
    destruct (Widget.indexOf fullText selectedText); [|reflexivity].
    cbv zeta. apply trim_idem. }
  split; [exact T|]. split.
  - intro N. unfold Widget.getSurroundingContext. rewrite N. reflexivity.
  - destruct (Widget.getSurroundingContext fullText selectedText
                contextWords) as [|c ctx]; [reflexivity|].
    assert (F : Explain.field
                  (Widget.request_body selectedText (c :: ctx)) "context"
                = Some (JStr (c :: ctx))) by reflexivity.
    rewrite F. unfold Explain.build_prompt. rewrite T. reflexivity.
Qed.

(* ================================================================== *)
(** * Sanitized text *)
(* ================================================================== *)

Section Sanitize.

Import Utils.

Lemma collapse_newlines_In (s : jsstring) (x : N) :
  forall run, In x (collapse_newlines run s) -> In x s.
Proof.
  induction s as [|c s IH]; intros run; cbn [collapse_newlines]; [auto|].
  destruct (c =? 10)%N eqn:C.
  - apply N.eqb_eq in C. subst c.
    destruct (run <? 2)%nat; simpl; intros H.
    + destruct H as [H|H]; [left; exact H|right; eapply IH; exact H].
    + right. eapply IH; exact H.
  - simpl. intros [H|H]; [left; exact H|right; eapply IH; exact H].
Qed.

Lemma replace_cr_no_cr (s : jsstring) : ~ In 13%N (replace_cr s).
Proof.
  unfold replace_cr. intro H. apply in_map_iff in H.
  destruct H as (c & E & _).
  destruct (c =? 13)%N eqn:C; [discriminate|].
  apply N.eqb_neq in C. congruence.
Qed.

Lemma trim_In (s : jsstring) (x : N) : In x (trim s) -> In x s.
Proof.
  destruct (trim_segment s) as (a & b & E). intro H.
  rewrite E, !in_app_iff. right; left. exact H.
Qed.

Lemma replace_crlf_fixed (s : jsstring) :
  ~ In 13%N s -> replace_crlf s = s.
Proof.
  induction s as [|c s IH]; [reflexivity|]. intro H.
  assert (C : (c =? 13)%N = false).
  { apply N.eqb_neq. intro E. apply H. left. exact E. }
  assert (IH' : replace_crlf s = s) by (apply IH; intro I; apply H; right; exact I).
  cbn [replace_crlf]. destruct s as [|d s]; [reflexivity|].
  rewrite C. cbn [andb]. rewrite IH'. reflexivity.
Qed.

Lemma replace_cr_fixed (s : jsstring) :
  ~ In 13%N s -> replace_cr s = s.
Proof.
  unfold replace_cr. induction s as [|c s IH]; [reflexivity|]. intro H.
  cbn [map]. rewrite IH by (intro I; apply H; right; exact I).
  destruct (c =? 13)%N eqn:C; [|reflexivity].
  apply N.eqb_eq in C. exfalso. apply H. left. exact C.
Qed.

Lemma collapse_newlines_short (s : jsstring) :
  forall run, short_runs (Nat.min run 2) (collapse_newlines run s) = true.
Proof.
  induction s as [|c s IH]; intro run; cbn [collapse_newlines];
    [reflexivity|].
  destruct (c =? 10)%N eqn:C.
  - destruct (run <? 2)%nat eqn:R.
    + apply Nat.ltb_lt in R. cbn [short_runs]. rewrite N.eqb_refl.
      replace (Nat.min run 2) with run by lia.
      apply Nat.ltb_lt in R. rewrite R. cbn [andb].
      apply Nat.ltb_lt in R. specialize (IH (S run)).
      replace (Nat.min (S run) 2) with (S run) in IH by lia. exact IH.
    + apply Nat.ltb_ge in R. specialize (IH (S run)).
      replace (Nat.min (S run) 2) with (Nat.min run 2) in IH by lia.
      exact IH.
  - cbn [short_runs]. rewrite C. apply (IH O).
Qed.

Lemma short_runs_mono (s : jsstring) :
  forall run run', (run' <= run)%nat ->
    short_runs run s = true -> short_runs run' s = true.
Proof.
  induction s as [|c s IH]; intros run run' L; cbn [short_runs]; [auto|].
  destruct (c =? 10)%N; [|auto].
  intro H. apply andb_true_iff in H. destruct H as [H1 H2].
  apply Nat.ltb_lt in H1. apply andb_true_iff. split.
  - apply Nat.ltb_lt. lia.
  - apply (IH (S run)); [lia|exact H2].
Qed.

Lemma short_runs_app_r (a b : jsstring) :
  forall run, short_runs run (a ++ b) = true -> short_runs O b = true.
Proof.
  induction a as [|c a IH]; intros run; cbn [app short_runs].
  - apply short_runs_mono. lia.
  - destruct (c =? 10)%N; [|apply IH].
    intro H. apply andb_true_iff in H. eapply IH, H.
Qed.

Lemma short_runs_app_l (a b : jsstring) :
  forall run, short_runs run (a ++ b) = true -> short_runs run a = true.
Proof.
  induction a as [|c a IH]; intros run; cbn [app short_runs]; [auto|].
  destruct (c =? 10)%N; [|apply IH].
  intro H. apply andb_true_iff in H. destruct H as [H1 H2].
  rewrite H1. cbn [andb]. eapply IH, H2.
Qed.

Lemma collapse_newlines_fixed (s : jsstring) :
  forall run, short_runs run s = true -> collapse_newlines run s = s.
Proof.
  induction s as [|c s IH]; intros run; cbn [short_runs collapse_newlines];
    [reflexivity|].
  destruct (c =? 10)%N eqn:C.
  - intro H. apply andb_true_iff in H. destruct H as [H1 H2].
    rewrite H1, (IH _ H2). apply N.eqb_eq in C. subst c. reflexivity.
  - intro H. rewrite (IH _ H). reflexivity.
Qed.

(** The normal form [sanitizeText] gives a text. *)
Lemma sanitizeText_normal (text : jsstring) :
  ~ In 13%N (sanitizeText text)
  /\ short_runs O (sanitizeText text) = true
  /\ trim (sanitizeText text) = sanitizeText text.
Proof.
  unfold sanitizeText. split; [|split].
  - intro H. apply trim_In, collapse_newlines_In in H.
    exact (replace_cr_no_cr _ H).
  - set (r := collapse_newlines O _).
    assert (S : short_runs O r = true) by apply (collapse_newlines_short _ O).
    destruct (trim_segment r) as (a & b & E). rewrite E in S.
    apply short_runs_app_r in S. apply short_runs_app_l in S. exact S.
  - apply trim_idem.
Qed.

End Sanitize.

(** X26: [sanitizeText] gives a text in normal form, and changes
    nothing in a text it has produced: the result holds no carriage
    return and no run of more than two line feeds, has no white space at
    either end, and sanitizing it again gives it back. *)
Theorem X26_sanitize_normal_form (text : jsstring) :
  let clean := Utils.sanitizeText text in
  ~ In 13%N clean
  /\ short_runs O clean = true
  /\ trim clean = clean
  /\ Utils.sanitizeText clean = clean.
Proof.
  cbv zeta. destruct (sanitizeText_normal text) as (C & R & T).
  repeat split; try assumption.
  unfold Utils.sanitizeText at 1.
  rewrite (replace_crlf_fixed _ C), (replace_cr_fixed _ C),
    (collapse_newlines_fixed _ _ R).
  exact T.
Qed.

(* ================================================================== *)
(** * The poller of a queued batch *)
(* ================================================================== *)

Lemma poll_status_find (pages : list Reader.Page)
    (replies : list Reader.PollReply) :
  forall attempts, 0 <= attempts ->
    Reader.poll_status pages attempts replies
    = match List.find decisive
              (take (Z.to_nat (300 - attempts)) replies) with
      | Some r => poll_outcome pages r
      | None => []
      end.
Proof.
  induction replies as [|r replies IH]; intros attempts Ha.
  - rewrite take_nil. reflexivity.
  - cbn [Reader.poll_status].
    destruct (300 <=? attempts) eqn:L.
    + apply Z.leb_le in L.
      replace (Z.to_nat (300 - attempts)) with O by lia. reflexivity.
    + apply Z.leb_gt in L.
      replace (Z.to_nat (300 - attempts))
        with (S (Z.to_nat (300 - (attempts + 1)))) by lia.
      cbn [take List.find]. unfold decisive at 1, poll_outcome.
      specialize (IH (attempts + 1) ltac:(lia)).
      destruct (Reader.reply_status r) as [[]|] eqn:S1; try exact IH.
      * destruct (Reader.reply_result r) as [res|] eqn:S2; [|exact IH].
        destruct (success res); [|exact IH].
        cbv beta iota. rewrite S1, S2. reflexivity.
      * cbv beta iota. rewrite S1. reflexivity.
Qed.

(** X27: the poller of a queued batch asks for the status at most 300
    times and acts on the first reply that reports the job failed or
    completed with success: it sets the summaries of the result in the
    second case and none in the first.  Every other reply, also one that
    reports completion without success, is polled past, and when no
    decisive reply comes in 300 polls no summary is set. *)
Theorem X27_poller_outcome (pages : list Reader.Page)
    (replies : list Reader.PollReply) :
  Reader.poll_status pages 0 replies
  = match List.find decisive (take 300 replies) with
    | Some r => poll_outcome pages r
    | None => []
    end.
Proof. apply (poll_status_find pages replies 0). lia. Qed.

(* ================================================================== *)
(** * Pre-loading pages *)
(* ================================================================== *)

(** X28: on a loaded document whose page count the reader holds,
    [preloadPages] reads only pages the loader can read, whatever page
    numbers it is given and whatever is cached: no read is refused as
    out of range or not loaded.  A text it queues for a summary belongs
    to a page of the document and is not empty. *)
Theorem X28_preload_in_range (reg : PdfLoader.Registry) (id : jsstring)
    (doc : PdfLoader.Doc)
    (pageTextCache pageImageCache pageSummaryCache : gmap Z jsstring)
    (getPageImage : Z -> thrown jsstring) (pageNumbers : list Z) :
  reg !! id = Some doc ->
  Forall (preload_ok reg id doc)
    (Pages.preloadPages (PdfLoader.numPages doc) pageTextCache
       pageImageCache pageSummaryCache (PdfLoader.getPageText reg id)
       getPageImage pageNumbers).
Proof.
  intro Hreg. unfold Pages.preloadPages.
  induction pageNumbers as [|n pageNumbers IH]; [constructor|].
  cbn [flat_map]. apply Forall_app. split; [|exact IH].
  unfold Pages.preload_page.
  destruct ((n <? 1) || (PdfLoader.numPages doc <? n)) eqn:G;
    [constructor|].
  apply orb_false_iff in G. destruct G as [G1 G2].
  apply Z.ltb_ge in G1, G2.
  assert (R : PdfLoader.getPageText reg id n
              = Return (PdfLoader.items_text (PdfLoader.textItems doc n))).
  { rewrite getPageText_lookup.
    unfold PdfLoader.Registry, jsstring in *. rewrite Hreg.
    replace (1 <=? n) with true by (symmetry; apply Z.leb_le; lia).
    replace (n <=? PdfLoader.numPages doc) with true
      by (symmetry; apply Z.leb_le; lia).
    reflexivity. }
  assert (I : Forall (preload_ok reg id doc)
                (if negb (Pages.cached pageImageCache n)
                 then match getPageImage n with
                      | Return imageData =>
                          [Pages.GetPageImage n;
                           Pages.SetPageImage n imageData]
                      | Throw _ => [Pages.GetPageImage n]
                      end
                 else [])).
  { destruct (negb (Pages.cached pageImageCache n)); [|constructor].
    destruct (getPageImage n); repeat constructor; simpl; lia. }
  destruct (negb (Pages.cached pageTextCache n)) eqn:T.
  - rewrite R. apply Forall_app. split; [|exact I].
    constructor; [exact R|]. constructor; [simpl; lia|].
    destruct (trim (PdfLoader.items_text (PdfLoader.textItems doc n)))
      as [|c t] eqn:E; cbn [truthy_str]; [constructor|].
    constructor; [|constructor]. simpl. split; [lia|].
    intro N. rewrite N in E. discriminate.
  - apply negb_false_iff in T.
    destruct (negb (Pages.cached pageSummaryCache n)).
    + apply Forall_app. split; [|exact I].
      constructor; [|constructor]. simpl. split; [lia|].
      unfold Pages.cached in T.
      destruct (pageTextCache !! n) as [[|c t]|]; simpl in *;
        congruence.
    + exact I.
Qed.

Lemma X28_preload_in_range_witness :
  Forall (preload_ok {[ js "doc-1" := Examples.two_page_doc ]} (js "doc-1")
            Examples.two_page_doc)
    (Pages.preloadPages 2 ∅ ∅ ∅
       (PdfLoader.getPageText {[ js "doc-1" := Examples.two_page_doc ]}
          (js "doc-1"))
       (fun _ => Throw (js "Unable to get canvas context."))
       [0; 1; 2; 3]).
Proof.
  apply (X28_preload_in_range {[ js "doc-1" := Examples.two_page_doc ]}
           (js "doc-1") Examples.two_page_doc ∅ ∅ ∅).
  apply lookup_singleton_eq.
Defined.

Section PassageWords.

Import Widget.

(** The pieces of a split hold no white space. *)
Lemma split_ws_pieces (s : jsstring) :
  forall b, List.Forall (List.Forall (fun c => is_ws c = false))
              (split_ws b s).
Proof.
  induction s as [|c s IH]; intro b; cbn [split_ws].
  - repeat constructor.
  - destruct (is_ws c) eqn:W.
    + destruct b; [apply IH|]. constructor; [constructor|apply IH].
    + specialize (IH false).
      destruct (split_ws false s) as [|l ls].
      * repeat constructor. exact W.
      * inversion IH; subst. constructor; [|assumption].
        constructor; assumption.
Qed.

Lemma ws_runs_flag (s : jsstring) :
  ws_runs true s <= ws_runs false s <= ws_runs true s + 1.
Proof. destruct s as [|c s]; simpl; [lia|]. destruct (is_ws c); lia. Qed.

Lemma ws_runs_app (x y : jsstring) :
  forall b, ws_runs b x <= ws_runs b (x ++ y) <= ws_runs b x + ws_runs false y.
Proof.
  induction x as [|c x IH]; intro b; cbn [app ws_runs].
  - pose proof (ws_runs_flag y). pose proof (ws_runs_bounds y b).
    destruct b; lia.
  - destruct (is_ws c).
    + specialize (IH true). destruct b; lia.
    + apply IH.
Qed.

Lemma ws_runs_after (a y : jsstring) :
  forall b, ws_runs true y <= ws_runs b (a ++ y).
Proof.
  induction a as [|c a IH]; intro b; cbn [app ws_runs].
  - pose proof (ws_runs_flag y). destruct b; lia.
  - destruct (is_ws c).
    + specialize (IH true). destruct b; lia.
    + apply IH.
Qed.

Lemma ws_runs_word (w : jsstring) (b : bool) :
  List.Forall (fun c => is_ws c = false) w -> ws_runs b w = 0.
Proof.
  intro F. revert b. induction F as [|c w W _ IH]; intro b; simpl;
    [reflexivity|].
  rewrite W. apply IH.
Qed.

Lemma ws_runs_trim (s : jsstring) :
  ws_runs false (trim s) <= ws_runs false s.
Proof.
  destruct (trim_segment s) as (a & b & E).
  pose proof (trim_head s) as H.
  pose proof (ws_runs_after a (trim s ++ b) false) as A.
  rewrite <- E in A.
  pose proof (proj1 (ws_runs_app (trim s) b false)) as B.
  destruct (trim s) as [|c m]; [simpl; pose proof (ws_runs_bounds s false); lia|].
  simpl in H. apply negb_true_iff in H.
  cbn [app ws_runs] in *. rewrite H in *. lia.
Qed.

Lemma ws_runs_join (words : list jsstring) :
  List.Forall (List.Forall (fun c => is_ws c = false)) words ->
  ws_runs false (join_words words) <= Z.of_nat (length words) - 1
  \/ words = [].
Proof.
  induction 1 as [|w words W _ IH]; [right; reflexivity|]. left.
  cbn [join_words]. destruct words as [|w' words].
  - rewrite (ws_runs_word _ _ W). simpl. lia.
  - destruct IH as [IH|IH]; [|discriminate].
    pose proof (proj2 (ws_runs_app w (32%N :: join_words (w' :: words))
                         false)) as A.
    rewrite (ws_runs_word _ _ W) in A.
    pose proof (ws_runs_flag (join_words (w' :: words))) as Fl.
    change (ws_runs false (32%N :: join_words (w' :: words)))
      with (1 + ws_runs true (join_words (w' :: words))) in A.
    cbn [length] in *. lia.
Qed.

(** A part of the passage: the words kept on one side, joined and
    trimmed. *)
Lemma part_runs (words : list jsstring) (n : nat) :
  List.Forall (List.Forall (fun c => is_ws c = false)) words ->
  (length words <= n)%nat -> (0 < n)%nat ->
  ws_runs false (trim (join_words words)) <= Z.of_nat n - 1.
Proof.
  intros F L N. pose proof (ws_runs_trim (join_words words)) as T.
  destruct (ws_runs_join words F) as [J|J].
  - lia.
  - subst words. simpl in *. lia.
Qed.

Lemma Forall_drop_words (k : nat) (words : list jsstring) :
  List.Forall (List.Forall (fun c => is_ws c = false)) words ->
  List.Forall (List.Forall (fun c => is_ws c = false)) (drop k words).
Proof.
  intro F. apply List.Forall_forall. intros w Hw.
  rewrite List.Forall_forall in F. apply F.
  apply list_elem_of_In. apply list_elem_of_In in Hw.
  eapply subseteq_drop. exact Hw.
Qed.

Lemma Forall_take_words (k : nat) (words : list jsstring) :
  List.Forall (List.Forall (fun c => is_ws c = false)) words ->
  List.Forall (List.Forall (fun c => is_ws c = false)) (take k words).
Proof.
  intro F. apply List.Forall_forall. intros w Hw.
  rewrite List.Forall_forall in F. apply F.
  apply list_elem_of_In. apply list_elem_of_In in Hw.
  eapply subseteq_take. exact Hw.
Qed.

Lemma context_words (fullText selectedText : jsstring) (n : nat) :
  (0 < n)%nat ->
  split_ws_length (getSurroundingContext fullText selectedText n)
  <= 2 * Z.of_nat n.
Proof.
  intro N. unfold split_ws_length, getSurroundingContext.
  destruct (indexOf fullText selectedText) as [k|]; [|simpl; lia].
  cbv zeta.
  set (before := trim (join_words (slice_from_end n _))).
  set (after := trim (join_words (take n _))).
  assert (B : ws_runs false before <= Z.of_nat n - 1).
  { unfold before, slice_from_end. destruct n as [|n']; [lia|].
    apply part_runs; [apply Forall_drop_words, split_ws_pieces| |lia].
    rewrite length_drop. lia. }
  assert (A : ws_runs false after <= Z.of_nat n - 1).
  { unfold after.
    apply part_runs; [apply Forall_take_words, split_ws_pieces| |lia].
    rewrite length_take. lia. }
  pose proof (ws_runs_bounds before false) as Pb.
  pose proof (ws_runs_bounds after false) as Pa.
  destruct (truthy_str before), (truthy_str after); cbn [app join_words].
  - pose proof (ws_runs_trim (before ++ 32%N :: after)) as T.
    pose proof (proj2 (ws_runs_app before (32%N :: after) false)) as J.
    pose proof (ws_runs_flag after) as Fl.
    change (ws_runs false (32%N :: after)) with (1 + ws_runs true after) in J.
    lia.
  - pose proof (ws_runs_trim before) as T. lia.
  - pose proof (ws_runs_trim after) as T. lia.
  - change (trim []) with (@nil BinNums.N). simpl. lia.
Qed.

End PassageWords.

(** X29: the passage the widget takes around a selection is short: for
    a positive word limit it has at most twice that many words, as the
    router counts them, however long the text is. *)
Theorem X29_context_bounded (fullText selectedText : jsstring) (n : nat) :
  (0 < n)%nat ->
  split_ws_length (Widget.getSurroundingContext fullText selectedText n)
  <= 2 * Z.of_nat n.
Proof. apply context_words. Qed.

Lemma X29_context_bounded_witness :
  split_ws_length
    (Widget.getSurroundingContext
       (js "Heat flows. Entropy is a measure of disorder. It grows.")
       (js "measure") 2)
  <= 4.
Proof.
  apply (X29_context_bounded
           (js "Heat flows. Entropy is a measure of disorder. It grows.")
           (js "measure") 2).
  lia.
Defined.
